(** * VeloVAE: transition graph and training loop, verified against the code

    A shallow embedding of [velovae/model/TransitionGraph.py] and of the
    early-stopping loop of [velovae/model/BrODE.py].

    - Python dictionaries are [gmap]s (or association lists where the
      iteration order is observable), numpy arrays are lists, a 2-d array is
      a list of rows.
    - A Python exception is a value of [exn]; fallible code lives in the
      [result] monad.
    - [np.random.choice] reads a stream of draws; the position in the stream
      is threaded as state.
    - An array mutated in place is passed in and handed back. *)

From Stdlib Require Import ZArith QArith Qcanon Lia List Bool.
From Stdlib Require Import Structures.OrdersEx.
From stdpp Require Import base tactics option list numbers gmap strings sorting.


(** ** Exceptions *)

Inductive exn : Type :=
| KeyError
| IndexError
| NameError
| ZeroDivisionError
| AssertionError
| OutOfFuel.

Inductive result (A : Type) : Type :=
| Ok (a : A)
| Raise (e : exn).
Arguments Ok {A} a.
Arguments Raise {A} e.

Definition rbind {A B} (m : result A) (k : A → result B) : result B :=
  match m with
  | Ok a => k a
  | Raise e => Raise e
  end.

Notation "x <- m ;; k" := (rbind m (λ x, k))
  (at level 100, m at next level, right associativity,
   format "'[v' x  <-  m  ;;  '/' k ']'").

Definition of_option {A} (e : exn) (o : option A) : result A :=
  match o with
  | Some a => Ok a
  | None => Raise e
  end.

(** A list comprehension whose body may raise: stops at the first exception. *)
Fixpoint rmap {A B} (f : A → result B) (l : list A) : result (list B) :=
  match l with
  | [] => Ok []
  | a :: l' => b <- f a ;; bs <- rmap f l' ;; Ok (b :: bs)
  end.

(** ** Label encoding ([encode_type], [str2int], [int2str], [decode_graph]) *)

Module Encode.

(** [for i, type_ in enumerate(cell_types_raw)]: the loop of [encode_type],
    started at index [i] with the two dictionaries built so far. *)
Fixpoint encode_loop (i : nat) (cell_types_raw : list string)
    (label_dic : gmap string nat) (label_dic_rev : gmap nat string)
    : gmap string nat * gmap nat string :=
  match cell_types_raw with
  | [] => (label_dic, label_dic_rev)
  | type_ :: rest =>
      encode_loop (S i) rest (<[type_ := i]> label_dic) (<[i := type_]> label_dic_rev)
  end.

Definition encode_type (cell_types_raw : list string)
    : gmap string nat * gmap nat string :=
  encode_loop 0 cell_types_raw ∅ ∅.

(** [label_dic[x]] raises [KeyError] on a missing key. *)
Definition str2int (cell_labels_raw : list string) (label_dic : gmap string nat)
    : result (list nat) :=
  rmap (λ x, of_option KeyError (label_dic !! x)) cell_labels_raw.

Definition int2str (cell_labels : list nat) (label_dic_rev : gmap nat string)
    : result (list string) :=
  rmap (λ x, of_option KeyError (label_dic_rev !! x)) cell_labels.

(** [np.unique] on a 1-d array of strings: the sorted distinct elements.
    Strings are ordered by code point, which is [String_as_OT.compare]. *)
Fixpoint unique_insert (x : string) (l : list string) : list string :=
  match l with
  | [] => [x]
  | y :: l' =>
      match String_as_OT.compare x y with
      | Lt => x :: y :: l'
      | Eq => y :: l'
      | Gt => y :: unique_insert x l'
      end
  end.

Definition np_unique (a : list string) : list string :=
  foldr unique_insert [] a.

(** The part of [TransGraph.__init__] that builds the encoding:
    [cell_types_raw = np.unique(cell_labels_raw)], then [encode_type]. *)
Definition TransGraph_cell_types_raw (cell_labels_raw : list string) : list string :=
  np_unique cell_labels_raw.

Definition TransGraph_label_dic (cell_labels_raw : list string) : gmap string nat :=
  (encode_type (TransGraph_cell_types_raw cell_labels_raw)).1.

Definition TransGraph_label_dic_rev (cell_labels_raw : list string) : gmap nat string :=
  (encode_type (TransGraph_cell_types_raw cell_labels_raw)).2.

(** [self.cell_labels = np.array([self.label_dic[x] for x in cell_labels_raw])] *)
Definition TransGraph_cell_labels (cell_labels_raw : list string) : result (list nat) :=
  str2int cell_labels_raw (TransGraph_label_dic cell_labels_raw).

(** The order the claim speaks of: distinct labels in order of first
    occurrence in the label array. *)
Fixpoint first_seen_from (seen : list string) (a : list string) : list string :=
  match a with
  | [] => []
  | x :: a' =>
      if decide (x ∈ seen) then first_seen_from seen a'
      else x :: first_seen_from (x :: seen) a'
  end.

Definition first_seen (a : list string) : list string := first_seen_from [] a.

(** *** [decode_graph] and the names it can see *)

(** The values held by the local names of [decode_graph]. *)
Inductive pyval : Type :=
| VGraphInt (g : list (nat * list nat))
| VGraphStr (g : gmap string (list string))
| VInts (l : list nat)
| VStrs (l : list string)
| VInt (n : nat)
| VRevDict (d : gmap nat string)
| VGlobal (name : string).

(** Module-level names of [TransitionGraph.py]: its imports, functions and
    class. *)
Definition module_globals : list string :=
  ["np"; "deepcopy"; "csr_matrix"; "sc"; "NearestNeighbors";
   "knn_transition_prob"; "encode_type"; "encode_graph"; "decode_graph";
   "encode_type_graph"; "str2int"; "int2str"; "recover_transition_time_rec";
   "recoverTransitionTime"; "merge_nodes"; "adj_matrix_to_list";
   "check_connected"; "get_loop"; "check_loop"; "edmond_chu_liu";
   "TransGraph"].

(** Names assigned somewhere in the body of [decode_graph] (its parameters
    included): Python compiles a read of any other name into a lookup in the
    module's globals. *)
Definition decode_graph_local_names : list string :=
  ["graph"; "init_types"; "label_dic_rev"; "graph_dec"; "type_";
   "init_types_dec"].

Definition load_name (locals : gmap string pyval) (name : string) : result pyval :=
  if decide (name ∈ decode_graph_local_names) then
    of_option NameError (locals !! name)
  else if decide (name ∈ module_globals) then Ok (VGlobal name)
  else Raise NameError.

(** [[label_dic_rev[child] for child in children]] *)
Definition decode_list (label_dic_rev : gmap nat string) (l : list nat)
    : result (list string) :=
  rmap (λ x, of_option KeyError (label_dic_rev !! x)) l.

(** The [for type_ in graph.keys()] loop; [graph] is a dictionary in
    insertion order, [graph_dec] the dictionary built so far (a later
    assignment to the same key replaces the earlier one). *)
Fixpoint decode_loop (label_dic_rev : gmap nat string)
    (graph : list (nat * list nat)) (locals : gmap string pyval)
    (graph_dec : gmap string (list string))
    : result (gmap string pyval * gmap string (list string)) :=
  match graph with
  | [] => Ok (locals, graph_dec)
  | (type_, children) :: rest =>
      let locals := <["type_" := VInt type_]> locals in
      key <- of_option KeyError (label_dic_rev !! type_) ;;
      dec <- decode_list label_dic_rev children ;;
      decode_loop label_dic_rev rest locals (<[key := dec]> graph_dec)
  end.

(** Everything before the [return] statement. The result is the local
    namespace at the [return]. *)
Definition decode_body (graph : list (nat * list nat)) (init_types : list nat)
    (label_dic_rev : gmap nat string) : result (gmap string pyval) :=
  let locals : gmap string pyval :=
    {[ "graph" := VGraphInt graph; "init_types" := VInts init_types;
       "label_dic_rev" := VRevDict label_dic_rev ]} in
  st <- decode_loop label_dic_rev graph locals ∅ ;;
  let '(locals, graph_dec) := st in
  let locals := <["graph_dec" := VGraphStr graph_dec]> locals in
  init_types_dec <- decode_list label_dic_rev init_types ;;
  let locals := <["init_types_dec" := VStrs init_types_dec]> locals in
  Ok locals.

(** [return graph_enc, init_types_enc] *)
Definition decode_graph (graph : list (nat * list nat)) (init_types : list nat)
    (label_dic_rev : gmap nat string) : result (pyval * pyval) :=
  locals <- decode_body graph init_types label_dic_rev ;;
  a <- load_name locals "graph_enc" ;;
  b <- load_name locals "init_types_enc" ;;
  Ok (a, b).

End Encode.

(** ** Early stopping ([BrODE.train_epoch], [BrODE.train]) *)

Module Train.

(** The entries of [self.config] that the epoch loop reads. *)
Record config : Type := {
  n_epochs : nat;
  test_iter : Z;
  early_stop : Z;
  early_stop_thred : Qc;
}.

(** The attributes of the trainer that the epoch loop updates:
    [self.counter], [self.n_drop], [self.loss_test]. *)
Record trainer : Type := {
  counter : nat;
  n_drop : Z;
  loss_test : list Qc;
}.

Section loop.
(** [cfg] is [self.config]; [ll_seq k] is the value returned by the [k]-th
    held-out evaluation [self.test(test_set, self.counter)] of the run
    (counted from 0); [n_batches] is [len(train_loader)]. *)
Variable cfg : config.
Variable ll_seq : nat → Qc.
Variable n_batches : nat.

(** [self.counter==1 or self.counter % self.config["test_iter"] == 0] *)
Definition test_due (st : trainer) : result bool :=
  if (counter st =? 1)%nat then Ok true
  else if (test_iter cfg =? 0)%Z then Raise ZeroDivisionError
  else Ok (Z.of_nat (counter st) mod test_iter cfg =? 0)%Z.

(** The body of the [if] up to [self.loss_test.append(ll_test)]. *)
Definition evaluate (st : trainer) : trainer :=
  let ll_test := ll_seq (length (loss_test st)) in
  let n_drop' :=
    match last (loss_test st) with
    | Some prev =>
        if bool_decide (ll_test - prev ≤ early_stop_thred cfg)%Qc
        then (n_drop st + 1)%Z else 0%Z
    | None => n_drop st
    end in
  {| counter := counter st; n_drop := n_drop';
     loss_test := loss_test st ++ [ll_test] |}.

(** [self.n_drop>=self.config["early_stop"] and self.config["early_stop"]>0] *)
Definition stop_now (st : trainer) : bool :=
  (early_stop cfg <=? n_drop st)%Z && (0 <? early_stop cfg)%Z.

(** The optimizer step of one minibatch, as far as the trainer's
    attributes go: [self.counter = self.counter + 1]. *)
Definition optimizer_step (st : trainer) : trainer :=
  {| counter := S (counter st); n_drop := n_drop st;
     loss_test := loss_test st |}.

(** [for i, batch in enumerate(train_loader)] over the [batches] that are
    left; the boolean is [stop_training]. *)
Fixpoint train_batches (batches : nat) (st : trainer) : result (trainer * bool) :=
  match batches with
  | O => Ok (st, false)
  | S rest =>
      match test_due st with
      | Raise e => Raise e
      | Ok due =>
          let st1 := if due then evaluate st else st in
          if due && stop_now st1 then Ok (st1, true)
          else train_batches rest (optimizer_step st1)
      end
  end.

Definition train_epoch (st : trainer) : result (trainer * bool) :=
  train_batches n_batches st.

(** [for epoch in range(n_epochs)] over the [epochs] that are left. *)
Fixpoint train_epochs (epochs : nat) (st : trainer) : result (trainer * bool) :=
  match epochs with
  | O => Ok (st, false)
  | S rest =>
      match train_epoch st with
      | Raise e => Raise e
      | Ok (st', stop_training) =>
          if stop_training then Ok (st', true) else train_epochs rest st'
      end
  end.

(** The state set up by [BrODE.__init__]. *)
Definition init : trainer := {| counter := 0; n_drop := 0; loss_test := [] |}.

(** [BrODE.train]: the final trainer state and whether early stopping was
    triggered. *)
Definition train : result (trainer * bool) := train_epochs (n_epochs cfg) init.

(** How many held-out evaluations fall on the [steps] minibatches that
    start at counter value [c]. *)
Fixpoint evals_in (c steps : nat) : nat :=
  match steps with
  | O => O
  | S rest =>
      let due := (c =? 1)%nat || (Z.of_nat c mod test_iter cfg =? 0)%Z in
      ((if due then 1 else 0) + evals_in (S c) rest)%nat
  end.

(** Evaluation [k] (counted from 0, [k > 0]) does not improve on the one
    before it by more than the threshold. *)
Definition plateau_at (k : nat) : Prop :=
  (ll_seq k - ll_seq (pred k) ≤ early_stop_thred cfg)%Qc.
End loop.

End Train.

(** ** Graph pruning ([TransGraph.compute_transition_deterministic], the
       loop that builds [P] and its row normalisation) *)

Module Prune.

(** A numpy float: an exact rational stands for a finite value (rounding is
    not modelled), next to the infinities and NaN that division by zero
    produces. *)
Inductive npfloat : Type :=
| Num (q : Qc)
| PosInf
| NegInf
| NaN.

Global Instance npfloat_inhabited : Inhabited npfloat := populate (Num 0).
Global Instance Qc_inhabited : Inhabited Qc := populate 0%Qc.

Global Instance npfloat_eq_dec : EqDecision npfloat.
Proof. solve_decision. Defined.

Definition fl_add (a b : npfloat) : npfloat :=
  match a, b with
  | NaN, _ | _, NaN => NaN
  | PosInf, NegInf | NegInf, PosInf => NaN
  | PosInf, _ | _, PosInf => PosInf
  | NegInf, _ | _, NegInf => NegInf
  | Num x, Num y => Num (x + y)
  end.

Definition fl_div (a b : npfloat) : npfloat :=
  match a, b with
  | NaN, _ | _, NaN => NaN
  | Num x, Num y =>
      if decide (y = 0)%Qc then
        if decide (x = 0)%Qc then NaN
        else if decide (0 < x)%Qc then PosInf else NegInf
      else Num (x / y)
  | Num _, _ => Num 0
  | PosInf, Num y => if decide (0 ≤ y)%Qc then PosInf else NegInf
  | NegInf, Num y => if decide (0 ≤ y)%Qc then NegInf else PosInf
  | _, _ => NaN
  end.

(** The order numpy sorts floats in: NaN goes last. *)
Definition sort_le (a b : npfloat) : bool :=
  match a, b with
  | _, NaN => true
  | NaN, _ => false
  | NegInf, _ => true
  | _, NegInf => false
  | _, PosInf => true
  | PosInf, _ => false
  | Num x, Num y => bool_decide (x ≤ y)%Qc
  end.

(** [np.argsort]: the indices of [row] in ascending order of their entries.
    Entries that compare equal keep their index order, which is what numpy's
    insertion sort does on the short rows at hand. *)
Fixpoint insert_idx (row : list npfloat) (j : nat) (sorted : list nat) : list nat :=
  match sorted with
  | [] => [j]
  | i :: rest =>
      if sort_le (row !!! i) (row !!! j) then i :: insert_idx row j rest
      else j :: i :: rest
  end.

Definition argsort (row : list npfloat) : list nat :=
  foldl (λ sorted j, insert_idx row j sorted) [] (seq 0 (length row)).

Definition the_floor : Qc := Q2Qc (1 # 1000).

Section row.
Variable t_init : list Qc.
Variable n_par : Z.
(** [i] is the row being pruned, [row] is [P_raw[i]]. *)
Variable i : nat.
Variable row : list npfloat.

(** [(not idx_sort[j]==i) and (t_init[idx_sort[j]]<=t_init[i])] *)
Definition eligible (idx : nat) : bool :=
  bool_decide (idx ≠ i) && bool_decide (t_init !!! idx ≤ t_init !!! i)%Qc.

(** The [for j in range(P.shape[1])] loop over what is left of [idx_sort],
    with its [break]. [Pi] is [P[i]]. *)
Fixpoint select_parents (idx_sort : list nat) (count : Z) (Pi : list npfloat)
    : list npfloat :=
  match idx_sort with
  | [] => Pi
  | idx :: rest =>
      let Pi' := if eligible idx then <[idx := row !!! idx]> Pi else Pi in
      let count' := if eligible idx then (count + 1)%Z else count in
      if (count' =? n_par)%Z then Pi' else select_parents rest count' Pi'
  end.

(** [if(t_init[j]<t_init[i]): P[i,j] += 1e-3] for every [j]. *)
Definition add_floor (Pi : list npfloat) : list npfloat :=
  imap (λ j x, if bool_decide (t_init !!! j < t_init !!! i)%Qc
               then fl_add x (Num the_floor) else x) Pi.

(** One turn of the [for i in range(P.shape[0])] loop: row [i] of [P]
    before normalisation. *)
Definition prune_row : result (list npfloat) :=
  let idx_sort := reverse (argsort row) in
  let Pi := select_parents idx_sort 0 (replicate (length row) (Num 0)) in
  if decide (Pi !!! i = Num 0) then Ok (add_floor Pi) else Raise AssertionError.
End row.

(** [psum = P.sum(1)] and [P/psum.reshape(-1,1)] on one row. *)
Definition row_sum (Pi : list npfloat) : npfloat := foldl fl_add (Num 0) Pi.

Definition normalise_row (Pi : list npfloat) : list npfloat :=
  (λ x, fl_div x (row_sum Pi)) <$> Pi.

(** Lines 415-431: the pruned, row-normalised [P] from [P_raw], the initial
    times and [n_par]. *)
Definition prune (P_raw : list (list npfloat)) (t_init : list Qc) (n_par : Z)
    : result (list (list npfloat)) :=
  P <- rmap (λ '(i, row), prune_row t_init n_par i row) (imap pair P_raw) ;;
  Ok (normalise_row <$> P).

End Prune.

(** ** The arborescence solver ([edmond_chu_liu] and its helpers) *)

Module Arbor.

(** An entry of the log-weight matrix: [-np.inf] (no edge) or a finite
    log-weight. Finite weights are exact integers here: the solver only
    compares them, takes maxima and, in [merge_nodes], differences. No other
    float arises: the one subtraction, [graph[x,y] - graph[x,parents[x]]],
    is guarded by [graph[x,y]] being finite, and then [graph[x,parents[x]]]
    is the maximum of a row that has a finite entry. *)
Inductive weight : Type :=
| NegInf
| Finite (w : Z).

Global Instance weight_inhabited : Inhabited weight := populate NegInf.
Global Instance weight_eq_dec : EqDecision weight.
Proof. solve_decision. Defined.

(** [np.isinf] *)
Definition isinf (w : weight) : bool :=
  match w with
  | NegInf => true
  | Finite _ => false
  end.

(** [a - b] *)
Definition wsub (a b : weight) : weight :=
  match a, b with
  | Finite x, Finite y => Finite (x - y)
  | _, _ => NegInf
  end.

(** [a > b] *)
Definition wgt (a b : weight) : bool :=
  match a, b with
  | NegInf, _ => false
  | Finite _, NegInf => true
  | Finite x, Finite y => (y <? x)%Z
  end.

(** [M[i,j]] and [M[i,j] = v] on a 2-d array. *)
Definition mget {A} `{Inhabited A} (M : list (list A)) (i j : nat) : A :=
  (M !!! i) !!! j.

Definition mset {A} (M : list (list A)) (i j : nat) (v : A) : list (list A) :=
  alter (λ row, <[j := v]> row) i M.

(** A run of assignments [M[i,j] = v], in program order. *)
Definition apply_writes {A} (ws : list (nat * nat * A)) (M : list (list A))
    : list (list A) :=
  foldl (λ M w, mset M w.1.1 w.1.2 w.2) M ws.

(** [np.max(graph[i][idx_noninf])]: [None] when [idx_noninf] is empty. *)
Definition row_max (row : list weight) : option Z :=
  foldr (λ w acc,
          match w, acc with
          | Finite a, Some b => Some (Z.max a b)
          | Finite a, None => Some a
          | NegInf, _ => acc
          end) None row.

(** [np.where(graph[i]==max_val)[0][0]] *)
Definition first_index (max_val : Z) (row : list weight) : nat :=
  match list_find (λ w, w = Finite max_val) row with
  | Some (j, _) => j
  | None => 0
  end.

(** [adj_list_pruned]: the children of each node under [parents], the root
    [r] being nobody's child. *)
Definition adj_list_pruned (n_type r : nat) (parents : list nat) : list (list nat) :=
  foldl (λ adj i, if decide (i = r) then adj
                  else alter (λ l, l ++ [i]) (parents !!! i) adj)
        (replicate n_type []) (seq 0 n_type).

(** The [while] loop of [get_loop]. A missing key ends it with the loop built
    so far ([except KeyError]). The walk follows a finite map, so when it has
    not ended after [size trace_back + 1] steps it never will. *)
Fixpoint trace_loop (fuel : nat) (trace_back : gmap nat nat) (start ptr : nat)
    (loop : list nat) : result (list nat) :=
  match fuel with
  | O => Raise OutOfFuel
  | S fuel' =>
      match trace_back !! ptr with
      | None => Ok loop
      | Some p =>
          if decide (p = start) then Ok (loop ++ [start])
          else trace_loop fuel' trace_back start p (loop ++ [p])
      end
  end.

Definition get_loop (trace_back : gmap nat nat) (n_nodes start : nat)
    : result (list nat * list nat) :=
  loop <- trace_loop (S (size trace_back)) trace_back start start [] ;;
  let v_outside := filter (λ i, i ∉ loop) (seq 0 n_nodes) in
  Ok (reverse loop, v_outside).

(** How the [while] loop of [check_loop] ends for one start node: with a
    [return], or by running out of queue or hitting the [break]. *)
Inductive bfs_exit : Type :=
| Found (loop v_outside : list nat)
| Exhausted.

(** The [while(len(queue)>0)] loop. Every turn that does not end the loop
    marks a node that was not marked, so [n_nodes + 1] turns are enough. *)
Fixpoint bfs (fuel : nat) (adj_list : list (list nat)) (n_nodes : nat)
    (queue : list nat) (checked : list bool) (trace_back : gmap nat nat)
    : result bfs_exit :=
  match fuel with
  | O => Raise OutOfFuel
  | S fuel' =>
      match queue with
      | [] => Ok Exhausted
      | ptr :: queue =>
          if (checked !!! ptr : bool) then
            lv <- get_loop trace_back n_nodes ptr ;;
            if decide (length lv.1 = 1) then Ok Exhausted
            else Ok (Found lv.1 lv.2)
          else
            let checked := <[ptr := true]> checked in
            let children := adj_list !!! ptr in
            let trace_back :=
              foldl (λ tb child, <[child := ptr]> tb) trace_back children in
            bfs fuel' adj_list n_nodes (queue ++ children) checked trace_back
      end
  end.

(** [for node in range(n_nodes)] over the start nodes that are left. *)
Fixpoint check_loop_from (adj_list : list (list nat)) (n_nodes : nat)
    (nodes : list nat) : result (list nat * list nat) :=
  match nodes with
  | [] => Ok ([], seq 0 n_nodes)
  | node :: rest =>
      e <- bfs (S n_nodes) adj_list n_nodes [node] (replicate n_nodes false) ∅ ;;
      match e with
      | Found loop v_outside => Ok (loop, v_outside)
      | Exhausted => check_loop_from adj_list n_nodes rest
      end
  end.

Definition check_loop (adj_list : list (list nat)) (n_nodes : nat)
    : result (list nat * list nat) :=
  check_loop_from adj_list n_nodes (seq 0 n_nodes).

(** *** [merge_nodes] *)

(** The four dictionaries filled by the double loop of [merge_nodes]. *)
Record loop_edges : Type := {
  v_to_loop : gmap nat nat;
  weight_to_loop : gmap nat weight;
  loop_to_v : gmap nat nat;
  weight_from_loop : gmap nat weight;
}.

Definition no_edges : loop_edges :=
  {| v_to_loop := ∅; weight_to_loop := ∅; loop_to_v := ∅; weight_from_loop := ∅ |}.

Record merged : Type := {
  v_map : gmap nat nat;
  edges : loop_edges;
  graph_new : list (list weight);
}.

Section merge.
Variable graph : list (list weight).
Variable parents : list nat.
Variable n_nodes : nat.
Variable loop : list nat.
Variable v_outside : list nat.

Definition build_v_map : gmap nat nat :=
  let st :=
    foldl (λ (st : gmap nat nat * nat) i,
             if decide (i ∈ loop) then st
             else (<[i := st.2]> st.1, S st.2))
          (∅, 0) (seq 0 n_nodes) in
  foldl (λ vm i, <[i := st.2]> vm) st.1 loop.

(** The body of [for x in loop: for y in v_outside:]. *)
Definition merge_edge (x y : nat) (e : loop_edges) : loop_edges :=
  let e1 :=
    if isinf (mget graph x y) then e
    else
      let w := wsub (mget graph x y) (mget graph x (parents !!! x)) in
      if decide (v_to_loop e !! y = None) then
        {| v_to_loop := <[y := x]> (v_to_loop e);
           weight_to_loop := <[y := w]> (weight_to_loop e);
           loop_to_v := loop_to_v e; weight_from_loop := weight_from_loop e |}
      else if wgt w (weight_to_loop e !!! y) then
        {| v_to_loop := <[y := x]> (v_to_loop e);
           weight_to_loop := <[y := w]> (weight_to_loop e);
           loop_to_v := loop_to_v e; weight_from_loop := weight_from_loop e |}
      else e in
  if isinf (mget graph y x) then e1
  else
    if decide (loop_to_v e1 !! y = None) then
      {| v_to_loop := v_to_loop e1; weight_to_loop := weight_to_loop e1;
         loop_to_v := <[y := x]> (loop_to_v e1);
         weight_from_loop := <[y := mget graph y x]> (weight_from_loop e1) |}
    else if wgt (mget graph y x) (weight_from_loop e1 !!! y) then
      {| v_to_loop := v_to_loop e1; weight_to_loop := weight_to_loop e1;
         loop_to_v := <[y := x]> (loop_to_v e1);
         weight_from_loop := <[y := mget graph y x]> (weight_from_loop e1) |}
    else e1.

Definition build_edges : loop_edges :=
  foldl (λ e x, foldl (λ e y, merge_edge x y e) e v_outside) no_edges loop.

Definition merge_nodes : merged :=
  let vm := build_v_map in
  let e := build_edges in
  let n_new := n_nodes - length loop + 1 in
  let vc := vm !!! (loop !!! 0) in
  let g0 := replicate n_new (replicate n_new NegInf) in
  let g1 :=
    apply_writes
      (x ← v_outside; y ← v_outside; [(vm !!! x, vm !!! y, mget graph x y)])
      g0 in
  let g2 :=
    apply_writes
      (x ← v_outside;
       (if decide (is_Some (v_to_loop e !! x))
        then [(vc, vm !!! x, weight_to_loop e !!! x)] else [])
       ++ (if decide (is_Some (loop_to_v e !! x))
           then [(vm !!! x, vc, weight_from_loop e !!! x)] else []))
      g1 in
  {| v_map := vm; edges := e; graph_new := g2 |}.
End merge.

(** *** [edmond_chu_liu] *)

(** Everything the cycle branch of step 4 does after the recursive call
    (from "edges outside the loop" to "break the loop"): [mst] from
    [mst_merged]. *)
Definition expand_loop (m : merged) (n_type : nat) (loop v_outside : list nat)
    (mst_merged : list (list nat)) : result (list (list nat)) :=
  let vc := v_map m !!! (loop !!! 0) in
  let mst := replicate n_type (replicate n_type 0) in
  (* edges outside the loop *)
  let mst :=
    apply_writes
      (x ← v_outside; y ← v_outside;
       [(x, y, mget mst_merged (v_map m !!! x) (v_map m !!! y))])
      mst in
  (* edges within the loop *)
  let mst :=
    apply_writes
      ((λ i, (loop !!! (i + 1), loop !!! i, 1)) <$> seq 0 (length loop - 1))
      mst in
  let mst := mset mst (loop !!! 0) (loop !!! (length loop - 1)) 1 in
  (* edges from the loop *)
  ws <- rmap (λ x,
          if decide (0 < mget mst_merged (v_map m !!! x) vc) then
            l <- of_option KeyError (loop_to_v (edges m) !! x) ;;
            Ok [(x, l, mget mst_merged (v_map m !!! x) vc)]
          else Ok []) v_outside ;;
  let mst := apply_writes (concat ws) mst in
  (* there is exactly one edge to the loop *)
  source_merged <- of_option IndexError
    (fst <$> list_find (λ v, 0 < v) (mst_merged !!! vc)) ;;
  let source_to_loop :=
    match list_find (λ x, v_map m !!! x = source_merged) v_outside with
    | Some (_, x) => x
    | None => source_merged
    end in
  target_in_loop <- of_option KeyError (v_to_loop (edges m) !! source_to_loop) ;;
  let mst := mset mst target_in_loop source_to_loop 1 in
  (* break the loop *)
  idx_in_loop <- of_option IndexError
    (fst <$> list_find (λ v, v = target_in_loop) loop) ;;
  let before :=
    Z.to_nat ((Z.of_nat idx_in_loop - 1) mod Z.of_nat (length loop)) in
  Ok (mset mst target_in_loop (loop !!! before) 0).

(** The [else] branch of step 4: every node under its best parent, the root
    under itself. *)
Definition no_loop_mst (n_type r : nat) (parents : list nat) : list (list nat) :=
  apply_writes
    ((λ i, if decide (i = r) then (i, i, 1) else (i, parents !!! i, 1))
       <$> seq 0 n_type)
    (replicate n_type (replicate n_type 0)).

Section solver.
(** The random source: [rnd k] is the raw value behind the [k]-th call of
    [np.random.choice] in the run, and the number of calls made so far is
    threaded through the solver. *)
Variable rnd : nat → nat.

(** [np.random.choice(n_type)], a draw in [[0, n_type)]. *)
Definition random_choice (n_type k : nat) : nat := rnd k mod n_type.

(** Step 2, [for i in range(n_type)] over the rows that are left, starting
    at row [i] with [k] draws made: the list [parents] and the number of
    draws made at the end. *)
Fixpoint best_parents (n_type : nat) (rows : list (list weight)) (i k : nat)
    : list nat * nat :=
  match rows with
  | [] => ([], k)
  | row :: rest =>
      let pk :=
        match row_max row with
        | Some max_val => (first_index max_val row, k)
        | None => ((i + random_choice n_type k) mod n_type, S k)
        end in
      let rec := best_parents n_type rest (S i) pk.2 in
      (pk.1 :: rec.1, rec.2)
  end.

(** The solver. It hands back the number of draws made, the caller's
    [graph] array as the call leaves it, and [mst]. *)
Fixpoint ecl (fuel : nat) (k : nat) (graph : list (list weight)) (r : nat)
    : result (nat * list (list weight) * list (list nat)) :=
  match fuel with
  | O => Raise OutOfFuel
  | S fuel' =>
      let n_type := length graph in
      if decide (n_type ≤ r) then Raise IndexError else
      (* step 1: remove any edge to the root *)
      let graph := <[r := replicate (length (graph !!! r)) NegInf]> graph in
      (* step 2: the best incident edge of each node *)
      let pk := best_parents n_type graph 0 k in
      let parents := pk.1 in
      let adj_list := adj_list_pruned n_type r parents in
      (* step 3: cycle detection *)
      lv <- check_loop adj_list n_type ;;
      let loop := lv.1 in
      let v_outside := lv.2 in
      if decide (0 < length loop) then
        (* step 4: recursive call *)
        let m := merge_nodes graph parents n_type loop v_outside in
        rec <- ecl fuel' pk.2 (graph_new m) (v_map m !!! r) ;;
        mst <- expand_loop m n_type loop v_outside rec.2 ;;
        Ok (rec.1.1, graph, mst)
      else
        Ok (pk.2, graph, no_loop_mst n_type r parents)
  end.

(** Each contraction removes at least one node, so the recursion is at most
    [n_type] deep. *)
Definition edmond_chu_liu (k : nat) (graph : list (list weight)) (r : nat)
    : result (nat * list (list weight) * list (list nat)) :=
  ecl (S (length graph)) k graph r.
End solver.

(** *** What the claims say about [edmond_chu_liu] *)

(** The returned matrix alone; an exception stays what it is. *)
Definition mst_of (out : result (nat * list (list weight) * list (list nat)))
    : result (list (list nat)) :=
  match out with
  | Ok o => Ok o.2
  | Raise e => Raise e
  end.

Definition square {A} (n : nat) (M : list (list A)) : Prop :=
  length M = n ∧ Forall (λ row, length row = n) M.

(** [graph] has an edge from [j] to [i]: [graph[i,j]] is not [-inf]. *)
Definition has_edge (graph : list (list weight)) (j i : nat) : Prop :=
  isinf (mget graph i j) = false.

Definition reachable (graph : list (list weight)) (r v : nat) : Prop :=
  rtc (has_edge graph) r v.

(** [mst] has the edge from [j] to [i]. *)
Definition mst_edge (mst : list (list nat)) (j i : nat) : Prop :=
  mget mst i j = 1.

Definition n_edges (mst : list (list nat)) : nat := sum_list (sum_list <$> mst).

Definition zero_one (mst : list (list nat)) : Prop :=
  Forall (Forall (λ v, v = 0 ∨ v = 1)) mst.

(** A spanning arborescence rooted at [r], as C1 words it. *)
Definition spanning_arborescence (n r : nat) (mst : list (list nat)) : Prop :=
  square n mst ∧ zero_one mst ∧
  n_edges mst = n - 1 ∧
  (∀ v, ¬ tc (mst_edge mst) v v) ∧
  (∀ i, i < n → i ≠ r →
        ∃ j, mst_edge mst j i ∧ ∀ j', mst_edge mst j' i → j' = j) ∧
  (∀ j, ¬ mst_edge mst j r) ∧
  (∀ v, v < n → rtc (mst_edge mst) r v).

(** What the solver returns: the same, except that the root is recorded as
    its own parent. The self-loop [mst[r,r] = 1] is the one edge into the
    root and the one cycle. *)
Definition arborescence_with_root_loop (n r : nat) (mst : list (list nat)) : Prop :=
  square n mst ∧ zero_one mst ∧
  n_edges mst = n ∧
  mst_edge mst r r ∧
  (∀ v, ¬ tc (λ a b, mst_edge mst a b ∧ b ≠ r) v v) ∧
  (∀ i, i < n →
        ∃ j, mst_edge mst j i ∧ ∀ j', mst_edge mst j' i → j' = j) ∧
  (∀ v, v < n → rtc (mst_edge mst) r v).

(** No node but the root takes the no-incoming-edge fallback, at this level
    and at every level of the recursion ([fuel] levels deep). The draws do
    not matter for what is checked: they are taken to be 0. *)
Fixpoint happy_path (fuel : nat) (graph : list (list weight)) (r : nat) : bool :=
  match fuel with
  | O => true
  | S fuel' =>
      let n_type := length graph in
      bool_decide (r < n_type) &&
      let graph := <[r := replicate (length (graph !!! r)) NegInf]> graph in
      forallb (λ i, bool_decide (i = r)
                    || bool_decide (is_Some (row_max (graph !!! i))))
              (seq 0 n_type) &&
      let parents := (best_parents (λ _, 0) n_type graph 0 0).1 in
      match check_loop (adj_list_pruned n_type r parents) n_type with
      | Ok lv =>
          if decide (0 < length lv.1) then
            let m := merge_nodes graph parents n_type lv.1 lv.2 in
            happy_path fuel' (graph_new m) (v_map m !!! r)
          else true
      | Raise _ => true
      end
  end.

End Arbor.

(** * Properties *)

(** ** The result monad *)

Lemma rbind_Ok {A B} (m : result A) (k : A → result B) b :
  rbind m k = Ok b ↔ ∃ a, m = Ok a ∧ k a = Ok b.
Proof.
  destruct m as [a|e]; simpl; split.
  - eauto.
  - by intros (a' & [= ->] & H).
  - done.
  - by intros (a' & [=] & _).
Qed.

Lemma rmap_Ok_length {A B} (f : A → result B) l bs :
  rmap f l = Ok bs → length bs = length l.
Proof.
  revert bs; induction l as [|a l IH]; intros bs; simpl.
  - by intros [= <-].
  - intros (b & _ & (bs' & Hbs & [= <-])%rbind_Ok)%rbind_Ok.
    simpl. f_equal. eauto.
Qed.

Lemma rmap_Ok_lookup {A B} (f : A → result B) l bs i a :
  rmap f l = Ok bs → l !! i = Some a → ∃ b, f a = Ok b ∧ bs !! i = Some b.
Proof.
  revert bs i; induction l as [|a' l IH]; intros bs i; simpl; [done|].
  intros (b & Hb & (bs' & Hbs & [= <-])%rbind_Ok)%rbind_Ok.
  destruct i as [|i]; simpl.
  - intros [= ->]. eauto.
  - eauto.
Qed.

Lemma rmap_all_Ok {A B} (f : A → result B) (g : A → B) l :
  (∀ a, a ∈ l → f a = Ok (g a)) → rmap f l = Ok (g <$> l).
Proof.
  induction l as [|a l IH]; intros Hf; simpl; [done|].
  rewrite Hf by left. simpl. rewrite IH; [done|].
  intros a' Ha'. apply Hf. by right.
Qed.

(** ** Label encoding *)

Section encode_facts.
Import Encode.

(** What the loop of [encode_type] keeps true: a code in [label_dic] is below
    the running index and decodes to its label. *)
Definition consistent (i : nat) (d : gmap string nat) (dr : gmap nat string) : Prop :=
  ∀ t j, d !! t = Some j → j < i ∧ dr !! j = Some t.

Lemma encode_loop_consistent l i d dr :
  consistent i d dr →
  consistent (i + length l) (encode_loop i l d dr).1 (encode_loop i l d dr).2.
Proof.
  revert i d dr; induction l as [|t l IH]; intros i d dr Hc; simpl.
  - by rewrite Nat.add_0_r.
  - replace (i + S (length l)) with (S i + length l) by lia.
    apply IH. intros t' j. rewrite lookup_insert. case_decide as Ht.
    + subst t'. intros [= <-]. split; [lia|]. by rewrite lookup_insert_eq.
    + intros [Hj Hdr]%Hc. split; [lia|].
      rewrite lookup_insert_ne; [done|lia].
Qed.

Lemma encode_loop_keeps l i d dr t :
  is_Some (d !! t) → is_Some ((encode_loop i l d dr).1 !! t).
Proof.
  revert i d dr; induction l as [|t' l IH]; intros i d dr Ht; simpl; [done|].
  apply IH. rewrite lookup_insert. by case_decide.
Qed.

Lemma encode_loop_dom l i d dr t :
  t ∈ l → is_Some ((encode_loop i l d dr).1 !! t).
Proof.
  revert i d dr; induction l as [|t' l IH]; intros i d dr Ht; simpl.
  - by apply elem_of_nil in Ht.
  - apply elem_of_cons in Ht as [->|Ht]; [|by apply IH].
    apply encode_loop_keeps. rewrite lookup_insert_eq. by eexists.
Qed.

(** Encoding then decoding one label gives the label back. *)
Lemma encode_type_decodes types t :
  t ∈ types →
  ∃ j, (encode_type types).1 !! t = Some j ∧ (encode_type types).2 !! j = Some t.
Proof.
  intros Ht. destruct (encode_loop_dom types 0 ∅ ∅ t Ht) as [j Hj].
  exists j. split; [done|].
  by apply (encode_loop_consistent types 0 ∅ ∅).
Qed.

Lemma roundtrip_any types labels :
  (∀ l, l ∈ labels → l ∈ types) →
  ∃ codes,
    str2int labels (encode_type types).1 = Ok codes ∧
    int2str codes (encode_type types).2 = Ok labels.
Proof.
  induction labels as [|l labels IH]; intros Hin.
  - by exists [].
  - destruct IH as (codes & Hs & Hi); [intros; apply Hin; by right|].
    destruct (encode_type_decodes types l) as (j & Hj & Hjr); [apply Hin; by left|].
    exists (j :: codes). unfold str2int, int2str in *. simpl.
    rewrite Hj, Hjr. simpl. by rewrite Hs, Hi.
Qed.

(** C5. For any list of distinct cell types and any array of labels drawn
    from it, [str2int] with the dictionary of [encode_type] succeeds, and
    [int2str] with the reverse dictionary gives the label array back. *)
Theorem str2int_int2str_roundtrip (cell_types_raw cell_labels_raw : list string) :
  NoDup cell_types_raw →
  cell_labels_raw ⊆ cell_types_raw →
  ∃ codes,
    str2int cell_labels_raw (encode_type cell_types_raw).1 = Ok codes ∧
    int2str codes (encode_type cell_types_raw).2 = Ok cell_labels_raw.
Proof. intros _. apply roundtrip_any. Qed.

Lemma str2int_int2str_roundtrip_witness :
  ∃ codes,
    str2int ["B"; "A"; "B"; "C"] (encode_type ["A"; "B"; "C"]).1 = Ok codes ∧
    int2str codes (encode_type ["A"; "B"; "C"]).2 = Ok ["B"; "A"; "B"; "C"].
Proof.
  apply str2int_int2str_roundtrip; compute_done.
Defined.

(** *** The order of the codes *)

Lemma elem_of_unique_insert x y l :
  y ∈ unique_insert x l ↔ y = x ∨ y ∈ l.
Proof.
  induction l as [|z l IH]; simpl.
  - rewrite list_elem_of_singleton, elem_of_nil. tauto.
  - destruct (String_as_OT.compare_spec x z) as [->| |].
    + rewrite !elem_of_cons. tauto.
    + rewrite !elem_of_cons. tauto.
    + rewrite !elem_of_cons, IH. tauto.
Qed.

Lemma unique_insert_sorted x l :
  StronglySorted String_as_OT.lt l →
  StronglySorted String_as_OT.lt (unique_insert x l).
Proof.
  induction 1 as [|z l Hs IH Hz]; simpl.
  - repeat constructor.
  - destruct (String_as_OT.compare_spec x z) as [->|Hlt|Hgt].
    + by constructor.
    + constructor; [by constructor|].
      constructor; [done|].
      eapply Forall_impl; [exact Hz|].
      intros y Hy. by etrans.
    + constructor; [done|].
      apply Forall_forall. intros y [->|Hy]%elem_of_unique_insert; [done|].
      by eapply Forall_forall in Hz.
Qed.

Lemma np_unique_sorted a : StronglySorted String_as_OT.lt (np_unique a).
Proof.
  induction a as [|x a IH]; simpl; [constructor|by apply unique_insert_sorted].
Qed.

Lemma elem_of_np_unique a t : t ∈ np_unique a ↔ t ∈ a.
Proof.
  induction a as [|x a IH]; simpl; [done|].
  rewrite elem_of_unique_insert, elem_of_cons, IH. tauto.
Qed.

Lemma sorted_NoDup l : StronglySorted String_as_OT.lt l → NoDup l.
Proof.
  induction 1 as [|z l Hs IH Hz]; constructor; [|done].
  intros Hin. eapply Forall_forall in Hz; [|done].
  by apply (irreflexivity String_as_OT.lt z).
Qed.

Lemma encode_loop_absent l i d dr t :
  t ∉ l → (encode_loop i l d dr).1 !! t = d !! t.
Proof.
  revert i d dr; induction l as [|t' l IH]; intros i d dr Ht; simpl; [done|].
  apply not_elem_of_cons in Ht as [Hne Ht].
  rewrite IH by done. by rewrite lookup_insert_ne.
Qed.

Lemma encode_loop_below l i d dr j :
  j < i → (encode_loop i l d dr).2 !! j = dr !! j.
Proof.
  revert i d dr; induction l as [|t' l IH]; intros i d dr Hj; simpl; [done|].
  rewrite IH by lia. rewrite lookup_insert_ne; [done|lia].
Qed.

Lemma encode_loop_index l i d dr k t :
  NoDup l → l !! k = Some t →
  (encode_loop i l d dr).1 !! t = Some (i + k) ∧
  (encode_loop i l d dr).2 !! (i + k) = Some t.
Proof.
  revert i d dr k; induction l as [|t' l IH]; intros i d dr k Hnd Hk; [done|].
  apply NoDup_cons in Hnd as [Hnotin Hnd].
  destruct k as [|k]; simpl in *.
  - injection Hk as ->. rewrite Nat.add_0_r.
    rewrite encode_loop_absent by done.
    rewrite encode_loop_below by lia.
    by rewrite !lookup_insert_eq.
  - replace (i + S k) with (S i + k) by lia. by apply IH.
Qed.

(** C6 (as the code has it). The cell types are the distinct labels in
    ascending order ([np.unique] sorts them), whatever the order in which the
    label array presents them, and the label at position [i] of that sorted
    list gets code [i] in both dictionaries. *)
Theorem codes_follow_sorted_order (cell_labels_raw : list string) :
  let cell_types_raw := TransGraph_cell_types_raw cell_labels_raw in
  StronglySorted String_as_OT.lt cell_types_raw ∧
  (∀ t, t ∈ cell_types_raw ↔ t ∈ cell_labels_raw) ∧
  (∀ i t, cell_types_raw !! i = Some t →
     TransGraph_label_dic cell_labels_raw !! t = Some i ∧
     TransGraph_label_dic_rev cell_labels_raw !! i = Some t).
Proof.
  split; [apply np_unique_sorted|]. split; [apply elem_of_np_unique|].
  intros i t Hi.
  apply (encode_loop_index _ 0 ∅ ∅ i t); [|done].
  apply sorted_NoDup, np_unique_sorted.
Qed.

(** C6 as stated fails: in the label array [B, A] the first distinct label
    seen is [B], and its code is 1, not 0. *)
Lemma first_seen_order_counterexample :
  first_seen ["B"; "A"] !! 0 = Some "B" ∧
  TransGraph_label_dic ["B"; "A"] !! "B" = Some 1.
Proof. split; reflexivity. Qed.

(** *** [decode_graph] *)

(** C9. [decode_graph] never returns: the call ends in an exception on every
    input, and whenever the statements before the [return] go through, the
    exception is the [NameError] of the unbound [graph_enc]. *)
Theorem decode_graph_raises_NameError
    (graph : list (nat * list nat)) (init_types : list nat)
    (label_dic_rev : gmap nat string) :
  (∀ out, decode_graph graph init_types label_dic_rev ≠ Ok out) ∧
  (∀ locals, decode_body graph init_types label_dic_rev = Ok locals →
     decode_graph graph init_types label_dic_rev = Raise NameError).
Proof.
  unfold decode_graph. split.
  - intros out. by destruct (decode_body _ _ _) as [locals|e].
  - by intros locals ->.
Qed.

(** The [return] statement is reached on well-formed input. *)
Example decode_body_reaches_return :
  ∃ locals, decode_body [(0, [1]); (1, [])] [0] {[0 := "A"; 1 := "B"]} = Ok locals.
Proof. eexists. reflexivity. Qed.
End encode_facts.

(** ** Early stopping *)

Section train_facts.
Import Train.
Variable cfg : config.
Variable ll_seq : nat → Qc.
Variable n_batches : nat.

Local Abbreviation evaluate := (evaluate cfg ll_seq).
Local Abbreviation stop_now := (stop_now cfg).
Local Abbreviation test_due := (test_due cfg).
Local Abbreviation train_batches := (train_batches cfg ll_seq).
Local Abbreviation train_epoch := (train_epoch cfg ll_seq n_batches).
Local Abbreviation train_epochs := (train_epochs cfg ll_seq n_batches).
Local Abbreviation evals_in := (evals_in cfg).
Local Abbreviation plateau_at := (plateau_at cfg ll_seq).

(** The value of [n_drop] once [m] evaluations have been made, none of them
    having stopped the run. *)
Fixpoint streak (m : nat) : Z :=
  match m with
  | O => 0
  | S m' =>
      match m' with
      | O => 0
      | S _ =>
          if bool_decide (ll_seq m' - ll_seq (pred m') ≤ early_stop_thred cfg)%Qc
          then (streak m' + 1)%Z else 0%Z
      end
  end.

(** The trainer's attributes as a function of the number of evaluations. *)
Definition tracks (st : trainer) : Prop :=
  loss_test st = ll_seq <$> seq 0 (length (loss_test st)) ∧
  n_drop st = streak (length (loss_test st)).

Lemma streak_SS m :
  streak (S (S m)) =
    if bool_decide (ll_seq (S m) - ll_seq m ≤ early_stop_thred cfg)%Qc
    then (streak (S m) + 1)%Z else 0%Z.
Proof. reflexivity. Qed.

Lemma streak_nonneg m : (0 ≤ streak m)%Z.
Proof.
  induction m as [|[|m] IH]; [done..|].
  rewrite streak_SS. case_bool_decide; lia.
Qed.

Lemma streak_plateau k j :
  (∀ i, i < j → plateau_at (k + 1 + i)) → (Z.of_nat j ≤ streak (k + 1 + j))%Z.
Proof.
  induction j as [|j IH]; intros Hp.
  - apply streak_nonneg.
  - replace (k + 1 + S j) with (S (S (k + j))) by lia.
    assert (plateau_at (k + 1 + j)) as Hj by (apply Hp; lia).
    unfold Train.plateau_at in Hj.
    replace (k + 1 + j) with (S (k + j)) in Hj by lia.
    rewrite streak_SS, bool_decide_eq_true_2 by done.
    replace (S (k + j)) with (k + 1 + j) by lia.
    assert (Z.of_nat j ≤ streak (k + 1 + j))%Z by (apply IH; intros; apply Hp; lia).
    lia.
Qed.

Lemma last_fmap_seq m :
  last (ll_seq <$> seq 0 m) = match m with O => None | S m' => Some (ll_seq m') end.
Proof.
  destruct m as [|m]; [done|].
  rewrite seq_S, fmap_app. simpl. by rewrite last_snoc.
Qed.

Lemma evaluate_tracks st :
  tracks st →
  tracks (evaluate st) ∧
  length (loss_test (evaluate st)) = S (length (loss_test st)).
Proof.
  intros [Hl Hn]. set (m := length (loss_test st)) in *.
  assert (length (loss_test (evaluate st)) = S m) as Hlen.
  { simpl. rewrite length_app. simpl. lia. }
  split; [|done]. split.
  - rewrite Hlen, seq_S, fmap_app. unfold Train.evaluate. cbn [loss_test].
    by rewrite <-Hl.
  - rewrite Hlen. unfold Train.evaluate. cbn [n_drop].
    rewrite Hl at 1. rewrite last_fmap_seq. fold m.
    destruct m as [|m']; [done|]. rewrite streak_SS. by rewrite Hn.
Qed.

Lemma test_due_Ok st :
  test_iter cfg ≠ 0%Z →
  test_due st =
    Ok ((counter st =? 1)%nat || (Z.of_nat (counter st) mod test_iter cfg =? 0)%Z).
Proof.
  intros Hti. unfold Train.test_due.
  destruct (counter st =? 1)%nat; [done|].
  apply Z.eqb_neq in Hti. by rewrite Hti.
Qed.

(** With a non-zero [test_iter] the batch loop raises nothing. *)
Lemma train_batches_Ok b st :
  test_iter cfg ≠ 0%Z → ∃ st' stop, train_batches b st = Ok (st', stop).
Proof.
  intros Hti. revert st; induction b as [|b IH]; intros st; simpl; [by eauto|].
  rewrite test_due_Ok by done.
  destruct (_ && _); eauto.
Qed.

(** A [break] leaves at least one of the batches undone. *)
Lemma train_batches_stopped b st st' :
  train_batches b st = Ok (st', true) → counter st' < counter st + b.
Proof.
  revert st; induction b as [|b IH]; intros st; simpl; [done|].
  destruct (test_due st) as [due|]; [|done].
  destruct (due && _) eqn:Hstop.
  - intros [= <-]. destruct due; simpl; lia.
  - intros H%IH. destruct due; simpl in *; lia.
Qed.

(** A batch loop that runs to its end keeps [tracks], and no evaluation on
    the way met the stopping condition. *)
Lemma train_batches_completed b st st' :
  test_iter cfg ≠ 0%Z →
  tracks st →
  train_batches b st = Ok (st', false) →
  tracks st' ∧
  counter st' = counter st + b ∧
  length (loss_test st') = length (loss_test st) + evals_in (counter st) b ∧
  (∀ m, length (loss_test st) < m ≤ length (loss_test st') →
        ¬ (early_stop cfg ≤ streak m ∧ 0 < early_stop cfg)%Z).
Proof.
  intros Hti. revert st; induction b as [|b IH]; intros st Htr; simpl.
  - intros [= <-]. repeat split; [apply Htr..|lia|lia|]. intros m; lia.
  - rewrite test_due_Ok by done.
    destruct (_ || _) eqn:Hdue; cbn [andb].
    + destruct (evaluate_tracks st Htr) as [Htr' Hlen].
      destruct (stop_now (evaluate st)) eqn:Hstop; [done|].
      intros (Htr'' & Hc & Hl & Hm)%IH; [|done].
      cbn [optimizer_step counter loss_test] in *.
      split; [done|]. split; [simpl in *; lia|]. split; [simpl in *; lia|].
      intros m Hrange.
      destruct (decide (m = S (length (loss_test st)))) as [->|Hne].
      * unfold Train.stop_now in Hstop. destruct Htr' as [_ Hn].
        rewrite Hn, Hlen in Hstop.
        apply andb_false_iff in Hstop as [H%Z.leb_gt|H%Z.ltb_ge]; lia.
      * apply Hm. simpl in *. lia.
    + intros (Htr'' & Hc & Hl & Hm)%IH; [|done].
      cbn [optimizer_step counter loss_test] in *.
      split; [done|]. split; [lia|]. split; [lia|done].
Qed.

Lemma train_batches_app a b st :
  train_batches (a + b) st =
    match train_batches a st with
    | Raise e => Raise e
    | Ok (st', stop) => if stop then Ok (st', true) else train_batches b st'
    end.
Proof.
  revert st; induction a as [|a IH]; intros st; simpl; [done|].
  destruct (test_due st) as [due|]; [|done].
  destruct (due && _); [done|]. apply IH.
Qed.

(** The epochs laid end to end are one long run of batches. *)
Lemma train_epochs_flat e st :
  train_epochs e st = train_batches (e * n_batches) st.
Proof.
  revert st; induction e as [|e IH]; intros st; simpl; [done|].
  rewrite train_batches_app. unfold Train.train_epoch.
  destruct (train_batches n_batches st) as [[st' [|]]|]; [done| |done].
  apply IH.
Qed.

Lemma evals_in_S c steps :
  evals_in c (S steps) =
    (if (c =? 1)%nat || (Z.of_nat c mod test_iter cfg =? 0)%Z then 1 else 0)
    + evals_in (S c) steps.
Proof. reflexivity. Qed.

Lemma streak_step m : (streak (S m) ≤ streak m + 1)%Z.
Proof.
  destruct m as [|m]; [done|].
  pose proof (streak_nonneg (S m)). rewrite streak_SS. case_bool_decide; lia.
Qed.

(** A batch loop that breaks does so at an evaluation, the first one that
    leaves [n_drop >= early_stop > 0]; nothing is done after it. *)
Lemma train_batches_stopped_at b st st' :
  test_iter cfg ≠ 0%Z →
  tracks st →
  train_batches b st = Ok (st', true) →
  tracks st' ∧
  counter st ≤ counter st' < counter st + b ∧
  test_due st' = Ok true ∧
  length (loss_test st') =
    length (loss_test st) + evals_in (counter st) (S (counter st' - counter st)) ∧
  (∀ m, length (loss_test st) < m < length (loss_test st') →
        ¬ (early_stop cfg ≤ streak m ∧ 0 < early_stop cfg)%Z) ∧
  (early_stop cfg ≤ streak (length (loss_test st')) ∧ 0 < early_stop cfg)%Z.
Proof.
  intros Hti. revert st; induction b as [|b IH]; intros st Htr; [done|].
  cbn [Train.train_batches]. rewrite test_due_Ok by done.
  destruct (_ || _) eqn:Hdue; cbn [andb].
  - destruct (evaluate_tracks st Htr) as [Htr' Hlen].
    destruct (stop_now (evaluate st)) eqn:Hstop.
    + intros [= <-]. split; [done|].
      assert (counter (evaluate st) = counter st) as Hc by done.
      split; [lia|]. split.
      { rewrite test_due_Ok by done. by rewrite Hc, Hdue. }
      split.
      { rewrite Hlen, Hc, Nat.sub_diag, evals_in_S, Hdue. simpl. lia. }
      split; [intros m; rewrite Hlen; lia|].
      unfold Train.stop_now in Hstop. destruct Htr' as [_ Hn].
      rewrite Hn in Hstop. apply andb_true_iff in Hstop as [?%Z.leb_le ?%Z.ltb_lt].
      done.
    + intros (Htr'' & Hc & Hd & Hl & Hm & Hs)%IH; [|done].
      change (counter (optimizer_step (evaluate st))) with (S (counter st)) in *.
      change (loss_test (optimizer_step (evaluate st)))
        with (loss_test (evaluate st)) in *.
      rewrite Hlen in Hl, Hm.
      split; [done|]. split; [lia|]. split; [done|]. split.
      { replace (counter st' - counter st) with (S (counter st' - S (counter st)))
          by lia.
        rewrite (evals_in_S (counter st)), Hdue. lia. }
      split; [|done]. intros m Hrange.
      destruct (decide (m = S (length (loss_test st)))) as [->|Hne].
      * unfold Train.stop_now in Hstop. destruct Htr' as [_ Hn].
        rewrite Hn, Hlen in Hstop.
        apply andb_false_iff in Hstop as [H%Z.leb_gt|H%Z.ltb_ge]; lia.
      * apply Hm. lia.
  - intros (Htr'' & Hc & Hd & Hl & Hm & Hs)%IH; [|done].
    change (counter (optimizer_step st)) with (S (counter st)) in *.
    change (loss_test (optimizer_step st)) with (loss_test st) in *.
    split; [done|]. split; [lia|]. split; [done|]. split; [|done].
    replace (counter st' - counter st) with (S (counter st' - S (counter st)))
      by lia.
    rewrite (evals_in_S (counter st)), Hdue. lia.
Qed.

(** C3. [streak m] is the early-stop counter as the claim words it: 0 up to
    the first evaluation, and from the second evaluation on one more than
    before when the test log-likelihood gained at most [early_stop_thred]
    over the previous evaluation, 0 otherwise. With a non-zero [test_iter]
    and [early_stop > 0], [BrODE.train] returns, and at its end:
    (1) [loss_test] holds the log-likelihoods of the [m] evaluations made
    and [n_drop] is [streak m];
    (2) no evaluation before the last one had brought the counter to
    [early_stop];
    (3) when early stopping was triggered, [n_drop] is [early_stop], the
    last evaluation was the one due at the final value of [self.counter]
    (no optimizer step follows it), and fewer than [n_epochs] times
    [len(train_loader)] steps were made; when it was not, [n_drop] is below
    [early_stop] and every step and every evaluation of the schedule was
    made;
    (4) when [early_stop] consecutive evaluations inside the schedule each
    gain at most the threshold, early stopping is triggered, at the last of
    them at the latest. *)
Theorem early_stop_halts_training :
  test_iter cfg ≠ 0%Z → (0 < early_stop cfg)%Z →
  ∃ st' stop,
    train cfg ll_seq n_batches = Ok (st', stop) ∧
    loss_test st' = ll_seq <$> seq 0 (length (loss_test st')) ∧
    n_drop st' = streak (length (loss_test st')) ∧
    (∀ j, j < length (loss_test st') → (streak j < early_stop cfg)%Z) ∧
    (if stop
     then n_drop st' = early_stop cfg ∧
          test_due st' = Ok true ∧
          length (loss_test st') = evals_in 0 (S (counter st')) ∧
          counter st' < n_epochs cfg * n_batches
     else (n_drop st' < early_stop cfg)%Z ∧
          length (loss_test st') = evals_in 0 (n_epochs cfg * n_batches) ∧
          counter st' = n_epochs cfg * n_batches) ∧
    (∀ k, (∀ j, j < Z.to_nat (early_stop cfg) → plateau_at (k + 1 + j)) →
          k + Z.to_nat (early_stop cfg) < evals_in 0 (n_epochs cfg * n_batches) →
          stop = true ∧
          length (loss_test st') ≤ k + 1 + Z.to_nat (early_stop cfg)).
Proof.
  intros Hti Hes. unfold train. rewrite train_epochs_flat.
  assert (tracks init) as Hinit by done.
  destruct (train_batches_Ok (n_epochs cfg * n_batches) init Hti)
    as (st' & stop & Hrun).
  exists st', stop. split; [done|].
  assert (tracks st' ∧
          (∀ j, j < length (loss_test st') → (streak j < early_stop cfg)%Z) ∧
          (if stop
           then n_drop st' = early_stop cfg ∧
                test_due st' = Ok true ∧
                length (loss_test st') = evals_in 0 (S (counter st')) ∧
                counter st' < n_epochs cfg * n_batches
           else (n_drop st' < early_stop cfg)%Z ∧
                length (loss_test st') = evals_in 0 (n_epochs cfg * n_batches) ∧
                counter st' = n_epochs cfg * n_batches))
    as ([Hl Hn] & Hbefore & Hend).
  { destruct stop.
    - apply train_batches_stopped_at in Hrun
        as (Htr & Hc & Hd & Hl & Hm & Hs); [|done|done].
      cbn [init counter loss_test length] in Hc, Hl, Hm.
      rewrite Nat.sub_0_r in Hl.
      assert (∀ j, j < length (loss_test st') → (streak j < early_stop cfg)%Z)
        as Hbefore.
      { intros [|j] Hj; [done|]. specialize (Hm (S j)). lia. }
      split; [done|]. split; [done|]. split; [|split; [done|split; [done|lia]]].
      destruct Htr as [_ ->].
      destruct (length (loss_test st')) as [|m]; [simpl in Hs; lia|].
      pose proof (streak_step m). pose proof (Hbefore m). lia.
    - apply train_batches_completed in Hrun as (Htr & Hc & Hl & Hm); [|done|done].
      cbn [init counter loss_test length] in Hc, Hl, Hm.
      assert (∀ j, j ≤ length (loss_test st') → (streak j < early_stop cfg)%Z)
        as Hall.
      { intros [|j] Hj; [done|]. specialize (Hm (S j)). lia. }
      split; [done|]. split; [intros j Hj; apply Hall; lia|].
      destruct Htr as [_ ->]. split; [by apply Hall|]. split; [lia|done]. }
  split; [done|]. split; [done|]. split; [done|]. split; [done|].
  intros k Hplateau Hevals.
  pose proof (streak_plateau k (Z.to_nat (early_stop cfg)) Hplateau) as Hk.
  destruct stop.
  - split; [done|].
    destruct (decide (length (loss_test st') ≤ k + 1 + Z.to_nat (early_stop cfg)))
      as [|Hgt]; [done|].
    specialize (Hbefore (k + 1 + Z.to_nat (early_stop cfg))). lia.
  - exfalso. destruct Hend as (Hlow & Hlen & _). rewrite Hn in Hlow.
    destruct (decide (length (loss_test st') = k + 1 + Z.to_nat (early_stop cfg)))
      as [Heq|Hne].
    + rewrite Heq in Hlow. lia.
    + specialize (Hbefore (k + 1 + Z.to_nat (early_stop cfg))). lia.
Qed.
End train_facts.

(** The scenario of C3 run on an instance: [early_stop = 3], a flat test
    log-likelihood, 4 batches per epoch and an evaluation every 2 steps. The
    run of 5 epochs stops early, with [n_drop = 3]. *)
Lemma early_stop_halts_training_witness :
  ∃ st',
    Train.train
      {| Train.n_epochs := 5; Train.test_iter := 2; Train.early_stop := 3;
         Train.early_stop_thred := 1%Qc |} (λ _, 0%Qc) 4 = Ok (st', true) ∧
    Train.n_drop st' = 3%Z ∧
    Train.counter st' < 5 * 4.
Proof.
  destruct (early_stop_halts_training
    {| Train.n_epochs := 5; Train.test_iter := 2; Train.early_stop := 3;
       Train.early_stop_thred := 1%Qc |} (λ _, 0%Qc) 4)
    as (st' & stop & Hrun & _ & _ & _ & Hend & Hplateau); [done|done|].
  destruct (Hplateau 0) as [-> _].
  - intros j _. unfold Train.plateau_at. by apply (bool_decide_unpack _).
  - vm_compute. lia.
  - exists st'. destruct Hend as (? & _ & _ & ?). done.
Defined.

(** ** Graph pruning *)

Global Instance exn_eq_dec : EqDecision exn.
Proof. solve_decision. Defined.
Global Instance result_eq_dec {A} `{EqDecision A} : EqDecision (result A).
Proof. solve_decision. Defined.

Section prune_facts.
Import Prune.

(** The float with the exact value [a / b]. *)
Definition frac (a : Z) (b : positive) : npfloat := Num (Q2Qc (a # b)).

(** C2 on an instance: two cell types with initial times 0 and 1. Type 0 is
    the root and has no valid parent: its row of [P] stays zero, its sum is
    0, and the normalisation [P/psum] turns the row into NaN. The row does
    not sum to 1 and the self-weight [P[0,0]] is not 1.0. *)
Theorem prune_root_row_is_nan :
  ∃ P, prune [[frac 1 1; frac 0 1]; [frac 1 2; frac 1 2]] [0%Qc; 1%Qc] 2 = Ok P ∧
       P = [[NaN; NaN]; [frac 1 1; frac 0 1]] ∧
       row_sum (P !!! 0) ≠ frac 1 1 ∧
       (P !!! 0) !!! 0 ≠ frac 1 1.
Proof.
  exists [[NaN; NaN]; [frac 1 1; frac 0 1]].
  split; [compute_done|]. split; [done|]. split; compute_done.
Qed.

(** C7 as stated fails. Three types with initial times 0, 0 and 1 and
    [n_par = 1]: the pruned, normalised matrix has the row
    [1/702, 701/702, 0] for type 2, and pruning it again adds the floor
    weight once more, which gives [351/351202, 350851/351202, 0]. *)
Lemma prune_twice_counterexample :
  let t_init := [0%Qc; 0%Qc; 1%Qc] in
  let P_raw := [[frac 0 1; frac 1 1; frac 0 1];
                [frac 1 1; frac 0 1; frac 0 1];
                [frac 3 10; frac 7 10; frac 0 1]] in
  let P1 := [[frac 0 1; frac 1 1; frac 0 1];
             [frac 1 1; frac 0 1; frac 0 1];
             [frac 1 702; frac 701 702; frac 0 1]] in
  let P2 := [[frac 0 1; frac 1 1; frac 0 1];
             [frac 1 1; frac 0 1; frac 0 1];
             [frac 351 351202; frac 350851 351202; frac 0 1]] in
  prune P_raw t_init 1 = Ok P1 ∧ prune P1 t_init 1 = Ok P2 ∧ P2 ≠ P1.
Proof. repeat split; compute_done. Qed.

(** *** Sorting *)

Lemma sort_le_total a b : sort_le a b = true ∨ sort_le b a = true.
Proof.
  destruct a as [x| | |], b as [y| | |]; simpl; auto.
  destruct (total Qcle x y); [left|right]; by apply bool_decide_eq_true.
Qed.

Lemma sort_le_trans a b c :
  sort_le a b = true → sort_le b c = true → sort_le a c = true.
Proof.
  destruct a as [x| | |], b as [y| | |], c as [z| | |]; simpl; try done.
  rewrite !bool_decide_eq_true. apply Qcle_trans.
Qed.

Section sorting.
Variable row : list npfloat.

Definition key_le (a b : nat) : Prop := sort_le (row !!! a) (row !!! b) = true.

Lemma insert_idx_perm j l : insert_idx row j l ≡ₚ j :: l.
Proof.
  induction l as [|i l IH]; simpl; [done|].
  destruct (sort_le _ _); [|done].
  rewrite IH. apply Permutation_swap.
Qed.

Lemma insert_idx_sorted j l :
  StronglySorted key_le l → StronglySorted key_le (insert_idx row j l).
Proof.
  induction 1 as [|i l Hs IH Hi]; simpl; [repeat constructor|].
  destruct (sort_le (row !!! i) (row !!! j)) eqn:Hij.
  - constructor; [done|].
    rewrite insert_idx_perm. by constructor.
  - assert (key_le j i) as Hji.
    { destruct (sort_le_total (row !!! i) (row !!! j)); [congruence|done]. }
    constructor; [by constructor|].
    constructor; [done|].
    eapply Forall_impl; [exact Hi|].
    intros k Hk. by eapply sort_le_trans.
Qed.

Lemma argsort_loop_spec js acc :
  StronglySorted key_le acc →
  let out := foldl (λ sorted j, insert_idx row j sorted) acc js in
  StronglySorted key_le out ∧ out ≡ₚ js ++ acc.
Proof.
  revert acc; induction js as [|j js IH]; intros acc Hacc; simpl; [done|].
  destruct (IH (insert_idx row j acc)) as [Hs Hp]; [by apply insert_idx_sorted|].
  split; [done|]. rewrite Hp, insert_idx_perm. by rewrite Permutation_middle.
Qed.

Lemma argsort_sorted : StronglySorted key_le (argsort row).
Proof. apply argsort_loop_spec. constructor. Qed.

Lemma argsort_perm : argsort row ≡ₚ seq 0 (length row).
Proof.
  destruct (argsort_loop_spec (seq 0 (length row)) []) as [_ Hp]; [constructor|].
  by rewrite app_nil_r in Hp.
Qed.

(** In [np.flip(np.argsort(row))] whatever comes later is no larger. *)
Lemma flip_argsort_descending T j U :
  reverse (argsort row) = T ++ j :: U → ∀ t, t ∈ T → key_le j t.
Proof.
  intros Hrev t Ht.
  assert (argsort row = reverse U ++ j :: reverse T) as Hs.
  { rewrite <-(reverse_involutive (argsort row)), Hrev.
    rewrite reverse_app, reverse_cons, <-app_assoc. done. }
  pose proof argsort_sorted as Hsorted. rewrite Hs in Hsorted.
  apply StronglySorted_app_1_r, StronglySorted_cons in Hsorted as [Hall _].
  eapply Forall_forall in Hall; [done|]. by apply elem_of_reverse.
Qed.

Lemma flip_argsort_perm : reverse (argsort row) ≡ₚ seq 0 (length row).
Proof. by rewrite reverse_Permutation, argsort_perm. Qed.
End sorting.

(** *** Rows and their non-zero entries *)

Lemma list_eq_total (l1 l2 : list npfloat) :
  length l1 = length l2 →
  (∀ j, j < length l1 → l1 !!! j = l2 !!! j) → l1 = l2.
Proof.
  intros Hlen Heq. apply list_eq. intros j.
  destruct (decide (j < length l1)) as [Hj|Hj].
  - rewrite !(list_lookup_lookup_total_lt _ j) by lia. f_equal. by apply Heq.
  - rewrite !lookup_ge_None_2; [done|lia..].
Qed.

Lemma Forall_total (P : npfloat → Prop) (l : list npfloat) :
  (∀ j, j < length l → P (l !!! j)) → Forall P l.
Proof.
  intros HP. apply Forall_forall. intros x (j & Hj)%list_elem_of_lookup.
  rewrite <-(list_lookup_total_correct _ _ _ Hj).
  apply HP. by eapply lookup_lt_Some.
Qed.

(** The indices of the non-zero entries of a row. *)
Definition nzidx (l : list npfloat) : list nat :=
  filter (λ j, l !!! j ≠ Num 0) (seq 0 (length l)).

Lemma elem_of_nzidx l j : j ∈ nzidx l ↔ j < length l ∧ l !!! j ≠ Num 0.
Proof.
  unfold nzidx. rewrite list_elem_of_filter, elem_of_seq. split; intros []; split; auto; lia.
Qed.

Lemma NoDup_nzidx l : NoDup (nzidx l).
Proof. apply NoDup_filter, NoDup_seq. Qed.

Lemma length_le_nzidx l (L : list nat) :
  NoDup L → (∀ j, j ∈ L → j < length l ∧ l !!! j ≠ Num 0) →
  length L ≤ length (nzidx l).
Proof.
  intros Hnd HL. apply submseteq_length, NoDup_submseteq; [done|].
  intros j Hj. apply elem_of_nzidx. auto.
Qed.

Lemma nzidx_insert l idx v :
  length (nzidx (<[idx := v]> l)) ≤ S (length (nzidx l)).
Proof.
  change (S (length (nzidx l))) with (length (idx :: nzidx l)).
  apply submseteq_length, NoDup_submseteq; [apply NoDup_nzidx|].
  intros j [Hj Hnz]%elem_of_nzidx. rewrite length_insert in Hj.
  destruct (decide (j = idx)) as [->|Hne]; [left|right].
  apply elem_of_nzidx. split; [done|].
  by rewrite list_lookup_total_insert_ne in Hnz.
Qed.

Lemma nzidx_replicate n : nzidx (replicate n (Num 0)) = [].
Proof.
  apply elem_of_nil_inv. intros j [Hj Hnz]%elem_of_nzidx.
  rewrite length_replicate in Hj. by rewrite lookup_total_replicate_2 in Hnz.
Qed.

(** *** The selection loop *)

Section select.
Variable t_init : list Qc.
Variable n_par : Z.
Variable i : nat.

Local Abbreviation eligible := (eligible t_init i).
Local Abbreviation select_parents := (select_parents t_init n_par i).

Lemma select_parents_length row S c Pi :
  length (select_parents row S c Pi) = length Pi.
Proof.
  revert c Pi; induction S as [|idx S IH]; intros c Pi; simpl; [done|].
  destruct (_ =? _)%Z; [|rewrite IH]; destruct (eligible idx);
    by rewrite ?length_insert.
Qed.

(** An entry of [P[i]] is what it was, or the entry of the raw row at an
    eligible index. *)
Lemma select_parents_entry row S c Pi j :
  select_parents row S c Pi !!! j = Pi !!! j ∨
  (eligible j = true ∧ select_parents row S c Pi !!! j = row !!! j).
Proof.
  revert c Pi; induction S as [|idx S IH]; intros c Pi; simpl; [by left|].
  assert ((if eligible idx then <[idx := row !!! idx]> Pi else Pi) !!! j = Pi !!! j ∨
          (eligible j = true ∧
           (if eligible idx then <[idx := row !!! idx]> Pi else Pi) !!! j = row !!! j))
    as Hstep.
  { destruct (eligible idx) eqn:He; [|by left].
    destruct (decide (j = idx)) as [->|Hne].
    - destruct (decide (idx < length Pi)).
      + right. by rewrite list_lookup_total_insert_eq.
      + left. by rewrite list_insert_ge by lia.
    - left. by rewrite list_lookup_total_insert_ne. }
  destruct (_ =? _)%Z; [done|].
  destruct (IH (if eligible idx then (c + 1)%Z else c)
               (if eligible idx then <[idx := row !!! idx]> Pi else Pi))
    as [->|?]; [done|by right].
Qed.

(** With [n_par >= 1] the loop writes at most [n_par] entries. *)
Lemma select_parents_nz_bound row S c Pi :
  (Z.of_nat (length (nzidx Pi)) ≤ c)%Z → (c < n_par)%Z →
  (Z.of_nat (length (nzidx (select_parents row S c Pi))) ≤ n_par)%Z.
Proof.
  revert c Pi; induction S as [|idx S IH]; intros c Pi Hnz Hc; simpl; [lia|].
  pose proof (nzidx_insert Pi idx (row !!! idx)).
  destruct (eligible idx).
  - destruct (Z.eqb_spec (c + 1) n_par); [lia|]. apply IH; lia.
  - destruct (Z.eqb_spec c n_par); [lia|]. by apply IH.
Qed.

(** The second pruning reads a row [row1] whose non-zero entries sit at
    eligible indices, are positive, and number at most [n_par]. *)
Section second_run.
Variable row1 : list npfloat.
Hypothesis Helig : ∀ j, row1 !!! j ≠ Num 0 → eligible j = true.
Hypothesis Hfew :
  (1 ≤ n_par)%Z → (Z.of_nat (length (nzidx row1)) ≤ n_par)%Z.
Hypothesis Hnonneg :
  ∀ j, j < length row1 → ∃ q, row1 !!! j = Num q ∧ (0 ≤ q)%Qc.

Lemma later_entry_positive j t :
  j < length row1 → t < length row1 →
  row1 !!! j ≠ Num 0 → key_le row1 j t → row1 !!! t ≠ Num 0.
Proof.
  intros Hj Ht Hnz Hle. unfold key_le in Hle.
  destruct (Hnonneg j Hj) as (qj & Hqj & Hj0).
  destruct (Hnonneg t Ht) as (qt & Hqt & Ht0).
  rewrite Hqj, Hqt in *. simpl in Hle. apply bool_decide_eq_true in Hle.
  intros [= ->]. apply Hnz. f_equal.
  by apply (anti_symm Qcle).
Qed.

Lemma select_second_run T U c Pi :
  reverse (argsort row1) = T ++ U →
  length Pi = length row1 →
  (∀ j, j < length row1 →
        Pi !!! j = if decide (j ∈ T) then row1 !!! j else Num 0) →
  c = Z.of_nat (length (filter (λ j, eligible j = true) T)) →
  select_parents row1 U c Pi = row1.
Proof.
  revert T c Pi; induction U as [|idx U IH]; intros T c Pi HS Hlen HPi Hc.
  - simpl. apply list_eq_total; [done|]. intros j Hj.
    rewrite Hlen in Hj. rewrite HPi by done.
    rewrite decide_True; [done|].
    rewrite app_nil_r in HS. rewrite <-HS, flip_argsort_perm.
    apply elem_of_seq. lia.
  - pose proof (flip_argsort_perm row1) as Hperm. rewrite HS in Hperm.
    assert (NoDup (T ++ idx :: U)) as Hnd.
    { rewrite Hperm. apply NoDup_seq. }
    assert (∀ k, k ∈ T ++ idx :: U → k < length row1) as Hrange.
    { intros k Hk. rewrite Hperm in Hk. apply elem_of_seq in Hk. lia. }
    assert (idx < length row1) as Hidx.
    { apply Hrange. apply elem_of_app. right. by left. }
    assert (idx ∉ T) as HidxT.
    { apply NoDup_app in Hnd as (_ & Hdisj & _). intros HT.
      apply (Hdisj idx HT). by left. }
    set (Pi' := if eligible idx then <[idx := row1 !!! idx]> Pi else Pi).
    set (c' := if eligible idx then (c + 1)%Z else c).
    assert (length Pi' = length row1) as Hlen'.
    { unfold Pi'. destruct (eligible idx); by rewrite ?length_insert. }
    assert (∀ j, j < length row1 →
              Pi' !!! j = if decide (j ∈ T ++ [idx]) then row1 !!! j else Num 0)
      as HPi'.
    { intros j Hj. destruct (decide (j = idx)) as [->|Hne].
      - rewrite decide_True by (apply elem_of_app; right; by left).
        unfold Pi'. destruct (eligible idx) eqn:He.
        + apply list_lookup_total_insert_eq. lia.
        + rewrite HPi, decide_False by done.
          destruct (decide (row1 !!! idx = Num 0)) as [->|Hnz]; [done|].
          apply Helig in Hnz. congruence.
      - assert (Pi' !!! j = Pi !!! j) as ->.
        { unfold Pi'. destruct (eligible idx); [|done].
          by rewrite list_lookup_total_insert_ne. }
        rewrite HPi by done.
        destruct (decide (j ∈ T)) as [HT|HT].
        + rewrite decide_True; [done|]. apply elem_of_app. by left.
        + rewrite decide_False; [done|].
          intros [?|?%list_elem_of_singleton]%elem_of_app; done. }
    assert (c' = Z.of_nat (length (filter (λ j, eligible j = true) (T ++ [idx]))))
      as Hc'.
    { rewrite filter_app, length_app. unfold c'.
      rewrite filter_cons, filter_nil.
      destruct (eligible idx); case_decide; simpl; (done || lia). }
    assert (reverse (argsort row1) = (T ++ [idx]) ++ U) as HS'.
    { by rewrite <-app_assoc. }
    cbn [Prune.select_parents]. fold Pi' c'.
    destruct (Z.eqb_spec c' n_par) as [Hbreak|_]; [|by eapply IH].
    (* the [break]: nothing that is left is non-zero *)
    apply list_eq_total; [done|]. intros j Hj. rewrite Hlen' in Hj.
    rewrite HPi' by done.
    destruct (decide (j ∈ T ++ [idx])) as [|HjT]; [done|].
    destruct (decide (row1 !!! j = Num 0)) as [->|Hnz]; [done|exfalso].
    assert (∀ t, t ∈ T ++ [idx] → row1 !!! t ≠ Num 0) as Hall.
    { intros t Ht. apply (later_entry_positive j t); [done| |done|].
      - apply Hrange. rewrite (assoc_L (++) T [idx] U : T ++ idx :: U = _).
        apply elem_of_app. by left.
      - assert (j ∈ U) as HjU.
        { assert (j ∈ (T ++ [idx]) ++ U) as Hin.
          { rewrite <-HS', flip_argsort_perm. apply elem_of_seq. lia. }
          apply elem_of_app in Hin as [?|?]; [by destruct HjT|done]. }
        apply list_elem_of_split in HjU as (U1 & U2 & ->).
        apply (flip_argsort_descending row1 ((T ++ [idx]) ++ U1) j U2).
        + rewrite HS'. apply (assoc_L (++)).
        + apply elem_of_app. by left. }
    assert (NoDup ((T ++ [idx]) ++ [j])) as Hnd'.
    { apply NoDup_app. split; [|split].
      - rewrite (assoc_L (++) T [idx] U : T ++ idx :: U = _) in Hnd.
        by apply NoDup_app in Hnd as (? & _ & _).
      - by intros t Ht ->%list_elem_of_singleton.
      - apply NoDup_singleton. }
    assert (length ((T ++ [idx]) ++ [j]) ≤ length (nzidx row1)) as Hcount.
    { apply length_le_nzidx; [done|].
      intros t [Ht| ->%list_elem_of_singleton]%elem_of_app; [|done].
      split; [|by apply Hall].
      apply Hrange. rewrite (assoc_L (++) T [idx] U : T ++ idx :: U = _).
      apply elem_of_app. by left. }
    assert (idx ∈ filter (λ j, eligible j = true) (T ++ [idx])) as Hin.
    { apply list_elem_of_filter. split.
      - apply Helig, Hall, elem_of_app. right. by left.
      - apply elem_of_app. right. by left. }
    pose proof (length_filter (λ j, eligible j = true) (T ++ [idx])) as Hle.
    destruct (filter (λ j, eligible j = true) (T ++ [idx])) as [|? ?] eqn:Hf;
      [by apply elem_of_nil in Hin|].
    rewrite length_app in Hcount. simpl in *. lia.
Qed.
End second_run.

(** *** One row, pruned twice *)

(** A finite, non-negative float. *)
Definition nonneg_num (x : npfloat) : Prop := ∃ q, x = Num q ∧ (0 ≤ q)%Qc.

Definition val (x : npfloat) : Qc :=
  match x with
  | Num q => q
  | _ => 0%Qc
  end.

Definition total (l : list npfloat) : Qc := foldr (λ x s, val x + s)%Qc 0%Qc l.

Lemma total_cons x l : total (x :: l) = (val x + total l)%Qc.
Proof. reflexivity. Qed.

Lemma total_nonneg l : Forall nonneg_num l → (0 ≤ total l)%Qc.
Proof.
  induction 1 as [|x l (q & -> & Hq) _ IH]; simpl; [done|].
  by apply Qcplus_nonneg_nonneg.
Qed.

Lemma row_sum_total l : Forall nonneg_num l → row_sum l = Num (total l).
Proof.
  unfold row_sum. intros Hl.
  assert (∀ a, foldl fl_add (Num a) l = Num (a + total l)%Qc) as Hgen.
  { induction Hl as [|x l (q & -> & Hq) _ IH]; intros a; simpl.
    - by rewrite Qcplus_0_r.
    - rewrite IH. f_equal. ring. }
  rewrite Hgen. f_equal. ring.
Qed.

Lemma total_zero_entries l j :
  Forall nonneg_num l → total l = 0%Qc → j < length l → l !!! j = Num 0.
Proof.
  intros Hl. revert j. induction Hl as [|x l (q & -> & Hq) Hl IH]; intros j; simpl.
  - lia.
  - intros Hsum Hj. pose proof (total_nonneg l Hl) as Hl0.
    assert (q = 0 ∧ total l = 0)%Qc as [-> Hl1].
    { split; apply (anti_symm Qcle); try done.
      - rewrite <-Hsum. rewrite <-(Qcplus_0_r q) at 1.
        by apply Qcplus_le_mono_l.
      - rewrite <-Hsum. rewrite <-(Qcplus_0_l (total l)) at 1.
        by apply Qcplus_le_mono_r. }
    destruct j as [|j]; [done|]. simpl. apply IH; [done|lia].
Qed.

Lemma add_floor_id l :
  (∀ j, j < length l → ¬ (t_init !!! j < t_init !!! i)%Qc) →
  add_floor t_init i l = l.
Proof.
  intros Hno. apply list_eq. intros j. unfold add_floor.
  rewrite list_lookup_imap. destruct (l !! j) as [x|] eqn:Hj; [|done].
  simpl. rewrite bool_decide_eq_false_2; [done|].
  apply Hno. by eapply lookup_lt_Some.
Qed.

Lemma not_eligible_self : eligible i = false.
Proof. unfold Prune.eligible. by rewrite bool_decide_eq_false_2 by auto. Qed.

(** The selection from a row of zeros. *)
Definition selected (row : list npfloat) : list npfloat :=
  select_parents row (reverse (argsort row)) 0 (replicate (length row) (Num 0)).

Lemma select_from_zeros row j :
  selected row !!! j = Num 0 ∨
  (eligible j = true ∧ selected row !!! j = row !!! j).
Proof.
  destruct (select_parents_entry row (reverse (argsort row)) 0
    (replicate (length row) (Num 0)) j) as [Hz|?]; [left|by right].
  unfold selected. rewrite Hz.
  destruct (decide (j < length row)).
  - by rewrite lookup_total_replicate_2.
  - rewrite list_lookup_total_alt, lookup_ge_None_2; [done|].
    rewrite length_replicate. lia.
Qed.

(** The assertion [P[i,i] == 0] always passes. *)
Lemma prune_row_Ok row :
  prune_row t_init n_par i row = Ok (add_floor t_init i (selected row)).
Proof.
  unfold prune_row. fold (selected row). rewrite decide_True; [done|].
  destruct (select_from_zeros row i) as [?|[He _]]; [done|].
  by rewrite not_eligible_self in He.
Qed.

Lemma normalise_row_lookup Pi j :
  Forall nonneg_num Pi → j < length Pi →
  normalise_row Pi !!! j =
    if decide (total Pi = 0)%Qc then
      (if decide (val (Pi !!! j) = 0)%Qc then NaN else PosInf)
    else Num (val (Pi !!! j) / total Pi).
Proof.
  intros HPi Hj. unfold normalise_row.
  rewrite (list_lookup_total_fmap (λ x, fl_div x (row_sum Pi))) by done.
  rewrite row_sum_total by done.
  assert (nonneg_num (Pi !!! j)) as (q & -> & Hq).
  { eapply Forall_forall; [done|]. by apply list_elem_of_lookup_total_2. }
  simpl. destruct (decide (total Pi = 0)%Qc); [|done].
  destruct (decide (q = 0)%Qc); [done|].
  rewrite decide_True; [done|].
  apply Qcle_lt_or_eq in Hq as [?|?]; [done|congruence].
Qed.

Lemma Qcdiv_nonneg (p s : Qc) : (0 ≤ p → 0 < s → 0 ≤ p / s)%Qc.
Proof.
  intros Hp Hs. unfold Qcdiv. apply Qcmult_nonneg_nonneg; [done|].
  by apply Qclt_le_weak, Qcinv_pos.
Qed.

Lemma Qcdiv_zero (p s : Qc) : (s ≠ 0 → p / s = 0 → p = 0)%Qc.
Proof.
  intros Hs Hz. rewrite <-(Qcmult_div_r p s) by done.
  rewrite Hz. ring.
Qed.

(** The floor goes to eligible columns only. *)
Lemma earlier_eligible j :
  (t_init !!! j < t_init !!! i)%Qc → eligible j = true.
Proof.
  intros Hlt. unfold Prune.eligible.
  apply andb_true_iff. split; apply bool_decide_eq_true.
  - intros ->. unfold Qclt in Hlt. by apply Qlt_irrefl in Hlt.
  - by apply Qclt_le_weak.
Qed.

Lemma add_floor_lookup l j :
  j < length l →
  add_floor t_init i l !!! j =
    if bool_decide (t_init !!! j < t_init !!! i)%Qc
    then fl_add (l !!! j) (Num the_floor) else l !!! j.
Proof.
  intros Hj. apply list_lookup_total_correct. unfold add_floor.
  by rewrite list_lookup_imap, (list_lookup_lookup_total_lt l j) by done.
Qed.

Lemma the_floor_nonneg : (0 ≤ the_floor)%Qc.
Proof. by apply (bool_decide_unpack _). Qed.

Lemma selected_length row : length (selected row) = length row.
Proof. unfold selected. by rewrite select_parents_length, length_replicate. Qed.

Lemma selected_nonneg row : Forall nonneg_num row → Forall nonneg_num (selected row).
Proof.
  intros Hrow. apply Forall_total. intros j Hj. rewrite selected_length in Hj.
  destruct (select_from_zeros row j) as [->|[_ ->]].
  - by exists 0%Qc.
  - eapply Forall_forall; [exact Hrow|]. by apply list_elem_of_lookup_total_2.
Qed.

Lemma add_floor_nonneg l : Forall nonneg_num l → Forall nonneg_num (add_floor t_init i l).
Proof.
  intros Hl. apply Forall_total. intros j Hj.
  unfold add_floor in Hj. rewrite length_imap in Hj.
  rewrite add_floor_lookup by done.
  assert (nonneg_num (l !!! j)) as (q & -> & Hq).
  { eapply Forall_forall; [exact Hl|]. by apply list_elem_of_lookup_total_2. }
  case_bool_decide; [|by exists q].
  eexists. split; [done|].
  apply Qcplus_nonneg_nonneg; [done|apply the_floor_nonneg].
Qed.

(** A normalised row of finite numbers was divided by a positive sum. *)
Lemma finite_row_lookup Pi j :
  Forall nonneg_num Pi →
  Forall (λ x, ∃ q, x = Num q) (normalise_row Pi) →
  j < length Pi →
  (0 < total Pi)%Qc ∧
  normalise_row Pi !!! j = Num (val (Pi !!! j) / total Pi).
Proof.
  intros HPi Hfin Hj.
  assert (∃ q, normalise_row Pi !!! j = Num q) as [q Hq].
  { eapply Forall_forall in Hfin; [done|].
    apply list_elem_of_lookup_total_2. unfold normalise_row.
    by rewrite length_fmap. }
  rewrite normalise_row_lookup in Hq |- * by done.
  destruct (decide (total Pi = 0)%Qc) as [Hz|Hnz].
  { by destruct (decide (val (Pi !!! j) = 0)%Qc). }
  split; [|done].
  pose proof (total_nonneg Pi HPi) as H0.
  apply Qcle_lt_or_eq in H0 as [?|?]; [done|congruence].
Qed.

(** Row [i] as the pruning step puts it out, where it holds finite numbers:
    the numbers are non-negative, and the non-zero ones sit at eligible
    columns, where the row had a non-zero entry before the division. *)
Lemma pruned_row_shape row :
  Forall nonneg_num row →
  Forall (λ x, ∃ q, x = Num q)
    (normalise_row (add_floor t_init i (selected row))) →
  Forall nonneg_num (normalise_row (add_floor t_init i (selected row))) ∧
  (∀ j, normalise_row (add_floor t_init i (selected row)) !!! j ≠ Num 0 →
        j < length row ∧ eligible j = true ∧
        add_floor t_init i (selected row) !!! j ≠ Num 0).
Proof.
  intros Hrow Hfin. set (Pi := add_floor t_init i (selected row)) in *.
  assert (Forall nonneg_num Pi) as HPi by (by apply add_floor_nonneg, selected_nonneg).
  assert (length Pi = length row) as Hlen.
  { unfold Pi, add_floor. by rewrite length_imap, selected_length. }
  split.
  - apply Forall_total. intros j Hj.
    unfold normalise_row in Hj. rewrite length_fmap in Hj.
    destruct (finite_row_lookup Pi j HPi Hfin Hj) as [Hpos ->].
    eexists. split; [done|]. apply Qcdiv_nonneg; [|done].
    assert (nonneg_num (Pi !!! j)) as (q & -> & Hq); [|done].
    eapply Forall_forall; [exact HPi|]. by apply list_elem_of_lookup_total_2.
  - intros j Hnz. destruct (decide (j < length row)) as [Hj|Hj].
    + split; [done|].
      destruct (finite_row_lookup Pi j HPi Hfin) as [Hpos Hval]; [lia|].
      assert (Pi !!! j ≠ Num 0) as HPij.
      { intros Hz. apply Hnz. rewrite Hval, Hz. simpl. f_equal.
        unfold Qcdiv. ring. }
      split; [|done].
      unfold Pi in HPij. rewrite add_floor_lookup in HPij
        by (by rewrite selected_length).
      case_bool_decide; [by apply earlier_eligible|].
      by destruct (select_from_zeros row j) as [Hz|[He _]].
    + exfalso. apply Hnz.
      rewrite list_lookup_total_alt, lookup_ge_None_2; [done|].
      unfold normalise_row. rewrite length_fmap. lia.
Qed.

(** The selection loop gives back a row of finite, non-negative numbers
    whose non-zero entries sit at eligible columns and, for [n_par >= 1],
    number at most [n_par]. *)
Lemma selected_again row1 :
  Forall nonneg_num row1 →
  (∀ j, row1 !!! j ≠ Num 0 → eligible j = true) →
  ((1 ≤ n_par)%Z → (Z.of_nat (length (nzidx row1)) ≤ n_par)%Z) →
  selected row1 = row1.
Proof.
  intros Hnn Helig Hfew. apply (select_second_run row1) with (T := []); try done.
  - intros j Hj.
    assert (nonneg_num (row1 !!! j)) as (q & ? & ?); [|by eauto].
    eapply Forall_forall; [exact Hnn|].
    by apply list_elem_of_lookup_total_2.
  - by rewrite length_replicate.
  - intros j Hj. rewrite decide_False by apply not_elem_of_nil.
    by rewrite lookup_total_replicate_2.
Qed.

Lemma selected_few row :
  (1 ≤ n_par)%Z → (Z.of_nat (length (nzidx (selected row))) ≤ n_par)%Z.
Proof.
  intros Hpar. apply select_parents_nz_bound; [|lia].
  by rewrite nzidx_replicate.
Qed.

(** Selecting from a selected row changes nothing. *)
Lemma selected_idempotent row :
  Forall nonneg_num row → selected (selected row) = selected row.
Proof.
  intros Hrow. apply selected_again.
  - by apply selected_nonneg.
  - intros j Hnz. by destruct (select_from_zeros row j) as [Hz|[He _]].
  - apply selected_few.
Qed.
End select.

(** *** The whole matrix *)

Definition pruned_row (t_init : list Qc) (n_par : Z) (ir : nat * list npfloat)
    : list npfloat :=
  add_floor t_init ir.1 (selected t_init n_par ir.1 ir.2).

Lemma prune_Ok P_raw t_init n_par :
  prune P_raw t_init n_par =
    Ok (normalise_row <$> (pruned_row t_init n_par <$> imap pair P_raw)).
Proof.
  unfold prune.
  rewrite (rmap_all_Ok _ (pruned_row t_init n_par)); [done|].
  intros [i row] _. apply prune_row_Ok.
Qed.

Lemma prune_lookup P_raw t_init n_par P i :
  prune P_raw t_init n_par = Ok P →
  P !! i = (λ row, normalise_row (pruned_row t_init n_par (i, row))) <$> P_raw !! i.
Proof.
  rewrite prune_Ok. intros [= <-].
  rewrite !list_lookup_fmap, list_lookup_imap.
  by destruct (P_raw !! i).
Qed.

(** C7 (as the code has it). Pruning a pruned, row-normalised matrix again,
    with the same initial times and [n_par], returns. The selection of
    parents is idempotent: selecting from a selected row gives that row
    back. The whole step is not: on a row of finite numbers with at most
    [n_par] non-zero entries the second run keeps every entry, adds the
    floor once more to the columns of strictly earlier types and divides by
    the new row sum; on a row of finite numbers without a strictly earlier
    type it divides the row by its own sum once more and changes nothing
    else. The raw matrix is taken to hold finite, non-negative entries. The
    second run is compared with the same additions and divisions made on
    the row it reads, so nothing here rests on a division being exact. *)
Theorem prune_again_adds_floor_and_renormalises
    (P_raw : list (list npfloat)) (t_init : list Qc) (n_par : Z)
    (P1 : list (list npfloat)) :
  Forall (Forall nonneg_num) P_raw →
  prune P_raw t_init n_par = Ok P1 →
  ∃ P2, prune P1 t_init n_par = Ok P2 ∧
    (∀ i row, P_raw !! i = Some row →
       selected t_init n_par i (selected t_init n_par i row)
       = selected t_init n_par i row) ∧
    ∀ i row1, P1 !! i = Some row1 →
      Forall (λ x, ∃ q, x = Num q) row1 →
      ((Z.of_nat (length (nzidx row1)) ≤ n_par)%Z →
         P2 !! i = Some (normalise_row (add_floor t_init i row1))) ∧
      ((∀ j, j < length row1 → ¬ (t_init !!! j < t_init !!! i)%Qc) →
         P2 !! i = Some (normalise_row row1)).
Proof.
  intros Hraw HP1. eexists. split; [apply prune_Ok|]. split.
  { intros i row Hrow. apply selected_idempotent.
    eapply Forall_forall in Hraw; [done|]. by eapply list_elem_of_lookup_2. }
  intros i row1 Hrow1 Hfin. pose proof Hrow1 as HP1i.
  rewrite (prune_lookup _ _ _ _ i HP1) in Hrow1.
  destruct (P_raw !! i) as [row|] eqn:Hrow; [|done].
  injection Hrow1 as <-. unfold pruned_row in *. cbn [fst snd] in *.
  assert (Forall nonneg_num row) as Hnn.
  { eapply Forall_forall in Hraw; [done|]. by eapply list_elem_of_lookup_2. }
  destruct (pruned_row_shape t_init n_par i row Hnn Hfin) as [Hnn1 Hnz1].
  set (row1 := normalise_row (add_floor t_init i (selected t_init n_par i row))) in *.
  assert (length row1 = length row) as Hlen.
  { unfold row1, normalise_row, add_floor.
    by rewrite length_fmap, length_imap, selected_length. }
  assert (∀ idx, (normalise_row <$>
            (pruned_row t_init n_par <$> imap pair P1)) !! idx =
          (λ r, normalise_row (add_floor t_init idx (selected t_init n_par idx r)))
            <$> P1 !! idx) as Hlookup.
  { intros idx. rewrite !list_lookup_fmap, list_lookup_imap.
    by destruct (P1 !! idx). }
  rewrite Hlookup, HP1i. cbn [fmap option_fmap option_map].
  split.
  - intros Hcount. rewrite selected_again; [done|done| |done].
    intros j Hj. by apply Hnz1.
  - intros Hno. rewrite Hlen in Hno.
    rewrite selected_again; [|done| |].
    + rewrite add_floor_id; [done|]. intros j Hj. apply Hno. lia.
    + intros j Hj. by apply Hnz1.
    + intros Hpar.
      assert (add_floor t_init i (selected t_init n_par i row)
              = selected t_init n_par i row) as Hfloor.
      { apply add_floor_id. intros j Hj. apply Hno.
        by rewrite selected_length in Hj. }
      assert (length (nzidx row1) ≤ length (nzidx (selected t_init n_par i row)))
        as Hle.
      { apply length_le_nzidx; [apply NoDup_nzidx|].
        intros j [_ Hnz]%elem_of_nzidx.
        destruct (Hnz1 j Hnz) as (Hj & _ & HPij). rewrite Hfloor in HPij.
        split; [by rewrite selected_length|done]. }
      pose proof (selected_few t_init n_par i row Hpar). lia.
Qed.

(** Three types with the distinct initial times 0, 1 and 2 and [n_par = 2]:
    type 0 is the root (its row is NaN), type 1 has one earlier type and
    type 2 has two; both keep all their parents, and the second run adds the
    floor to each of them again. *)
Lemma prune_again_adds_floor_and_renormalises_witness :
  ∃ P2, prune [[NaN; NaN; NaN];
               [frac 1 1; frac 0 1; frac 0 1];
               [frac 301 1002; frac 701 1002; frac 0 1]]
              [0%Qc; 1%Qc; 2%Qc] 2 = Ok P2 ∧
    (∀ i row,
       [[frac 1 1; frac 0 1; frac 0 1];
        [frac 1 2; frac 1 2; frac 0 1];
        [frac 3 10; frac 7 10; frac 0 1]] !! i = Some row →
       selected [0%Qc; 1%Qc; 2%Qc] 2 i (selected [0%Qc; 1%Qc; 2%Qc] 2 i row)
       = selected [0%Qc; 1%Qc; 2%Qc] 2 i row) ∧
    ∀ i row1,
      [[NaN; NaN; NaN];
       [frac 1 1; frac 0 1; frac 0 1];
       [frac 301 1002; frac 701 1002; frac 0 1]] !! i = Some row1 →
      Forall (λ x, ∃ q, x = Num q) row1 →
      ((Z.of_nat (length (nzidx row1)) ≤ 2)%Z →
         P2 !! i = Some (normalise_row (add_floor [0%Qc; 1%Qc; 2%Qc] i row1))) ∧
      ((∀ j, j < length row1 →
             ¬ ([0%Qc; 1%Qc; 2%Qc] !!! j < [0%Qc; 1%Qc; 2%Qc] !!! i)%Qc) →
         P2 !! i = Some (normalise_row row1)).
Proof.
  apply (prune_again_adds_floor_and_renormalises
           [[frac 1 1; frac 0 1; frac 0 1];
            [frac 1 2; frac 1 2; frac 0 1];
            [frac 3 10; frac 7 10; frac 0 1]]).
  - repeat constructor; eexists;
      (split; [reflexivity|apply (bool_decide_unpack _); vm_compute; exact I]).
  - apply (bool_decide_unpack _). vm_compute. exact I.
Defined.
End prune_facts.

(** ** The arborescence solver *)

Section arbor_effects.
Import Arbor.

(** *** The caller's array *)

Lemma ecl_graph_after rnd fuel k graph r out :
  ecl rnd fuel k graph r = Ok out →
  r < length graph ∧
  out.1.2 = <[r := replicate (length (graph !!! r)) NegInf]> graph.
Proof.
  destruct fuel as [|fuel]; [done|]. simpl.
  case_decide as Hr; [done|].
  intros (lv & _ & Hrest)%rbind_Ok.
  split; [lia|].
  case_decide.
  - apply rbind_Ok in Hrest as (rec & _ & Hrest).
    apply rbind_Ok in Hrest as (mst & _ & Hrest).
    by injection Hrest as <-.
  - by injection Hrest as <-.
Qed.

(** C10. When a call of [edmond_chu_liu] returns, row [r] of the array that
    was passed in holds [-inf] everywhere (and has kept its length), and
    every other row is as it was. *)
Theorem edmond_chu_liu_clears_root_row
    (rnd : nat → nat) (k : nat) (graph : list (list weight)) (r : nat)
    (k' : nat) (graph' : list (list weight)) (mst : list (list nat)) :
  edmond_chu_liu rnd k graph r = Ok (k', graph', mst) →
  (∃ row, graph' !! r = Some row ∧
          length row = length (graph !!! r) ∧ Forall (λ w, w = NegInf) row) ∧
  (∀ i, i ≠ r → graph' !! i = graph !! i).
Proof.
  intros [Hr Hg]%ecl_graph_after. simpl in Hg. subst graph'. split.
  - eexists. split; [by apply list_lookup_insert_eq|].
    split; [by rewrite length_replicate|].
    apply Forall_forall. by intros w [-> _]%elem_of_replicate.
  - intros i Hi. by apply list_lookup_insert_ne.
Qed.

Lemma edmond_chu_liu_clears_root_row_witness :
  (∃ row, [[NegInf; Finite 3; NegInf];
           [NegInf; NegInf; NegInf];
           [Finite (-5); Finite 0; NegInf]] !! 1 = Some row ∧
          length row = length ([[NegInf; Finite 3; NegInf];
                                [Finite 0; NegInf; NegInf];
                                [Finite (-5); Finite 0; NegInf]] !!! 1) ∧
          Forall (λ w, w = NegInf) row) ∧
  (∀ i, i ≠ 1 →
        [[NegInf; Finite 3; NegInf];
         [NegInf; NegInf; NegInf];
         [Finite (-5); Finite 0; NegInf]] !! i =
        [[NegInf; Finite 3; NegInf];
         [Finite 0; NegInf; NegInf];
         [Finite (-5); Finite 0; NegInf]] !! i).
Proof.
  apply (edmond_chu_liu_clears_root_row (λ _, 0) 0
           [[NegInf; Finite 3; NegInf];
            [Finite 0; NegInf; NegInf];
            [Finite (-5); Finite 0; NegInf]] 1 1
           _ [[0; 1; 0]; [0; 1; 0]; [0; 1; 0]]).
  vm_compute. reflexivity.
Defined.

(** *** The fallback parent *)

(** The graph on three nodes whose only edge goes from node 1 to node 2. *)
Definition lone_edge : list (list weight) :=
  [[NegInf; NegInf; NegInf];
   [NegInf; NegInf; NegInf];
   [NegInf; Finite 0; NegInf]].

(** C8 on an instance: root 0 and the graph [lone_edge], in which node 1 has
    no incoming edge. The draws are [d0] (for the root) and 1 (for node 1,
    whose fallback parent is then [(1 + 1) mod 3 = 2]) at the top level, and
    [d2], [d3] in the recursive call on the contracted graph. Nodes 1 and 2
    form a cycle, the contracted node has no incoming edge either, and
    whatever the other draws are the call ends in a [KeyError] raised by
    [v_to_loop[source_to_loop]]. *)
Theorem fallback_parent_raises_KeyError (d0 d2 d3 : nat) :
  d0 < 3 → d2 < 2 → d3 < 2 →
  edmond_chu_liu (λ k, nth k [d0; 1; d2; d3] 0) 0 lone_edge 0 = Raise KeyError.
Proof.
  intros H0 H2 H3.
  destruct d0 as [|[|[|?]]]; [| | |lia];
    (destruct d2 as [|[|?]]; [| |lia]);
    (destruct d3 as [|[|?]]; [| |lia]); vm_compute; reflexivity.
Qed.

Lemma fallback_parent_raises_KeyError_witness :
  edmond_chu_liu (λ k, nth k [0; 1; 0; 1] 0) 0 lone_edge 0 = Raise KeyError.
Proof. apply (fallback_parent_raises_KeyError 0 0 1); lia. Defined.

(** With the draw 0 for node 1 the fallback parent of node 1 is node 1
    itself, and the call returns a matrix in which node 1 is its own
    parent. *)
Example fallback_parent_self_loop :
  mst_of (edmond_chu_liu (λ _, 0) 0 lone_edge 0)
  = Ok [[1; 0; 0]; [0; 1; 0]; [0; 1; 0]].
Proof. vm_compute. reflexivity. Qed.

(** *** The root's self-loop *)

(** C1 as stated fails, in two ways. (1) On two nodes with the single edge
    from the root 0 to node 1, every node is reachable from the root; the
    solver returns [[1, 0], [1, 0]], which has 2 edges, not 1, and an edge
    into the root (its self-loop). (2) When node 1 also has an edge to
    itself that outweighs the edge from the root, the solver makes node 1
    its own parent: in [[1, 0], [0, 1]] node 1 sits on a cycle and cannot be
    reached from the root, so even a reading that allows the root's
    self-loop fails. *)
Lemma root_self_loop_counterexample :
  let graph := [[NegInf; NegInf]; [Finite 0; NegInf]] in
  let graph' := [[NegInf; NegInf]; [Finite 0; Finite 1]] in
  ((∀ v, v < 2 → reachable graph 0 v) ∧
   mst_of (edmond_chu_liu (λ _, 0) 0 graph 0) = Ok [[1; 0]; [1; 0]] ∧
   ¬ spanning_arborescence 2 0 [[1; 0]; [1; 0]]) ∧
  ((∀ v, v < 2 → reachable graph' 0 v) ∧
   mst_of (edmond_chu_liu (λ _, 0) 0 graph' 0) = Ok [[1; 0]; [0; 1]] ∧
   ¬ spanning_arborescence 2 0 [[1; 0]; [0; 1]] ∧
   ¬ arborescence_with_root_loop 2 0 [[1; 0]; [0; 1]]).
Proof.
  assert (∀ g, has_edge g 0 1 → ∀ v, v < 2 → reachable g 0 v) as Hreach.
  { intros g Hg [|[|v]] Hv; [apply rtc_refl|by apply rtc_once|lia]. }
  split; [split; [|split]|split; [|split; [|split]]].
  - by apply Hreach.
  - vm_compute. reflexivity.
  - intros (_ & _ & Hedges & _). vm_compute in Hedges. lia.
  - by apply Hreach.
  - vm_compute. reflexivity.
  - intros (_ & _ & Hedges & _). vm_compute in Hedges. lia.
  - intros (_ & _ & _ & _ & Hacyclic & _).
    apply (Hacyclic 1), tc_once. split; [reflexivity|lia].
Qed.

(** *** Determinism on the happy path *)

Lemma foldl_ext_in {A B} (f g : A → B → A) (a : A) (l : list B) :
  (∀ a x, x ∈ l → f a x = g a x) → foldl f a l = foldl g a l.
Proof.
  revert a; induction l as [|x l IH]; intros a Hfg; simpl; [done|].
  rewrite Hfg by left. apply IH. intros a' x' Hx'. apply Hfg. by right.
Qed.

(** Two parent lists that differ at the root only. *)
Definition agree (r : nat) (p1 p2 : list nat) : Prop :=
  ∀ i, i ≠ r → p1 !!! i = p2 !!! i.

Lemma best_parents_agree rnd1 rnd2 n rows i k1 k2 r :
  (∀ j row, rows !! j = Some row → i + j ≠ r → is_Some (row_max row)) →
  ∀ j, i + j ≠ r →
       (best_parents rnd1 n rows i k1).1 !! j = (best_parents rnd2 n rows i k2).1 !! j.
Proof.
  revert i k1 k2; induction rows as [|row rows IH]; intros i k1 k2 Hok j Hj; [done|].
  simpl. destruct j as [|j]; simpl.
  - destruct (Hok 0 row) as [m Hm]; [done|done|]. by rewrite Hm.
  - apply IH; [|lia]. intros j' row' Hrow' Hj'.
    apply (Hok (S j') row'); [done|lia].
Qed.

Lemma adj_list_pruned_agree n r p1 p2 :
  agree r p1 p2 → adj_list_pruned n r p1 = adj_list_pruned n r p2.
Proof.
  intros Hag. unfold adj_list_pruned. apply foldl_ext_in.
  intros adj i _. case_decide; [done|]. by rewrite (Hag i).
Qed.

Lemma no_loop_mst_agree n r p1 p2 :
  agree r p1 p2 → no_loop_mst n r p1 = no_loop_mst n r p2.
Proof.
  intros Hag. unfold no_loop_mst. f_equal.
  apply list_fmap_ext. intros _ i _. case_decide; [done|]. by rewrite (Hag i).
Qed.

Lemma merge_nodes_agree graph r p1 p2 n loop v_outside :
  (∀ y, mget graph r y = NegInf) →
  agree r p1 p2 →
  merge_nodes graph p1 n loop v_outside = merge_nodes graph p2 n loop v_outside.
Proof.
  intros Hroot Hag.
  assert (build_edges graph p1 loop v_outside = build_edges graph p2 loop v_outside)
    as Hedges.
  { unfold build_edges. apply foldl_ext_in. intros e x _.
    apply foldl_ext_in. intros e' y _. unfold merge_edge.
    destruct (decide (x = r)) as [->|Hne]; [by rewrite Hroot|].
    by rewrite (Hag x). }
  unfold merge_nodes. by rewrite Hedges.
Qed.

Lemma cleared_root_row (graph : list (list weight)) r y :
  mget (<[r := replicate (length (graph !!! r)) NegInf]> graph) r y = NegInf.
Proof.
  unfold mget. destruct (decide (r < length graph)) as [Hr|Hr].
  - rewrite list_lookup_total_insert_eq by done.
    destruct (decide (y < length (graph !!! r))).
    + by rewrite lookup_total_replicate_2.
    + rewrite list_lookup_total_alt, lookup_ge_None_2; [done|].
      rewrite length_replicate. lia.
  - rewrite list_insert_ge by lia.
    rewrite (list_lookup_total_alt graph), lookup_ge_None_2 by lia.
    simpl. by rewrite list_lookup_total_alt.
Qed.

Lemma happy_level graph r rnd k :
  let n := length graph in
  let graph1 := <[r := replicate (length (graph !!! r)) NegInf]> graph in
  forallb (λ i, bool_decide (i = r)
                || bool_decide (is_Some (row_max (graph1 !!! i))))
          (seq 0 n) = true →
  agree r (best_parents rnd n graph1 0 k).1
          (best_parents (λ _, 0) n graph1 0 0).1.
Proof.
  intros n graph1 Hall i Hi. rewrite !list_lookup_total_alt. f_equal.
  apply (best_parents_agree _ _ _ _ _ _ _ r); [|done].
  intros j row Hrow Hj. simpl in Hj.
  rewrite forallb_forall in Hall.
  assert (j < n) as Hjn.
  { apply lookup_lt_Some in Hrow. unfold graph1 in Hrow.
    by rewrite length_insert in Hrow. }
  assert (In j (seq 0 n)) as Hin by (apply in_seq; lia).
  apply Hall, orb_true_iff in Hin as [Hin|Hin].
  - by apply bool_decide_eq_true in Hin.
  - apply bool_decide_eq_true in Hin.
    by rewrite (list_lookup_total_correct _ _ _ Hrow) in Hin.
Qed.

Lemma ecl_deterministic fuel graph r rnd1 k1 rnd2 k2 :
  happy_path fuel graph r = true →
  mst_of (ecl rnd1 fuel k1 graph r) = mst_of (ecl rnd2 fuel k2 graph r).
Proof.
  revert graph r k1 k2; induction fuel as [|fuel IH]; intros graph r k1 k2; [done|].
  cbn [happy_path ecl].
  intros [Hr [Hlevel Hrec]%andb_true_iff]%andb_true_iff.
  apply bool_decide_eq_true in Hr.
  rewrite !decide_False by lia.
  set (graph1 := <[r := replicate (length (graph !!! r)) NegInf]> graph) in *.
  pose proof (happy_level graph r rnd1 k1 Hlevel) as Hag1.
  pose proof (happy_level graph r rnd2 k2 Hlevel) as Hag2.
  cbv zeta in Hag1, Hag2. fold graph1 in Hag1, Hag2.
  rewrite (adj_list_pruned_agree _ _ _ _ Hag1), (adj_list_pruned_agree _ _ _ _ Hag2).
  destruct (check_loop _ _) as [lv|e]; [|done]. cbn [rbind].
  case_decide as Hloop.
  - rewrite (merge_nodes_agree graph1 r _ _ _ _ _ (cleared_root_row graph r) Hag1).
    rewrite (merge_nodes_agree graph1 r _ _ _ _ _ (cleared_root_row graph r) Hag2).
    specialize (IH _ _ (best_parents rnd1 (length graph) graph1 0 k1).2
                       (best_parents rnd2 (length graph) graph1 0 k2).2 Hrec).
    destruct (ecl rnd1 fuel _ _ _) as [rec1|e1], (ecl rnd2 fuel _ _ _) as [rec2|e2];
      cbn [mst_of rbind] in *; try done.
    injection IH as IH. rewrite IH. by destruct (expand_loop _ _ _ _ _).
  - cbn [mst_of snd]. f_equal. rewrite (no_loop_mst_agree _ _ _ _ Hag1).
    by rewrite (no_loop_mst_agree _ _ _ _ Hag2).
Qed.

(** C4. On the happy path (no node but the root ever takes the
    no-incoming-edge fallback) two calls on the same graph and root return
    the same matrix, or end in the same exception, whatever the random
    source yields and wherever in its stream each call starts. *)
Theorem edmond_chu_liu_deterministic
    (graph : list (list weight)) (r : nat)
    (rnd1 rnd2 : nat → nat) (k1 k2 : nat) :
  happy_path (S (length graph)) graph r = true →
  mst_of (edmond_chu_liu rnd1 k1 graph r) = mst_of (edmond_chu_liu rnd2 k2 graph r).
Proof. apply ecl_deterministic. Qed.

(** Root 0 and a cycle among nodes 1, 2, 3: the contraction runs twice. *)
Definition three_cycle : list (list weight) :=
  [[NegInf; NegInf; NegInf; NegInf];
   [Finite (-3); NegInf; Finite (-1); Finite (-1)];
   [Finite (-3); Finite (-1); NegInf; Finite (-1)];
   [Finite (-3); Finite (-1); Finite (-1); NegInf]].

Lemma edmond_chu_liu_deterministic_witness :
  mst_of (edmond_chu_liu (λ _, 0) 0 three_cycle 0)
  = mst_of (edmond_chu_liu (λ k, 7 * k + 3) 5 three_cycle 0).
Proof. apply edmond_chu_liu_deterministic. vm_compute. reflexivity. Defined.

(** The randomness that is left: the root itself always takes the fallback
    branch, so every level of the recursion makes one draw, which the
    result does not depend on. *)
Example happy_path_draws :
  edmond_chu_liu (λ _, 0) 0 three_cycle 0
  = Ok (3, [[NegInf; NegInf; NegInf; NegInf];
            [Finite (-3); NegInf; Finite (-1); Finite (-1)];
            [Finite (-3); Finite (-1); NegInf; Finite (-1)];
            [Finite (-3); Finite (-1); Finite (-1); NegInf]],
        [[1; 0; 0; 0]; [0; 0; 0; 1]; [0; 1; 0; 0]; [1; 0; 0; 0]]).
Proof. vm_compute. reflexivity. Qed.
End arbor_effects.

(** ** The solver returns an arborescence *)

Section matrices.
Import Arbor.
Context {A : Type} `{Inhabited A}.
Implicit Types M : list (list A).

Lemma mset_length M i j v : length (mset M i j v) = length M.
Proof. apply length_alter. Qed.

Lemma mset_row_length M i j v k :
  length (mset M i j v !!! k) = length (M !!! k).
Proof.
  unfold mset. destruct (decide (i = k)) as [->|Hne].
  - destruct (decide (k < length M)).
    + rewrite list_lookup_total_alter_eq by done. apply length_insert.
    + rewrite !list_lookup_total_alt, !lookup_ge_None_2; [done|lia|].
      rewrite length_alter. lia.
  - by rewrite list_lookup_total_alter_ne.
Qed.

Lemma mget_mset_eq M i j v :
  i < length M → j < length (M !!! i) → mget (mset M i j v) i j = v.
Proof.
  intros Hi Hj. unfold mget, mset.
  rewrite list_lookup_total_alter_eq by done.
  by rewrite list_lookup_total_insert_eq.
Qed.

Lemma mget_mset_ne M i j v a b :
  (i, j) ≠ (a, b) → mget (mset M i j v) a b = mget M a b.
Proof.
  intros Hne. unfold mget, mset.
  destruct (decide (i = a)) as [->|Hia].
  - destruct (decide (a < length M)).
    + rewrite list_lookup_total_alter_eq by done.
      rewrite list_lookup_total_insert_ne; [done|congruence].
    + rewrite !(list_lookup_total_alt _ a), !lookup_ge_None_2; [done|lia|].
      rewrite length_alter. lia.
  - by rewrite list_lookup_total_alter_ne.
Qed.

Lemma apply_writes_app (ws1 ws2 : list (nat * nat * A)) M :
  apply_writes (ws1 ++ ws2) M = apply_writes ws2 (apply_writes ws1 M).
Proof. apply foldl_app. Qed.

Lemma apply_writes_length (ws : list (nat * nat * A)) M :
  length (apply_writes ws M) = length M.
Proof.
  revert M; induction ws as [|w ws IH]; intros M; simpl; [done|].
  by rewrite IH, mset_length.
Qed.

Lemma apply_writes_row_length (ws : list (nat * nat * A)) M k :
  length (apply_writes ws M !!! k) = length (M !!! k).
Proof.
  revert M; induction ws as [|w ws IH]; intros M; simpl; [done|].
  by rewrite IH, mset_row_length.
Qed.

(** A cell that no write names keeps its value. *)
Lemma mget_apply_writes_other (ws : list (nat * nat * A)) M a b :
  (∀ w, w ∈ ws → (w.1.1, w.1.2) ≠ (a, b)) →
  mget (apply_writes ws M) a b = mget M a b.
Proof.
  revert M; induction ws as [|w ws IH]; intros M Hws; simpl; [done|].
  rewrite IH by (intros w' Hw'; apply Hws; by right).
  apply mget_mset_ne, Hws. by left.
Qed.

(** A cell that is written, always with the same value, holds that value. *)
Lemma mget_apply_writes_same (ws : list (nat * nat * A)) M a b v :
  a < length M → b < length (M !!! a) →
  (∃ w, w ∈ ws ∧ (w.1.1, w.1.2) = (a, b)) →
  (∀ w, w ∈ ws → (w.1.1, w.1.2) = (a, b) → w.2 = v) →
  mget (apply_writes ws M) a b = v.
Proof.
  intros Ha Hb. induction ws as [|w ws IH] using rev_ind.
  - by intros (w & Hw%elem_of_nil & _).
  - intros (w0 & Hw0 & Hab0) Hall. rewrite apply_writes_app. simpl.
    destruct (decide ((w.1.1, w.1.2) = (a, b))) as [Hw|Hw].
    + injection Hw as Hw1 Hw2. rewrite Hw1, Hw2.
      rewrite mget_mset_eq.
      * apply Hall; [|by rewrite Hw1, Hw2]. apply elem_of_app. right. by left.
      * by rewrite apply_writes_length.
      * by rewrite apply_writes_row_length.
    + rewrite mget_mset_ne by done. apply IH.
      * exists w0. split; [|done].
        apply elem_of_app in Hw0 as [?|Hw0]; [done|].
        apply list_elem_of_singleton in Hw0 as ->. done.
      * intros w' Hw'. apply Hall. apply elem_of_app. by left.
Qed.

Lemma mget_replicate n (v : A) a b :
  a < n → b < n → mget (replicate n (replicate n v)) a b = v.
Proof.
  intros Ha Hb. unfold mget. by rewrite !lookup_total_replicate_2.
Qed.

Lemma square_replicate n (v : A) : square n (replicate n (replicate n v)).
Proof.
  split; [apply length_replicate|].
  apply Forall_forall. intros row [-> _]%elem_of_replicate. apply length_replicate.
Qed.

Lemma square_row_length n M k : square n M → k < n → length (M !!! k) = n.
Proof.
  intros [Hlen Hrows] Hk. eapply Forall_forall in Hrows; [done|].
  apply list_elem_of_lookup_total_2. lia.
Qed.

Lemma square_total n M :
  length M = n → (∀ k, k < n → length (M !!! k) = n) → square n M.
Proof.
  intros Hlen Hrows. split; [done|].
  apply Forall_forall. intros row (k & Hk)%list_elem_of_lookup.
  rewrite <-(list_lookup_total_correct _ _ _ Hk). apply Hrows.
  apply lookup_lt_Some in Hk. lia.
Qed.

Lemma square_mset n M i j v : square n M → square n (mset M i j v).
Proof.
  intros HM. apply square_total.
  - rewrite mset_length. apply HM.
  - intros k Hk. rewrite mset_row_length. by apply square_row_length.
Qed.

Lemma square_apply_writes n (ws : list (nat * nat * A)) M :
  square n M → square n (apply_writes ws M).
Proof.
  intros HM. apply square_total.
  - rewrite apply_writes_length. apply HM.
  - intros k Hk. rewrite apply_writes_row_length. by apply square_row_length.
Qed.

Lemma mget_out_of_range n M a b :
  square n M → n ≤ a ∨ n ≤ b → mget M a b = inhabitant.
Proof.
  intros HM Hab. unfold mget.
  destruct (decide (a < n)) as [Ha|Ha].
  - rewrite (list_lookup_total_alt _ b), lookup_ge_None_2; [done|].
    rewrite (square_row_length n) by done. lia.
  - rewrite (list_lookup_total_alt M), lookup_ge_None_2 by (destruct HM; lia).
    simpl. by rewrite list_lookup_total_alt.
Qed.
End matrices.

Section parents.
Import Arbor.

Lemma row_max_elem row m : row_max row = Some m → Finite m ∈ row.
Proof.
  revert m; induction row as [|w row IH]; intros m; simpl; [done|].
  destruct w as [|a]; [intros ?%IH; by right|].
  destruct (row_max row) as [b|] eqn:Hb.
  - intros [= <-]. destruct (Z.max_spec a b) as [[_ ->]|[_ ->]].
    + right. by apply IH.
    + by left.
  - intros [= <-]. by left.
Qed.

Lemma row_max_finite row j :
  isinf (row !!! j) = false → is_Some (row_max row).
Proof.
  revert j; induction row as [|w row IH]; intros j; simpl.
  - by destruct j.
  - destruct w as [|a]; [|by destruct (row_max row); eauto].
    destruct j as [|j]; simpl; [done|]. apply IH.
Qed.

Lemma first_index_spec row m :
  Finite m ∈ row →
  first_index m row < length row ∧ row !!! first_index m row = Finite m.
Proof.
  intros Hin. unfold first_index.
  destruct (list_find_elem_of (λ w, w = Finite m) row (Finite m) Hin eq_refl)
    as [[j w] Hfind].
  rewrite Hfind. apply list_find_Some in Hfind as (Hj & -> & _).
  split; [by eapply lookup_lt_Some|by apply list_lookup_total_correct].
Qed.

Lemma best_parents_length rnd n rows i k :
  length (best_parents rnd n rows i k).1 = length rows.
Proof.
  revert i k; induction rows as [|row rows IH]; intros i k; simpl; [done|].
  by rewrite IH.
Qed.

Lemma best_parents_lookup rnd n rows i k j row m :
  rows !! j = Some row → row_max row = Some m →
  (best_parents rnd n rows i k).1 !! j = Some (first_index m row).
Proof.
  revert i k j; induction rows as [|row' rows IH]; intros i k j; [done|].
  destruct j as [|j]; simpl.
  - intros [= ->] ->. done.
  - apply IH.
Qed.

(** [adj_list_pruned] lists, for every node, the non-root nodes that have it
    as parent, in ascending order. *)
Lemma adj_list_pruned_spec n r ps :
  length (adj_list_pruned n r ps) = n ∧
  ∀ p, p < n →
       adj_list_pruned n r ps !!! p = filter (λ c, c ≠ r ∧ ps !!! c = p) (seq 0 n).
Proof.
  unfold adj_list_pruned.
  set (step := λ (adj : list (list nat)) i,
         if decide (i = r) then adj else alter (λ l, l ++ [i]) (ps !!! i) adj).
  assert (∀ t, length (foldl step (replicate n []) (seq 0 t)) = n ∧
               ∀ p, p < n →
                 foldl step (replicate n []) (seq 0 t) !!! p
                 = filter (λ c, c ≠ r ∧ ps !!! c = p) (seq 0 t)) as Hgen.
  { induction t as [|t [IHlen IH]].
    - simpl. split; [apply length_replicate|].
      intros p Hp. by rewrite lookup_total_replicate_2.
    - rewrite seq_S, foldl_snoc. simpl. unfold step at 1 3.
      case_decide as Ht.
      + split; [done|]. intros p Hp. rewrite IH by done.
        rewrite filter_app, filter_cons_False, filter_nil, app_nil_r; [done|].
        intros [? _]; done.
      + split; [by rewrite length_alter|]. intros p Hp.
        rewrite filter_app.
        destruct (decide (ps !!! t = p)) as [Hpt|Hpt].
        * rewrite Hpt, list_lookup_total_alter_eq by lia.
          rewrite IH by done. by rewrite filter_cons_True, filter_nil.
        * rewrite list_lookup_total_alter_ne by done.
          rewrite IH by done.
          rewrite filter_cons_False, filter_nil, app_nil_r; [done|].
          intros [_ ?]; done. }
  apply Hgen.
Qed.

Lemma elem_of_adj_list_pruned n r ps p c :
  c ∈ adj_list_pruned n r ps !!! p ↔ c < n ∧ c ≠ r ∧ ps !!! c = p ∧ p < n.
Proof.
  destruct (adj_list_pruned_spec n r ps) as [Hlen Hadj].
  destruct (decide (p < n)) as [Hp|Hp].
  - rewrite Hadj by done. rewrite list_elem_of_filter, elem_of_seq.
    split; [intros [[? ?] ?]|intros (? & ? & ? & ?)]; repeat split; auto; lia.
  - rewrite list_lookup_total_alt, lookup_ge_None_2 by lia. simpl.
    rewrite elem_of_nil. split; [done|]. intros (_ & _ & _ & ?). lia.
Qed.

Lemma NoDup_adj_list_pruned n r ps p : NoDup (adj_list_pruned n r ps !!! p).
Proof.
  destruct (adj_list_pruned_spec n r ps) as [Hlen Hadj].
  destruct (decide (p < n)) as [Hp|Hp].
  - rewrite Hadj by done. apply NoDup_filter, NoDup_seq.
  - rewrite list_lookup_total_alt, lookup_ge_None_2 by lia. constructor.
Qed.
End parents.

(** *** The trace-back walk of [get_loop] *)

Section walk.
Import Arbor.
Variable tb : gmap nat nat.
Variable s : nat.

(** [walk x l]: following [tb] from [x], the nodes met are those of [l], the
    last of which is the first occurrence of [s]. *)
Inductive walk : nat → list nat → Prop :=
| walk_end x : tb !! x = Some s → walk x [s]
| walk_step x p l : tb !! x = Some p → p ≠ s → walk p l → walk x (p :: l).

(** [d] steps back along [tb]. *)
Fixpoint back (d : nat) (x : nat) : option nat :=
  match d with
  | O => Some x
  | S d' => match tb !! x with Some p => back d' p | None => None end
  end.

Lemma walk_deterministic x l1 l2 : walk x l1 → walk x l2 → l1 = l2.
Proof.
  intros Hw1. revert l2. induction Hw1 as [x Hx|x p l Hx Hp _ IH]; intros l2 Hw2.
  - inversion Hw2; simplify_eq; done.
  - inversion Hw2; simplify_eq. f_equal. by apply IH.
Qed.

Lemma walk_last x l : walk x l → last l = Some s.
Proof.
  induction 1 as [|x p l _ _ Hw IH]; [done|].
  destruct l; [inversion Hw|done].
Qed.

Lemma walk_suffix x l u p w :
  walk x l → l = u ++ p :: w → w ≠ [] → walk p w.
Proof.
  intros Hw. revert u. induction Hw as [x Hx|x q l Hx Hq Hw IH]; intros u Hl Hne.
  - destruct u as [|? [|? ?]]; simplify_eq/=; done.
  - destruct u as [|q' u]; simplify_eq/=; [done|]. by eapply IH.
Qed.

Lemma walk_NoDup x l : walk x l → NoDup l.
Proof.
  induction 1 as [|x p l Hx Hp Hw IH]; [apply NoDup_singleton|].
  constructor; [|done].
  intros (u & w & ->)%list_elem_of_split.
  destruct (decide (w = [])) as [->|Hne].
  - apply walk_last in Hw. rewrite last_snoc in Hw. congruence.
  - pose proof (walk_suffix _ _ _ _ _ Hw eq_refl Hne) as Hw'.
    pose proof (walk_deterministic _ _ _ Hw Hw') as Heq.
    apply (f_equal length) in Heq. rewrite length_app in Heq. simpl in Heq. lia.
Qed.

(** Along a walk every node is mapped to the next one. *)
Lemma walk_chain x l i :
  walk x l → S i < length l → tb !! (l !!! i) = Some (l !!! S i).
Proof.
  intros Hw. revert i. induction Hw as [x Hx|x p l Hx Hp Hw IH]; intros i Hi.
  - simpl in Hi. lia.
  - destruct i as [|i]; simpl in *.
    + inversion Hw; simplify_eq/=; done.
    + apply IH. lia.
Qed.

Lemma walk_head x l : walk x l → tb !! x = Some (l !!! 0).
Proof. by destruct 1. Qed.

Lemma walk_nonempty x l : walk x l → 0 < length l.
Proof. destruct 1; simpl; lia. Qed.

Lemma trace_loop_walk fuel d ptr acc :
  1 ≤ d ≤ fuel → back d ptr = Some s →
  ∃ l, trace_loop fuel tb s ptr acc = Ok (acc ++ l) ∧ walk ptr l.
Proof.
  revert d ptr acc. induction fuel as [|fuel IH]; intros d ptr acc Hd Hback; [lia|].
  destruct d as [|d]; [lia|]. simpl in *.
  destruct (tb !! ptr) as [p|] eqn:Hp; [|done].
  case_decide as Hps.
  - subst p. exists [s]. split; [done|]. by constructor.
  - destruct d as [|d]; [simpl in Hback; congruence|].
    destruct (IH (S d) p (acc ++ [p])) as (l & Hl & Hw); [lia|done|].
    exists (p :: l). split; [by rewrite Hl, <-app_assoc|by econstructor].
Qed.

Lemma back_S_r d x p : back d x = Some p → back (S d) x = tb !! p.
Proof.
  revert x; induction d as [|d IH]; intros x; simpl.
  - intros [= ->]. by destruct (tb !! p).
  - destruct (tb !! x) as [q|]; [|done]. apply IH.
Qed.
End walk.

Lemma back_weaken (tb tb' : gmap nat nat) d x y :
  tb ⊆ tb' → back tb d x = Some y → back tb' d x = Some y.
Proof.
  intros Hsub. revert x; induction d as [|d IH]; intros x; simpl; [done|].
  destruct (tb !! x) as [p|] eqn:Hp; [|done].
  rewrite (lookup_weaken _ _ _ _ Hp Hsub). apply IH.
Qed.

(** *** The breadth-first search of [check_loop] *)

Section bfs_theory.
Import Arbor.
Variable adj : list (list nat).
Variable n : nat.

(** [adj] is the child list of a parent map on [n] nodes in which no node is
    its own parent. *)
Hypothesis Hrange : ∀ p c, c ∈ adj !!! p → c < n ∧ p < n.
Hypothesis Hfun : ∀ p p' c, c ∈ adj !!! p → c ∈ adj !!! p' → p = p'.
Hypothesis Hnd : ∀ p, NoDup (adj !!! p).
Hypothesis Hirr : ∀ p, p ∉ adj !!! p.

(** [child p c]: [c] is a child of [p]. *)
Definition child (p c : nat) : Prop := c ∈ adj !!! p.

(** A cycle of the parent map, listed parent first: each node is the parent
    of the next one, and the last is the parent of the first. *)
Definition is_cycle (loop : list nat) : Prop :=
  NoDup loop ∧ 2 ≤ length loop ∧
  ∀ i, i < length loop →
       child (loop !!! i) (loop !!! ((i + 1) mod length loop)).

(** How many nodes are not marked yet. *)
Fixpoint unchecked (checked : list bool) : nat :=
  match checked with
  | [] => 0
  | b :: rest => (if b then 0 else 1) + unchecked rest
  end.

Lemma unchecked_replicate m : unchecked (replicate m false) = m.
Proof. induction m as [|m IH]; simpl; congruence. Qed.

Lemma unchecked_insert checked i :
  checked !! i = Some false → S (unchecked (<[i := true]> checked)) = unchecked checked.
Proof.
  revert i; induction checked as [|b checked IH]; intros i; [done|].
  destruct i as [|i]; simpl.
  - by intros [= ->].
  - intros Hi%IH. lia.
Qed.

(** Recording the children of [ptr] in [trace_back]. *)
Definition record (ptr : nat) (tb : gmap nat nat) (cs : list nat) : gmap nat nat :=
  foldl (λ tb child, <[child := ptr]> tb) tb cs.

Lemma record_cons ptr tb c cs :
  record ptr tb (c :: cs) = record ptr (<[c := ptr]> tb) cs.
Proof. reflexivity. Qed.

Lemma record_lookup ptr tb cs x :
  record ptr tb cs !! x = if decide (x ∈ cs) then Some ptr else tb !! x.
Proof.
  revert tb; induction cs as [|c cs IH]; intros tb.
  - case_decide as Hx; [by apply elem_of_nil in Hx|done].
  - rewrite record_cons, IH. destruct (decide (x ∈ cs)) as [Hin|Hin].
    + rewrite decide_True; [done|by right].
    + destruct (decide (x = c)) as [->|Hne].
      * rewrite decide_True by left. by rewrite lookup_insert_eq.
      * rewrite decide_False by (intros [?|?]%elem_of_cons; done).
        by rewrite lookup_insert_ne.
Qed.

Lemma record_subseteq ptr tb cs :
  (∀ c, c ∈ cs → tb !! c = None) → tb ⊆ record ptr tb cs.
Proof.
  intros Hfresh. apply map_subseteq_spec. intros x p Hx.
  rewrite record_lookup. destruct (decide (x ∈ cs)) as [Hin|]; [|done].
  apply Hfresh in Hin. congruence.
Qed.

Lemma record_size ptr tb cs :
  NoDup cs → (∀ c, c ∈ cs → tb !! c = None) →
  size (record ptr tb cs) = size tb + length cs.
Proof.
  revert tb; induction cs as [|c cs IH]; intros tb Hnd' Hfresh; [simpl; lia|].
  apply NoDup_cons in Hnd' as [Hc Hnd'].
  rewrite record_cons, IH; [|done|].
  - rewrite map_size_insert_None; [simpl; lia|]. apply Hfresh. by left.
  - intros c' Hc'. rewrite lookup_insert_ne by (by intros ->).
    apply Hfresh. by right.
Qed.

Section from.
Variable s : nat.
Hypothesis Hs : s < n.

(** The state of the search from [s] once [s] itself has been marked. *)
Record running (queue : list nat) (checked : list bool) (tb : gmap nat nat) : Prop := {
  run_length : length checked = n;
  run_start : checked !!! s = true;
  run_nodup : NoDup queue;
  run_queue : ∀ c, c ∈ queue →
      c < n ∧ is_Some (tb !! c) ∧ (checked !!! c = true → c = s);
  run_tb : ∀ c p, tb !! c = Some p →
      child p c ∧ checked !!! p = true ∧
      (c ∈ queue ∨ (checked !!! c = true ∧ c ≠ s));
  run_children : ∀ x c, checked !!! x = true → child x c → is_Some (tb !! c);
  run_depth : ∀ c, is_Some (tb !! c) →
      ∃ d, 1 ≤ d ≤ size tb ∧ back tb d c = Some s;
  run_checked : ∀ x, x < n → checked !!! x = true → x = s ∨ is_Some (tb !! x);
}.

Lemma fresh_children ptr queue checked tb c :
  running queue checked tb → checked !!! ptr = false →
  c ∈ adj !!! ptr → tb !! c = None.
Proof.
  intros Hrun Hptr Hc. destruct (tb !! c) as [p|] eqn:Hp; [|done].
  destruct (run_tb _ _ _ Hrun c p Hp) as (Hpc & Hchk & _).
  rewrite (Hfun _ _ _ Hpc Hc) in Hchk. congruence.
Qed.

Lemma insert_true_lookup (checked : list bool) ptr x :
  ptr < length checked →
  <[ptr := true]> checked !!! x = if decide (x = ptr) then true else checked !!! x.
Proof.
  intros Hptr. case_decide as Hx.
  - subst. by rewrite list_lookup_total_insert_eq.
  - by rewrite list_lookup_total_insert_ne.
Qed.

(** One turn of the [while] loop on a node that is not marked. *)
Lemma running_step ptr queue checked tb :
  running (ptr :: queue) checked tb → checked !!! ptr = false →
  running (queue ++ adj !!! ptr) (<[ptr := true]> checked)
          (record ptr tb (adj !!! ptr)).
Proof.
  intros Hrun Hptr.
  pose proof (run_length _ _ _ Hrun) as Hlen.
  pose proof (run_nodup _ _ _ Hrun) as [Hptrq Hndq]%NoDup_cons.
  destruct (run_queue _ _ _ Hrun ptr) as (Hptrn & Hptrtb & _); [by left|].
  assert (ptr ≠ s) as Hptrs.
  { intros ->. rewrite (run_start _ _ _ Hrun) in Hptr. done. }
  assert (∀ c, c ∈ adj !!! ptr → tb !! c = None) as Hfresh.
  { intros c. by eapply fresh_children. }
  pose proof (record_subseteq ptr tb _ Hfresh) as Hsub.
  assert (∀ x, <[ptr := true]> checked !!! x
               = if decide (x = ptr) then true else checked !!! x) as Hchk.
  { intros x. apply insert_true_lookup. lia. }
  split.
  - by rewrite length_insert.
  - rewrite Hchk, decide_False by done. apply Hrun.
  - apply NoDup_app. split; [done|]. split; [|apply Hnd].
    intros c Hcq Hc. apply Hfresh in Hc.
    destruct (run_queue _ _ _ Hrun c) as (_ & [? ?] & _); [by right|congruence].
  - intros c [Hc|Hc]%elem_of_app.
    + destruct (run_queue _ _ _ Hrun c) as (Hcn & [p Hp] & Hcs); [by right|].
      split; [done|]. split.
      * exists p. by eapply lookup_weaken.
      * rewrite Hchk, decide_False; [done|]. by intros ->.
    + destruct (Hrange _ _ Hc) as [Hcn _]. split; [done|]. split.
      * rewrite record_lookup, decide_True by done. by eexists.
      * rewrite Hchk. case_decide as Hcp; [subst; by apply Hirr in Hc|].
        intros Hcc. destruct (run_checked _ _ _ Hrun c Hcn Hcc) as [?|[? Hc']]; [done|].
        rewrite (Hfresh c Hc) in Hc'. done.
  - intros c p. rewrite record_lookup. case_decide as Hc.
    + intros [= <-]. split; [done|]. split.
      * by rewrite Hchk, decide_True.
      * left. apply elem_of_app. by right.
    + intros Hp. destruct (run_tb _ _ _ Hrun c p Hp) as (Hpc & Hpchk & Hcase).
      split; [done|]. split.
      * rewrite Hchk. by case_decide.
      * destruct Hcase as [[->|Hcq]%elem_of_cons|[Hcc Hcs]].
        -- right. by rewrite Hchk, decide_True.
        -- left. apply elem_of_app. by left.
        -- right. split; [|done]. rewrite Hchk. by case_decide.
  - intros x c. rewrite Hchk, record_lookup. case_decide as Hx.
    + subst x. intros _ Hc. unfold child in Hc. by rewrite decide_True.
    + intros Hxc Hc. case_decide; [by eexists|]. by eapply run_children.
  - intros c. rewrite record_lookup.
    assert (size tb ≤ size (record ptr tb (adj !!! ptr))) as Hsize.
    { rewrite record_size by (apply Hnd || done). lia. }
    case_decide as Hc.
    + intros _. destruct (run_depth _ _ _ Hrun ptr Hptrtb) as (d & Hd & Hback).
      exists (S d). split.
      * rewrite record_size by (apply Hnd || done).
        destruct (adj !!! ptr); [by apply elem_of_nil in Hc|]. simpl. lia.
      * simpl. rewrite record_lookup, decide_True by done.
        by eapply back_weaken.
    + intros Hctb. destruct (run_depth _ _ _ Hrun c Hctb) as (d & Hd & Hback).
      exists d. split; [lia|]. by eapply back_weaken.
  - intros x Hxn. rewrite Hchk, record_lookup. case_decide as Hx.
    + subst x. intros _. right. case_decide; [by eexists|done].
    + intros Hxc. destruct (run_checked _ _ _ Hrun x Hxn Hxc) as [?|?]; [by left|right].
      case_decide; [by eexists|done].
Qed.

(** The first turn of the loop, on [s] itself. *)
Lemma running_init :
  running (adj !!! s) (<[s := true]> (replicate n false)) (record s ∅ (adj !!! s)).
Proof.
  assert (∀ x, x < n → <[s := true]> (replicate n false) !!! x = true → x = s)
    as Hchk.
  { intros x Hx. rewrite insert_true_lookup by (by rewrite length_replicate).
    case_decide; [done|]. by rewrite lookup_total_replicate_2. }
  assert (size (record s ∅ (adj !!! s)) = length (adj !!! s)) as Hsize.
  { rewrite record_size; [by rewrite map_size_empty|apply Hnd|done]. }
  split.
  - by rewrite length_insert, length_replicate.
  - rewrite list_lookup_total_insert_eq; [done|]. by rewrite length_replicate.
  - apply Hnd.
  - intros c Hc. split; [by apply (Hrange s)|]. split.
    + rewrite record_lookup, decide_True by done. by eexists.
    + apply Hchk. by apply (Hrange s).
  - intros c p. rewrite record_lookup. case_decide as Hc; [|done].
    intros [= <-]. split; [done|]. split; [|by left].
    rewrite list_lookup_total_insert_eq; [done|]. by rewrite length_replicate.
  - intros x c Hx Hc. apply Hchk in Hx as ->; [|by apply (Hrange x c)].
    rewrite record_lookup, decide_True by done. by eexists.
  - intros c. rewrite record_lookup. case_decide as Hc; [|by intros [? ?]].
    intros _. exists 1. split.
    + rewrite Hsize. destruct (adj !!! s); [by apply elem_of_nil in Hc|]. simpl. lia.
    + simpl. by rewrite record_lookup, decide_True.
  - intros x Hx ->%Hchk; [by left|done].
Qed.

Lemma reverse_lookup_total (l : list nat) i :
  i < length l → reverse l !!! i = l !!! (length l - S i).
Proof.
  intros Hi. apply list_lookup_total_correct.
  rewrite reverse_lookup by done. apply list_lookup_lookup_total_lt. lia.
Qed.

(** Popping [s] when it is marked: [get_loop] finds the cycle through [s]. *)
Lemma get_loop_found queue checked tb :
  running (s :: queue) checked tb →
  ∃ loop, get_loop tb n s = Ok (loop, filter (λ i, i ∉ loop) (seq 0 n)) ∧
          is_cycle loop.
Proof.
  intros Hrun.
  destruct (run_queue _ _ _ Hrun s) as (_ & Hstb & _); [by left|].
  destruct (run_depth _ _ _ Hrun s Hstb) as (d & Hd & Hback).
  destruct (trace_loop_walk tb s (S (size tb)) d s []) as (l & Hl & Hw);
    [lia|done|].
  exists (reverse l). unfold get_loop. rewrite Hl. simpl. split.
  { do 2 f_equal. apply list_filter_iff. intros x. by rewrite elem_of_reverse. }
  pose proof (walk_nonempty _ _ _ _ Hw) as Hlen.
  pose proof (walk_last _ _ _ _ Hw) as Hlast.
  rewrite last_lookup in Hlast.
  assert (l !!! (length l - 1) = s) as Hlast'.
  { apply list_lookup_total_correct. rewrite <-Hlast. f_equal. lia. }
  assert (∀ c p, tb !! c = Some p → child p c) as Htb.
  { intros c p Hcp. by destruct (run_tb _ _ _ Hrun c p Hcp). }
  split; [|split].
  - rewrite reverse_Permutation. by eapply walk_NoDup.
  - rewrite length_reverse.
    destruct (decide (length l = 1)) as [Hone|]; [|lia].
    exfalso. apply (Hirr s). apply Htb.
    rewrite (walk_head _ _ _ _ Hw). f_equal.
    rewrite Hone in Hlast'. done.
  - rewrite length_reverse. intros i Hi.
    rewrite reverse_lookup_total by done.
    destruct (decide (S i < length l)) as [Hi'|Hi'].
    + rewrite Nat.mod_small by lia.
      rewrite reverse_lookup_total by lia.
      apply Htb. replace (length l - S i) with (S (length l - S (i + 1))) by lia.
      apply (walk_chain _ _ _ _ _ Hw). lia.
    + replace (i + 1) with (length l) by lia.
      rewrite Nat.Div0.mod_same.
      rewrite reverse_lookup_total by lia.
      replace (length l - S i) with 0 by lia.
      replace (length l - 1) with (length l - 1) in Hlast' by done.
      rewrite Hlast'. apply Htb. by eapply walk_head.
Qed.

(** When the queue runs dry, [s] is on no cycle. *)
Lemma running_exhausted checked tb :
  running [] checked tb → ¬ tc child s s.
Proof.
  intros Hrun Hcycle.
  assert (∀ x y, tc child x y → checked !!! x = true →
                 checked !!! y = true ∧ y ≠ s) as Hclosed.
  { intros x y Hxy. induction Hxy as [x y Hxy|x y z Hxy _ IH]; intros Hx.
    - destruct (run_children _ _ _ Hrun x y Hx Hxy) as [p Hp].
      destruct (run_tb _ _ _ Hrun y p Hp) as (_ & _ & [Hq|?]); [|done].
      by apply elem_of_nil in Hq.
    - apply IH.
      destruct (run_children _ _ _ Hrun x y Hx Hxy) as [p Hp].
      destruct (run_tb _ _ _ Hrun y p Hp) as (_ & _ & [Hq|[? _]]); [|done].
      by apply elem_of_nil in Hq. }
  destruct (Hclosed s s Hcycle (run_start _ _ _ Hrun)) as [_ ?]. done.
Qed.

Lemma bfs_running fuel queue checked tb :
  running queue checked tb → unchecked checked < fuel →
  (∃ loop, bfs fuel adj n queue checked tb
             = Ok (Found loop (filter (λ i, i ∉ loop) (seq 0 n))) ∧
           is_cycle loop) ∨
  (bfs fuel adj n queue checked tb = Ok Exhausted ∧ ¬ tc child s s).
Proof.
  revert queue checked tb. induction fuel as [|fuel IH];
    intros queue checked tb Hrun Hfuel; [lia|].
  destruct queue as [|ptr queue]; simpl.
  { right. split; [done|]. by eapply running_exhausted. }
  destruct (checked !!! ptr) eqn:Hptr.
  - destruct (run_queue _ _ _ Hrun ptr) as (_ & _ & Hps); [by left|].
    rewrite (Hps Hptr) in Hrun |- *.
    destruct (get_loop_found _ _ _ Hrun) as (loop & -> & Hloop).
    left. exists loop. simpl. split; [|done].
    rewrite decide_False; [done|]. destruct Hloop as (_ & ? & _). lia.
  - apply IH.
    + by apply running_step.
    + destruct (run_queue _ _ _ Hrun ptr) as (Hptrn & _); [by left|].
      assert (checked !! ptr = Some false) as Hlook.
      { rewrite <-Hptr. apply list_lookup_lookup_total_lt.
        rewrite (run_length _ _ _ Hrun). done. }
      pose proof (unchecked_insert checked ptr Hlook) as Hu. lia.
Qed.

(** The search from [s], as [check_loop] starts it. *)
Lemma bfs_from_start :
  (∃ loop, bfs (S n) adj n [s] (replicate n false) ∅
             = Ok (Found loop (filter (λ i, i ∉ loop) (seq 0 n))) ∧
           is_cycle loop) ∨
  (bfs (S n) adj n [s] (replicate n false) ∅ = Ok Exhausted ∧ ¬ tc child s s).
Proof.
  cbn [bfs]. rewrite lookup_total_replicate_2 by done. simpl.
  apply bfs_running; [apply running_init|].
  pose proof (unchecked_insert (replicate n false) s
                (lookup_replicate_2 _ _ _ Hs)) as Hu.
  rewrite unchecked_replicate in Hu. lia.
Qed.
End from.

Lemma check_loop_from_spec nodes :
  (∀ s, s ∈ nodes → s < n) →
  ∃ loop v_outside,
    check_loop_from adj n nodes = Ok (loop, v_outside) ∧
    ((loop = [] ∧ ∀ s, s ∈ nodes → ¬ tc child s s) ∨
     (is_cycle loop ∧ v_outside = filter (λ i, i ∉ loop) (seq 0 n))).
Proof.
  induction nodes as [|s nodes IH]; intros Hnodes; cbn [check_loop_from].
  - eexists _, _. split; [done|]. left. split; [done|].
    by intros s ?%elem_of_nil.
  - destruct (bfs_from_start s) as [(loop & -> & Hloop)|[-> Hs]].
    + apply Hnodes. by left.
    + cbn [rbind]. eexists _, _. split; [done|]. by right.
    + cbn [rbind]. destruct IH as (loop & v & -> & Hcase).
      { intros s' Hs'. apply Hnodes. by right. }
      eexists _, _. split; [done|].
      destruct Hcase as [[-> Hall]|?]; [left|by right].
      split; [done|]. intros s' [->|?]%elem_of_cons; auto.
Qed.

(** [check_loop] returns a cycle of the parent map when there is one, and
    the empty loop when there is none. *)
Lemma check_loop_spec :
  ∃ loop v_outside,
    check_loop adj n = Ok (loop, v_outside) ∧
    ((loop = [] ∧ ∀ s, s < n → ¬ tc child s s) ∨
     (is_cycle loop ∧ v_outside = filter (λ i, i ∉ loop) (seq 0 n))).
Proof.
  destruct (check_loop_from_spec (seq 0 n)) as (loop & v & Hc & Hcase).
  { intros s Hs%elem_of_seq. lia. }
  exists loop, v. split; [done|].
  destruct Hcase as [[-> Hall]|?]; [left|by right].
  split; [done|]. intros s Hs. apply Hall, elem_of_seq. lia.
Qed.
End bfs_theory.

(** *** Contracting a cycle ([merge_nodes]) *)

Lemma foldl_invariant_in {A B} (f : A → B → A) (I : A → Prop) (l : list B) a :
  (∀ a b, b ∈ l → I a → I (f a b)) → I a → I (foldl f a l).
Proof.
  revert a; induction l as [|b l IH]; intros a Hstep Ha; simpl; [done|].
  apply IH.
  - intros a' b' Hb'. apply Hstep. by right.
  - apply Hstep; [by left|done].
Qed.

Lemma foldl_establish {A B} (f : A → B → A) (D : A → Prop) (l : list B) b a :
  (∀ a b', D a → D (f a b')) → b ∈ l → (∀ a, D (f a b)) → D (foldl f a l).
Proof.
  intros Hkeep (l1 & l2 & ->)%list_elem_of_split Hb.
  rewrite foldl_app. simpl.
  apply foldl_invariant_in; [by intros; apply Hkeep|apply Hb].
Qed.

Section v_map_facts.
Import Arbor.
Variable n : nat.
Variable loop : list nat.
Hypothesis Hloop_nodup : NoDup loop.
Hypothesis Hloop_range : ∀ x, x ∈ loop → x < n.

(** The nodes outside the loop, and the position of a node among them. *)
Definition outside : list nat := filter (λ i, i ∉ loop) (seq 0 n).
Definition rank (x : nat) : nat := length (filter (λ i, i ∉ loop) (seq 0 x)).

Lemma rank_S x : rank (S x) = if decide (x ∉ loop) then S (rank x) else rank x.
Proof.
  unfold rank. rewrite seq_S, filter_app, length_app. simpl.
  rewrite filter_cons, filter_nil. case_decide; simpl; lia.
Qed.

Lemma outside_lookup_rank x : x < n → x ∉ loop → outside !! rank x = Some x.
Proof.
  intros Hx Hout. unfold outside, rank.
  replace n with (x + S (n - S x)) by lia.
  rewrite seq_app, filter_app. simpl.
  rewrite filter_cons_True by done.
  by rewrite lookup_app_r, Nat.sub_diag.
Qed.

Lemma NoDup_outside : NoDup outside.
Proof. apply NoDup_filter, NoDup_seq. Qed.

Lemma elem_of_outside x : x ∈ outside ↔ x < n ∧ x ∉ loop.
Proof.
  unfold outside. rewrite list_elem_of_filter, elem_of_seq.
  split; [intros [? ?]|intros [? ?]]; split; auto; lia.
Qed.

Lemma rank_outside_lookup k x : outside !! k = Some x → rank x = k.
Proof.
  intros Hk.
  assert (x ∈ outside) as [Hx Hout]%elem_of_outside by by eapply list_elem_of_lookup_2.
  pose proof (outside_lookup_rank x Hx Hout) as Hr.
  by apply (NoDup_lookup outside (rank x) k x NoDup_outside).
Qed.

Lemma rank_lt x : x < n → x ∉ loop → rank x < length outside.
Proof. intros Hx Hout. eapply lookup_lt_Some. by apply outside_lookup_rank. Qed.

Lemma rank_n : rank n = length outside.
Proof. reflexivity. Qed.

Lemma outside_total_rank x : x < n → x ∉ loop → outside !!! rank x = x.
Proof. intros. by apply list_lookup_total_correct, outside_lookup_rank. Qed.

Lemma rank_outside_total k : k < length outside → rank (outside !!! k) = k.
Proof. intros Hk. by apply rank_outside_lookup, list_lookup_lookup_total_lt. Qed.

Lemma outside_total_elem k : k < length outside → outside !!! k ∈ outside.
Proof. intros. by apply list_elem_of_lookup_total_2. Qed.

Lemma length_outside : length outside + length loop = n.
Proof.
  unfold outside.
  pose proof (filter_app_complement (λ i, i ∉ loop) (seq 0 n)) as Hperm.
  apply Permutation_length in Hperm. rewrite length_app, length_seq in Hperm.
  assert (filter (λ x : nat, ¬ (x ∉ loop)) (seq 0 n) ≡ₚ loop) as Hin.
  { apply NoDup_Permutation; [apply NoDup_filter, NoDup_seq|done|].
    intros x. rewrite list_elem_of_filter, elem_of_seq. split.
    - intros [Hx _]. by apply dec_stable.
    - intros Hx. split; [by intros ?|]. apply Hloop_range in Hx. lia. }
  apply Permutation_length in Hin. lia.
Qed.

(** [v_map] numbers the outside nodes in ascending order and sends every
    node of the loop to the next free number. *)
Lemma build_v_map_first t :
  let st := foldl (λ (st : gmap nat nat * nat) i,
                     if decide (i ∈ loop) then st
                     else (<[i := st.2]> st.1, S st.2))
                  (∅, 0) (seq 0 t) in
  st.2 = rank t ∧
  ∀ x, st.1 !! x = if decide (x < t ∧ x ∉ loop) then Some (rank x) else None.
Proof.
  induction t as [|t [IH2 IH1]].
  - split; [done|]. intros x. cbn [foldl seq fst]. rewrite lookup_empty.
    case_decide; [lia|done].
  - rewrite seq_S, foldl_snoc. cbn zeta in *. cbn [Nat.add].
    set (st := foldl _ _ (seq 0 t)) in *. case_decide as Ht.
    + rewrite rank_S, decide_False by (by intros ?). split; [done|].
      intros x. rewrite IH1.
      destruct (decide (x < t ∧ x ∉ loop)) as [[? ?]|Hn1],
               (decide (x < S t ∧ x ∉ loop)) as [[? ?]|Hn2]; try done.
      * destruct Hn2. split; [lia|done].
      * destruct (decide (x = t)) as [->|]; [done|]. destruct Hn1. split; [lia|done].
    + rewrite rank_S, decide_True by done. cbn [fst snd]. split; [by rewrite IH2|].
      intros x. rewrite lookup_insert. case_decide as Hx.
      * subst x. rewrite decide_True by (split; [lia|done]). by rewrite IH2.
      * rewrite IH1.
        destruct (decide (x < t ∧ x ∉ loop)) as [[? ?]|Hn1],
                 (decide (x < S t ∧ x ∉ loop)) as [[? ?]|Hn2]; try done.
        -- destruct Hn2. split; [lia|done].
        -- destruct Hn1. split; [lia|done].
Qed.

Lemma build_v_map_lookup x :
  build_v_map n loop !! x =
    if decide (x ∈ loop) then Some (length outside)
    else if decide (x < n) then Some (rank x) else None.
Proof.
  unfold build_v_map.
  destruct (build_v_map_first n) as [H2 H1]. cbv zeta in H1, H2.
  set (st := foldl _ _ _) in *.
  change (foldl (λ vm i, <[i := st.2]> vm) st.1 loop) with (record st.2 st.1 loop).
  rewrite record_lookup, H2, rank_n. case_decide as Hx; [done|].
  rewrite H1. repeat case_decide; try done; tauto.
Qed.

Lemma build_v_map_outside x :
  x < n → x ∉ loop → build_v_map n loop !!! x = rank x.
Proof.
  intros Hx Hout. rewrite lookup_total_alt, build_v_map_lookup.
  by rewrite decide_False, decide_True.
Qed.

Lemma build_v_map_loop x :
  x ∈ loop → build_v_map n loop !!! x = length outside.
Proof.
  intros Hx. rewrite lookup_total_alt, build_v_map_lookup.
  by rewrite decide_True.
Qed.
End v_map_facts.

Section edges_facts.
Import Arbor.
Variable graph : list (list weight).
Variable parents : list nat.
Variable loop v_outside : list nat.

(** Every node of the loop has a best parent at finite weight. *)
Hypothesis Hparent : ∀ x, x ∈ loop → isinf (mget graph x (parents !!! x)) = false.

Local Abbreviation merge_edge := (merge_edge graph parents).

(** What the four dictionaries hold at any point of the double loop. *)
Record edges_sound (e : loop_edges) : Prop := {
  es_to : ∀ y x, v_to_loop e !! y = Some x →
      x ∈ loop ∧ y ∈ v_outside ∧ isinf (mget graph x y) = false;
  es_to_weight : ∀ y, is_Some (v_to_loop e !! y) →
      ∃ z, weight_to_loop e !! y = Some (Finite z);
  es_from : ∀ y x, loop_to_v e !! y = Some x →
      x ∈ loop ∧ y ∈ v_outside ∧ isinf (mget graph y x) = false;
  es_from_weight : ∀ y, is_Some (loop_to_v e !! y) →
      ∃ z, weight_from_loop e !! y = Some (Finite z);
}.

Lemma isinf_false w : isinf w = false → ∃ z, w = Finite z.
Proof. destruct w; [done|by eexists]. Qed.

Lemma merge_edge_sound x y e :
  x ∈ loop → y ∈ v_outside → edges_sound e → edges_sound (merge_edge x y e).
Proof.
  intros Hx Hy He. unfold Arbor.merge_edge.
  match goal with
  | |- edges_sound (if _ then ?t else _) =>
      cut (edges_sound t); [generalize t; intros e1 He1|]
  end.
  - destruct (isinf (mget graph y x)) eqn:Hyx; [done|].
    destruct (isinf_false _ Hyx) as [a Ha]. rewrite Ha.
    assert (edges_sound
              {| v_to_loop := v_to_loop e1; weight_to_loop := weight_to_loop e1;
                 loop_to_v := <[y := x]> (loop_to_v e1);
                 weight_from_loop := <[y := Finite a]> (weight_from_loop e1) |})
      as Hnew.
    { split; cbn [v_to_loop weight_to_loop loop_to_v weight_from_loop].
      - apply He1.
      - apply He1.
      - intros y' x'. rewrite lookup_insert. case_decide as Hyy.
        + intros [= <-]. subst y'. by rewrite Hyx.
        + apply He1.
      - intros y'. rewrite !lookup_insert. case_decide as Hyy; [by eauto|].
        apply He1. }
    case_decide; [done|]. destruct (wgt _ _); [exact Hnew|exact He1].
  - destruct (isinf (mget graph x y)) eqn:Hxy; [done|].
    destruct (isinf_false _ Hxy) as [a Ha].
    destruct (isinf_false _ (Hparent x Hx)) as [b Hb].
    rewrite Ha, Hb. cbn [wsub].
    assert (edges_sound
              {| v_to_loop := <[y := x]> (v_to_loop e);
                 weight_to_loop := <[y := Finite (a - b)]> (weight_to_loop e);
                 loop_to_v := loop_to_v e;
                 weight_from_loop := weight_from_loop e |}) as Hnew.
    { split; cbn [v_to_loop weight_to_loop loop_to_v weight_from_loop].
      - intros y' x'. rewrite lookup_insert. case_decide as Hyy.
        + intros [= <-]. subst y'. by rewrite Hxy.
        + apply He.
      - intros y'. rewrite !lookup_insert. case_decide as Hyy; [by eauto|].
        apply He.
      - apply He.
      - apply He. }
    case_decide; [done|]. destruct (wgt _ _); [exact Hnew|exact He].
Qed.

Lemma no_edges_sound : edges_sound no_edges.
Proof. split; simpl; intros *; rewrite ?lookup_empty; by intros ?; try by intros [? ?]. Qed.

Lemma build_edges_sound : edges_sound (build_edges graph parents loop v_outside).
Proof.
  unfold build_edges.
  apply foldl_invariant_in; [|apply no_edges_sound].
  intros e x Hx He. apply foldl_invariant_in; [|done].
  intros e' y Hy He'. by apply merge_edge_sound.
Qed.

(** The dictionaries only grow. *)
Lemma merge_edge_keeps_to x y e y0 :
  is_Some (v_to_loop e !! y0) → is_Some (v_to_loop (merge_edge x y e) !! y0).
Proof.
  intros Hy0. unfold Arbor.merge_edge.
  repeat (case_decide || destruct (isinf _) || destruct (wgt _ _));
    cbn [v_to_loop]; rewrite ?lookup_insert; repeat case_decide; eauto.
Qed.

Lemma merge_edge_keeps_from x y e y0 :
  is_Some (loop_to_v e !! y0) → is_Some (loop_to_v (merge_edge x y e) !! y0).
Proof.
  intros Hy0. unfold Arbor.merge_edge.
  repeat (case_decide || destruct (isinf _) || destruct (wgt _ _));
    cbn [loop_to_v]; rewrite ?lookup_insert; repeat case_decide; eauto.
Qed.

Lemma merge_edge_adds_to x y e :
  isinf (mget graph x y) = false → is_Some (v_to_loop (merge_edge x y e) !! y).
Proof.
  intros Hxy. unfold Arbor.merge_edge. rewrite Hxy.
  repeat (case_decide || destruct (isinf _) || destruct (wgt _ _));
    cbn [v_to_loop]; rewrite ?lookup_insert_eq; eauto;
    by apply not_eq_None_Some.
Qed.

Lemma merge_edge_adds_from x y e :
  isinf (mget graph y x) = false → is_Some (loop_to_v (merge_edge x y e) !! y).
Proof.
  intros Hyx. unfold Arbor.merge_edge. rewrite Hyx.
  repeat (case_decide || destruct (isinf _) || destruct (wgt _ _));
    cbn [loop_to_v]; rewrite ?lookup_insert_eq; eauto;
    by apply not_eq_None_Some.
Qed.

(** Every edge between the loop and the outside is recorded. *)
Lemma build_edges_to x y :
  x ∈ loop → y ∈ v_outside → isinf (mget graph x y) = false →
  is_Some (v_to_loop (build_edges graph parents loop v_outside) !! y).
Proof.
  intros Hx Hy Hxy. unfold build_edges.
  apply (foldl_establish _ (λ e, is_Some (v_to_loop e !! y)) loop x); [|done|].
  - intros e x' He. apply foldl_invariant_in; [|done].
    intros e' y' _. apply merge_edge_keeps_to.
  - intros e. apply (foldl_establish _ (λ e, is_Some (v_to_loop e !! y)) v_outside y);
      [|done|].
    + intros e' y'. apply merge_edge_keeps_to.
    + intros e'. by apply merge_edge_adds_to.
Qed.

Lemma build_edges_from x y :
  x ∈ loop → y ∈ v_outside → isinf (mget graph y x) = false →
  is_Some (loop_to_v (build_edges graph parents loop v_outside) !! y).
Proof.
  intros Hx Hy Hyx. unfold build_edges.
  apply (foldl_establish _ (λ e, is_Some (loop_to_v e !! y)) loop x); [|done|].
  - intros e x' He. apply foldl_invariant_in; [|done].
    intros e' y' _. apply merge_edge_keeps_from.
  - intros e. apply (foldl_establish _ (λ e, is_Some (loop_to_v e !! y)) v_outside y);
      [|done|].
    + intros e' y'. apply merge_edge_keeps_from.
    + intros e'. by apply merge_edge_adds_from.
Qed.
End edges_facts.

Lemma has_edge_range graph n u v :
  Arbor.square n graph → Arbor.has_edge graph u v → u < n ∧ v < n.
Proof.
  unfold Arbor.has_edge. intros Hsq He.
  destruct (decide (u < n)), (decide (v < n)); try done;
    rewrite (mget_out_of_range n) in He by (done || lia); done.
Qed.

Lemma bind_ext_in {A B} (f g : A → list B) (l : list A) :
  (∀ x, x ∈ l → f x = g x) → l ≫= f = l ≫= g.
Proof.
  induction l as [|a l IH]; intros Hfg; [done|].
  rewrite !bind_cons, Hfg by left. f_equal. apply IH.
  intros x Hx. apply Hfg. by right.
Qed.

Section merged_graph.
Import Arbor.
Variable graph : list (list weight).
Variable parents : list nat.
Variable n : nat.
Variable loop : list nat.
Hypothesis Hloop_nodup : NoDup loop.
Hypothesis Hloop_range : ∀ x, x ∈ loop → x < n.
Hypothesis Hloop_nonempty : 0 < length loop.
Hypothesis Hparent : ∀ x, x ∈ loop → isinf (mget graph x (parents !!! x)) = false.

Local Abbreviation O := (outside n loop).
Local Abbreviation mO := (length (outside n loop)).
Local Abbreviation m := (merge_nodes graph parents n loop (outside n loop)).
Local Abbreviation e := (build_edges graph parents loop (outside n loop)).

Lemma v_map_outside x : x ∈ O → v_map m !!! x = rank loop x.
Proof. intros [? ?]%elem_of_outside. by apply build_v_map_outside. Qed.

Lemma v_map_loop x : x ∈ loop → v_map m !!! x = mO.
Proof. intros ?. by apply build_v_map_loop. Qed.

Lemma v_map_root r : r < n → r ∉ loop → v_map m !!! r < mO.
Proof.
  intros Hr Hout. rewrite v_map_outside by (by apply elem_of_outside).
  by apply rank_lt.
Qed.

Lemma loop_head : loop !!! 0 ∈ loop.
Proof. by apply list_elem_of_lookup_total_2. Qed.

Lemma n_new_eq : n - length loop + 1 = S mO.
Proof. pose proof (length_outside n loop Hloop_nodup Hloop_range). lia. Qed.

(** The writes that build [graph_new], in terms of ranks. *)
Definition inner_writes : list (nat * nat * weight) :=
  x ← O; y ← O; [(rank loop x, rank loop y, mget graph x y)].

Definition border_writes : list (nat * nat * weight) :=
  x ← O;
  (if decide (is_Some (v_to_loop e !! x))
   then [(mO, rank loop x, weight_to_loop e !!! x)] else [])
  ++ (if decide (is_Some (loop_to_v e !! x))
      then [(rank loop x, mO, weight_from_loop e !!! x)] else []).

Lemma graph_new_writes :
  graph_new m =
    apply_writes border_writes
      (apply_writes inner_writes (replicate (S mO) (replicate (S mO) NegInf))).
Proof.
  unfold merge_nodes. cbn [graph_new]. rewrite n_new_eq.
  fold (build_v_map n loop).
  change (build_v_map n loop) with (v_map m).
  rewrite (v_map_loop _ loop_head).
  f_equal.
  - apply bind_ext_in. intros x Hx. by rewrite (v_map_outside x Hx).
  - f_equal. apply bind_ext_in. intros x Hx. rewrite (v_map_outside x Hx).
    apply bind_ext_in. intros y Hy. by rewrite (v_map_outside y Hy).
Qed.

Lemma elem_of_inner_writes w :
  w ∈ inner_writes ↔
  ∃ x y, x ∈ O ∧ y ∈ O ∧ w = (rank loop x, rank loop y, mget graph x y).
Proof.
  unfold inner_writes. rewrite list_elem_of_bind. split.
  - intros (x & (y & Hw%list_elem_of_singleton & Hy)%list_elem_of_bind & Hx). eauto.
  - intros (x & y & Hx & Hy & ->). exists x. split; [|done].
    apply list_elem_of_bind. exists y. split; [|done]. by apply list_elem_of_singleton.
Qed.

Lemma elem_of_border_writes w :
  w ∈ border_writes ↔
  ∃ x, x ∈ O ∧
    ((is_Some (v_to_loop e !! x) ∧ w = (mO, rank loop x, weight_to_loop e !!! x)) ∨
     (is_Some (loop_to_v e !! x) ∧ w = (rank loop x, mO, weight_from_loop e !!! x))).
Proof.
  unfold border_writes. rewrite list_elem_of_bind. split.
  - intros (x & Hw & Hx). exists x. split; [done|].
    apply elem_of_app in Hw as [Hw|Hw]; case_decide;
      try (by apply elem_of_nil in Hw);
      apply list_elem_of_singleton in Hw; auto.
  - intros (x & Hx & Hcase). exists x. split; [|done].
    apply elem_of_app. destruct Hcase as [[? ->]|[? ->]]; [left|right];
      rewrite decide_True by done; by apply list_elem_of_singleton.
Qed.

Lemma square_graph_new : square (S mO) (graph_new m).
Proof.
  rewrite graph_new_writes. do 2 apply square_apply_writes. apply square_replicate.
Qed.

Lemma graph_new_inner a b :
  a < mO → b < mO → mget (graph_new m) a b = mget graph (O !!! a) (O !!! b).
Proof.
  intros Ha Hb. rewrite graph_new_writes.
  rewrite mget_apply_writes_other.
  - apply mget_apply_writes_same.
    + rewrite length_replicate. lia.
    + rewrite lookup_total_replicate_2, length_replicate by lia. lia.
    + exists (a, b, mget graph (O !!! a) (O !!! b)). split; [|done].
      apply elem_of_inner_writes. exists (O !!! a), (O !!! b).
      split; [by apply outside_total_elem|]. split; [by apply outside_total_elem|].
      by rewrite !rank_outside_total.
    + intros w (x & y & [Hx Hxo]%elem_of_outside & [Hy Hyo]%elem_of_outside & ->)%elem_of_inner_writes.
      simpl. intros [= <- <-]. by rewrite !outside_total_rank.
  - intros w (x & Hx & [[_ ->]|[_ ->]])%elem_of_border_writes; simpl;
      intros [= ? ?]; lia.
Qed.

Lemma graph_new_into a :
  a < mO →
  mget (graph_new m) mO a =
    if decide (is_Some (v_to_loop e !! (O !!! a)))
    then weight_to_loop e !!! (O !!! a) else NegInf.
Proof.
  intros Ha. rewrite graph_new_writes. case_decide as Hdom.
  - apply mget_apply_writes_same.
    + rewrite apply_writes_length, length_replicate. lia.
    + rewrite apply_writes_row_length, lookup_total_replicate_2, length_replicate by lia.
      lia.
    + eexists. split.
      * apply elem_of_border_writes. exists (O !!! a).
        split; [by apply outside_total_elem|]. left. split; [done|]. reflexivity.
      * simpl. by rewrite rank_outside_total.
    + intros w (x & [Hx Hxo]%elem_of_outside & [[_ ->]|[_ ->]])%elem_of_border_writes; simpl.
      * intros [= <-]. by rewrite outside_total_rank.
      * intros [= Hr ?]. pose proof (rank_lt n loop x Hx Hxo). lia.
  - rewrite !mget_apply_writes_other.
    + apply mget_replicate; lia.
    + intros w (x & y & [Hx Hxo]%elem_of_outside & _ & ->)%elem_of_inner_writes. simpl.
      intros [= Hr _]. pose proof (rank_lt n loop x Hx Hxo). lia.
    + intros w (x & [Hx Hxo]%elem_of_outside & [[Hd ->]|[_ ->]])%elem_of_border_writes; simpl.
      * intros [= <-]. by rewrite outside_total_rank in Hdom.
      * intros [= Hr ?]. pose proof (rank_lt n loop x Hx Hxo). lia.
Qed.

Lemma graph_new_out a :
  a < mO →
  mget (graph_new m) a mO =
    if decide (is_Some (loop_to_v e !! (O !!! a)))
    then weight_from_loop e !!! (O !!! a) else NegInf.
Proof.
  intros Ha. rewrite graph_new_writes. case_decide as Hdom.
  - apply mget_apply_writes_same.
    + rewrite apply_writes_length, length_replicate. lia.
    + rewrite apply_writes_row_length, lookup_total_replicate_2, length_replicate by lia.
      lia.
    + eexists. split.
      * apply elem_of_border_writes. exists (O !!! a).
        split; [by apply outside_total_elem|]. right. split; [done|]. reflexivity.
      * simpl. by rewrite rank_outside_total.
    + intros w (x & [Hx Hxo]%elem_of_outside & [[_ ->]|[_ ->]])%elem_of_border_writes; simpl.
      * intros [= ? Hr]. pose proof (rank_lt n loop x Hx Hxo). lia.
      * intros [= <-]. by rewrite outside_total_rank.
  - rewrite !mget_apply_writes_other.
    + apply mget_replicate; lia.
    + intros w (x & y & _ & [Hy Hyo]%elem_of_outside & ->)%elem_of_inner_writes. simpl.
      intros [= _ Hr]. pose proof (rank_lt n loop y Hy Hyo). lia.
    + intros w (x & [Hx Hxo]%elem_of_outside & [[_ ->]|[Hd ->]])%elem_of_border_writes; simpl.
      * intros [= ? Hr]. pose proof (rank_lt n loop x Hx Hxo). lia.
      * intros [= <-]. by rewrite outside_total_rank in Hdom.
Qed.

Lemma graph_new_vc : mget (graph_new m) mO mO = NegInf.
Proof.
  rewrite graph_new_writes, !mget_apply_writes_other.
  - apply mget_replicate; lia.
  - intros w (x & y & [Hx Hxo]%elem_of_outside & _ & ->)%elem_of_inner_writes. simpl.
    intros [= Hr _]. pose proof (rank_lt n loop x Hx Hxo). lia.
  - intros w (x & [Hx Hxo]%elem_of_outside & [[_ ->]|[_ ->]])%elem_of_border_writes; simpl;
      intros [= ?]; pose proof (rank_lt n loop x Hx Hxo); lia.
Qed.

(** *** Edges of the merged graph *)

Hypothesis Hsquare : square n graph.


Lemma vm_cases x :
  x < n →
  (x ∈ loop ∧ (v_map m !!! x) = mO) ∨
  ((x ∉ loop) ∧ x ∈ O ∧ (v_map m !!! x) = rank loop x ∧ rank loop x < mO).
Proof.
  intros Hx. destruct (decide (x ∈ loop)) as [Hin|Hout].
  - left. split; [done|]. by apply v_map_loop.
  - right. assert (x ∈ O) by (by apply elem_of_outside).
    split_and!; [done..| |by apply rank_lt].
    by apply v_map_outside.
Qed.

Lemma weight_to_loop_finite y :
  is_Some (v_to_loop e !! y) → isinf (weight_to_loop e !!! y) = false.
Proof.
  intros Hy. destruct (es_to_weight _ _ _ _ (build_edges_sound graph parents loop O Hparent) y Hy)
    as [z Hz].
  by rewrite (lookup_total_correct _ _ _ Hz).
Qed.

Lemma weight_from_loop_finite y :
  is_Some (loop_to_v e !! y) → isinf (weight_from_loop e !!! y) = false.
Proof.
  intros Hy. destruct (es_from_weight _ _ _ _ (build_edges_sound graph parents loop O Hparent) y Hy)
    as [z Hz].
  by rewrite (lookup_total_correct _ _ _ Hz).
Qed.

Lemma merged_edge u v :
  has_edge graph u v → (v_map m !!! u) = (v_map m !!! v) ∨ has_edge (graph_new m) (v_map m !!! u) (v_map m !!! v).
Proof.
  intros He. destruct (has_edge_range _ _ _ _ Hsquare He) as [Hu Hv].
  destruct (vm_cases u Hu) as [[Hul ->]|(Hul & HuO & -> & Hur)],
           (vm_cases v Hv) as [[Hvl ->]|(Hvl & HvO & -> & Hvr)].
  - by left.
  - right. unfold has_edge. rewrite graph_new_out by done.
    rewrite outside_total_rank by done.
    assert (is_Some (loop_to_v e !! v)) as Hs
      by (by apply (build_edges_from graph parents loop O u v)).
    rewrite decide_True by done. by apply weight_from_loop_finite.
  - right. unfold has_edge. rewrite graph_new_into by done.
    rewrite outside_total_rank by done.
    assert (is_Some (v_to_loop e !! u)) as Hs
      by (by apply (build_edges_to graph parents loop O v u)).
    rewrite decide_True by done. by apply weight_to_loop_finite.
  - right. unfold has_edge. rewrite graph_new_inner by done.
    by rewrite !outside_total_rank.
Qed.

Lemma merged_reachable r v :
  reachable graph r v → reachable (graph_new m) (v_map m !!! r) (v_map m !!! v).
Proof.
  unfold reachable. induction 1 as [|x y z Hxy _ IH]; [done|].
  destruct (merged_edge _ _ Hxy) as [->|He]; [done|].
  by eapply rtc_l.
Qed.

Lemma merged_onto a : a < S mO → ∃ x, x < n ∧ (v_map m !!! x) = a.
Proof.
  intros Ha. destruct (decide (a = mO)) as [->|Hne].
  - exists (loop !!! 0). split; [apply Hloop_range, loop_head|].
    apply v_map_loop, loop_head.
  - assert (a < mO) as Hlt by lia.
    pose proof (outside_total_elem n loop a Hlt) as Hel.
    exists (O !!! a). split; [by apply elem_of_outside in Hel as [? ?]|].
    rewrite v_map_outside by done. by apply rank_outside_total.
Qed.

Lemma merged_diagonal :
  (∀ i, mget graph i i = NegInf) → ∀ a, mget (graph_new m) a a = NegInf.
Proof.
  intros Hdiag a. destruct (decide (a < mO)) as [Hlt|Hge].
  - rewrite graph_new_inner by done. apply Hdiag.
  - destruct (decide (a = mO)) as [->|Hne]; [apply graph_new_vc|].
    rewrite (mget_out_of_range (S mO)); [done|apply square_graph_new|lia].
Qed.

Lemma merged_edge_inner a b :
  a < mO → b < mO → has_edge (graph_new m) a b → has_edge graph (O !!! a) (O !!! b).
Proof. unfold has_edge. intros Ha Hb. by rewrite graph_new_inner. Qed.

Lemma merged_edge_from_loop b :
  b < mO → has_edge (graph_new m) mO b →
  ∃ l, loop_to_v e !! (O !!! b) = Some l ∧ l ∈ loop ∧ has_edge graph l (O !!! b).
Proof.
  unfold has_edge. intros Hb. rewrite graph_new_out by done.
  case_decide as Hs; [|done]. intros _. destruct Hs as [l Hl].
  exists l. split; [done|].
  by destruct (es_from _ _ _ _ (build_edges_sound graph parents loop O Hparent) _ _ Hl)
    as (? & _ & ?).
Qed.

Lemma merged_edge_to_loop a :
  a < mO → has_edge (graph_new m) a mO →
  ∃ t, v_to_loop e !! (O !!! a) = Some t ∧ t ∈ loop ∧ has_edge graph (O !!! a) t.
Proof.
  unfold has_edge. intros Ha. rewrite graph_new_into by done.
  case_decide as Hs; [|done]. intros _. destruct Hs as [t Ht].
  exists t. split; [done|].
  by destruct (es_to _ _ _ _ (build_edges_sound graph parents loop O Hparent) _ _ Ht)
    as (? & _ & ?).
Qed.

(** *** Expanding the tree of the merged graph *)

(** A matrix whose row [i] has its one 1 in column [ps i]. *)
Definition one_hot (n : nat) (ps : nat → nat) (mst : list (list nat)) : Prop :=
  square n mst ∧
  ∀ i j, i < n → j < n → mget mst i j = if decide (j = ps i) then 1 else 0.

(** Following [ps] from [x] leads to [y]. *)
Definition climbs (ps : nat → nat) (x y : nat) : Prop := rtc (λ a b, ps a = b) x y.

(** What the solver is shown to return: [mst] records the parent [ps i] of
    every node, the root is its own parent, every other parent edge is an
    edge of [graph], and every node climbs to the root. *)
Record good_tree (n r : nat) (graph : list (list weight)) (ps : nat → nat)
    (mst : list (list nat)) : Prop := {
  gt_hot : one_hot n ps mst;
  gt_root : ps r = r;
  gt_range : ∀ i, i < n → ps i < n;
  gt_edge : ∀ i, i < n → i ≠ r → has_edge graph (ps i) i;
  gt_climb : ∀ i, i < n → climbs ps i r;
}.

Variable r : nat.
Variable ps' : nat → nat.
Variable mst_merged : list (list nat).
Hypothesis Hr : r < n.
Hypothesis Hr_out : r ∉ loop.
Hypothesis Hloop_parent : ∀ i, i < length loop →
  parents !!! (loop !!! ((i + 1) mod length loop)) = loop !!! i.
Hypothesis Hdiag : ∀ i, mget graph i i = NegInf.
Hypothesis Hrec : good_tree (S mO) (rank loop r) (graph_new m) ps' mst_merged.

Definition source : nat := O !!! ps' mO.
Definition target : nat := v_to_loop e !!! source.

(** The parents after the expansion. *)
Definition ps_new (x : nat) : nat :=
  if decide (x ∈ loop) then
    if decide (x = target) then source else parents !!! x
  else
    if decide (ps' (rank loop x) = mO) then loop_to_v e !!! x
    else O !!! ps' (rank loop x).

Lemma rank_root : rank loop r < mO.
Proof. by apply rank_lt. Qed.

Lemma merged_parent_of_loop : ps' mO < mO.
Proof.
  pose proof rank_root as Hroot.
  assert (mO < S mO) as Hlt by lia.
  pose proof (gt_range _ _ _ _ _ Hrec mO Hlt) as Hrange.
  assert (mO ≠ rank loop r) as Hne by lia.
  pose proof (gt_edge _ _ _ _ _ Hrec mO Hlt Hne) as Hedge.
  destruct (decide (ps' mO = mO)) as [Heq|Hneq]; [|lia].
  rewrite Heq in Hedge. unfold has_edge in Hedge.
  by rewrite (merged_diagonal Hdiag) in Hedge.
Qed.

Lemma source_outside : source ∈ O.
Proof. apply outside_total_elem, merged_parent_of_loop. Qed.

Lemma rank_source : rank loop source = ps' mO.
Proof. apply rank_outside_total, merged_parent_of_loop. Qed.

Lemma target_spec :
  v_to_loop e !! source = Some target ∧ target ∈ loop ∧ has_edge graph source target.
Proof.
  pose proof merged_parent_of_loop as Hlt.
  assert (mO < S mO) as Hlt' by lia.
  assert (mO ≠ rank loop r) as Hne by (pose proof rank_root; lia).
  pose proof (gt_edge _ _ _ _ _ Hrec mO Hlt' Hne) as Hedge.
  destruct (merged_edge_to_loop _ Hlt Hedge) as (t & Ht & Htl & Hte).
  fold source in Ht, Hte. unfold target.
  by rewrite (lookup_total_correct _ _ _ Ht).
Qed.

Lemma from_loop_spec x :
  x ∈ O → ps' (rank loop x) = mO →
  ∃ l, loop_to_v e !! x = Some l ∧ l ∈ loop ∧ has_edge graph l x.
Proof.
  intros [Hx Hxo]%elem_of_outside Hp.
  pose proof (rank_lt n loop x Hx Hxo) as Hlt.
  assert (rank loop x ≠ rank loop r) as Hne.
  { intros Heq. rewrite Heq, (gt_root _ _ _ _ _ Hrec) in Hp. pose proof rank_root. lia. }
  assert (rank loop x < S mO) as Hlt' by lia.
  pose proof (gt_edge _ _ _ _ _ Hrec _ Hlt' Hne) as Hedge.
  rewrite Hp in Hedge.
  destruct (merged_edge_from_loop _ Hlt Hedge) as (l & Hl & Hll & Hle).
  rewrite outside_total_rank in Hl, Hle by done. eauto.
Qed.

Lemma from_loop_total x :
  x ∈ O → ps' (rank loop x) = mO →
  loop_to_v e !!! x ∈ loop ∧ has_edge graph (loop_to_v e !!! x) x.
Proof.
  intros Hx Hp. destruct (from_loop_spec x Hx Hp) as (l & Hl & ? & ?).
  by rewrite (lookup_total_correct _ _ _ Hl).
Qed.

(** The node before [loop[j]] on the cycle is its parent. *)
Lemma loop_pred j :
  j < length loop →
  parents !!! (loop !!! j) = loop !!! (if decide (j = 0) then length loop - 1 else j - 1).
Proof.
  intros Hj. case_decide as Hz.
  - subst j. rewrite <-(Hloop_parent (length loop - 1)) by lia.
    replace (length loop - 1 + 1) with (length loop) by lia.
    by rewrite Nat.Div0.mod_same.
  - rewrite <-(Hloop_parent (j - 1)) by lia.
    replace (j - 1 + 1) with j by lia. by rewrite Nat.mod_small.
Qed.

Lemma loop_parent_in_loop c : c ∈ loop → parents !!! c ∈ loop.
Proof.
  intros (j & Hj)%list_elem_of_lookup_1.
  pose proof (lookup_lt_Some _ _ _ Hj) as Hlt.
  rewrite <-(list_lookup_total_correct _ _ _ Hj), loop_pred by done.
  apply list_elem_of_lookup_total_2. case_decide; lia.
Qed.

(** The writes of the expansion, in terms of ranks. *)
Definition outside_writes : list (nat * nat * nat) :=
  x ← O; y ← O; [(x, y, mget mst_merged (rank loop x) (rank loop y))].

Definition loop_writes : list (nat * nat * nat) :=
  ((λ i, (loop !!! (i + 1), loop !!! i, 1)) <$> seq 0 (length loop - 1))
  ++ [(loop !!! 0, loop !!! (length loop - 1), 1)].

Definition from_loop_writes : list (nat * nat * nat) :=
  x ← O;
  if decide (0 < mget mst_merged (rank loop x) mO)
  then [(x, loop_to_v e !!! x, mget mst_merged (rank loop x) mO)] else [].

Definition expanded : list (list nat) :=
  mset
    (mset
       (apply_writes from_loop_writes
          (apply_writes loop_writes
             (apply_writes outside_writes (replicate n (replicate n 0)))))
       target source 1)
    target (parents !!! target) 0.

Lemma merged_cell a b :
  a < S mO → b < S mO →
  mget mst_merged a b = if decide (b = ps' a) then 1 else 0.
Proof. apply (gt_hot _ _ _ _ _ Hrec). Qed.

Lemma merged_cell_pos a b :
  a < S mO → b < S mO → 0 < mget mst_merged a b ↔ ps' a = b.
Proof.
  intros Ha Hb. rewrite merged_cell by done. case_decide; split; (done || lia).
Qed.

Lemma find_source_merged :
  list_find (λ v, 0 < v) (mst_merged !!! mO) = Some (ps' mO, 1).
Proof.
  pose proof merged_parent_of_loop as Hlt.
  destruct (gt_hot _ _ _ _ _ Hrec) as [Hsq Hcell].
  pose proof (square_row_length _ _ mO Hsq ltac:(lia)) as Hlen.
  apply list_find_Some. split_and!.
  - rewrite list_lookup_lookup_total_lt by lia. f_equal.
    fold (mget mst_merged mO (ps' mO)).
    rewrite merged_cell by lia. by rewrite decide_True.
  - lia.
  - intros j y Hj Hlt'.
    rewrite <-(list_lookup_total_correct _ _ _ Hj).
    fold (mget mst_merged mO j). rewrite merged_cell by lia.
    rewrite decide_False by lia. lia.
Qed.

Lemma find_source :
  list_find (λ x, v_map m !!! x = ps' mO) O = Some (ps' mO, source).
Proof.
  pose proof merged_parent_of_loop as Hlt.
  apply list_find_Some. split_and!.
  - by apply list_lookup_lookup_total_lt.
  - rewrite v_map_outside by apply source_outside. apply rank_source.
  - intros j y Hj Hlt'.
    rewrite v_map_outside by (by eapply list_elem_of_lookup_2).
    rewrite (rank_outside_lookup n loop j y) by done. lia.
Qed.

Lemma find_target :
  ∃ idx, list_find (λ v, v = target) loop = Some (idx, target) ∧
         idx < length loop ∧ loop !!! idx = target.
Proof.
  destruct target_spec as (_ & Hin & _).
  destruct (list_find_elem_of (λ v, v = target) loop target Hin eq_refl)
    as [[idx y] Hfind].
  pose proof Hfind as (Hl & -> & _)%list_find_Some.
  exists idx. split_and!; [done|by eapply lookup_lt_Some|].
  by apply list_lookup_total_correct.
Qed.

Lemma break_index idx :
  idx < length loop → loop !!! idx = target →
  loop !!! Z.to_nat ((Z.of_nat idx - 1) mod Z.of_nat (length loop))
  = parents !!! target.
Proof.
  intros Hidx <-. rewrite loop_pred by done. f_equal. case_decide as Hz.
  - subst idx.
    replace ((Z.of_nat 0 - 1) mod Z.of_nat (length loop))%Z
      with (Z.of_nat (length loop) - 1)%Z; [lia|].
    apply Z.mod_unique with (q := (-1)%Z); lia.
  - rewrite Z.mod_small by lia. lia.
Qed.

Lemma from_loop_writes_eq :
  rmap (λ x,
          if decide (0 < mget mst_merged (v_map m !!! x) mO) then
            l <- of_option KeyError (loop_to_v e !! x) ;;
            Ok [(x, l, mget mst_merged (v_map m !!! x) mO)]
          else Ok []) O
  = Ok ((λ x, if decide (0 < mget mst_merged (rank loop x) mO)
              then [(x, loop_to_v e !!! x, mget mst_merged (rank loop x) mO)]
              else []) <$> O).
Proof.
  apply rmap_all_Ok. intros x Hx. rewrite (v_map_outside x Hx).
  case_decide as Hpos; [|done].
  pose proof Hx as [Hxn Hxo]%elem_of_outside.
  pose proof (rank_lt n loop x Hxn Hxo) as Hlt.
  apply merged_cell_pos in Hpos; [|lia..].
  destruct (from_loop_spec x Hx Hpos) as (l & Hl & _).
  rewrite Hl. simpl. by rewrite (lookup_total_correct _ _ _ Hl).
Qed.

Lemma concat_fmap_bind {A B} (f : A → list B) (l : list A) :
  concat (f <$> l) = l ≫= f.
Proof. induction l as [|x l IH]; [done|]. by rewrite fmap_cons, bind_cons, <-IH. Qed.

(** The expansion raises nothing, and its writes are those of [expanded]. *)
Lemma expand_loop_Ok : expand_loop m n loop O mst_merged = Ok expanded.
Proof.
  unfold expand_loop. cbn [edges merge_nodes].
  rewrite (v_map_loop _ loop_head).
  change (build_edges graph parents loop O) with e.
  rewrite from_loop_writes_eq. cbn [rbind].
  rewrite find_source_merged. cbn [fmap option_fmap option_map of_option rbind fst].
  rewrite find_source.
  destruct target_spec as (Ht & _ & _). rewrite Ht. cbn [of_option rbind].
  destruct find_target as (idx & Hfind & Hidx & Hloop).
  rewrite Hfind. cbn [fmap option_fmap option_map of_option rbind fst].
  rewrite (break_index idx Hidx Hloop).
  unfold expanded. do 4 f_equal.
  - apply concat_fmap_bind.
  - unfold loop_writes. rewrite apply_writes_app. cbn [apply_writes foldl fst snd].
    do 3 f_equal. unfold outside_writes.
    apply bind_ext_in. intros x Hx. rewrite (v_map_outside x Hx).
    apply bind_ext_in. intros y Hy. by rewrite (v_map_outside y Hy).
Qed.

Lemma elem_of_outside_writes w :
  w ∈ outside_writes ↔
  ∃ x y, x ∈ O ∧ y ∈ O ∧ w = (x, y, mget mst_merged (rank loop x) (rank loop y)).
Proof.
  unfold outside_writes. rewrite list_elem_of_bind. split.
  - intros (x & (y & Hw%list_elem_of_singleton & Hy)%list_elem_of_bind & Hx). eauto.
  - intros (x & y & Hx & Hy & ->). exists x. split; [|done].
    apply list_elem_of_bind. exists y. split; [|done]. by apply list_elem_of_singleton.
Qed.

Lemma elem_of_loop_writes w :
  w ∈ loop_writes ↔ ∃ c, c ∈ loop ∧ w = (c, parents !!! c, 1).
Proof.
  unfold loop_writes. rewrite elem_of_app, list_elem_of_fmap, list_elem_of_singleton.
  split.
  - intros [(i & -> & Hi%elem_of_seq)| ->].
    + exists (loop !!! (i + 1)). split; [apply list_elem_of_lookup_total_2; lia|].
      rewrite loop_pred by lia. rewrite decide_False by lia.
      by replace (i + 1 - 1) with i by lia.
    + exists (loop !!! 0). split; [apply loop_head|].
      rewrite loop_pred by lia. by rewrite decide_True.
  - intros (c & (j & Hj)%list_elem_of_lookup_1 & ->).
    pose proof (lookup_lt_Some _ _ _ Hj) as Hlt.
    rewrite <-(list_lookup_total_correct _ _ _ Hj), loop_pred by done.
    case_decide as Hz.
    + right. by subst j.
    + left. exists (j - 1). split; [|apply elem_of_seq; lia].
      by replace (j - 1 + 1) with j by lia.
Qed.

Lemma elem_of_from_loop_writes w :
  w ∈ from_loop_writes ↔
  ∃ x, x ∈ O ∧ ps' (rank loop x) = mO ∧ w = (x, loop_to_v e !!! x, 1).
Proof.
  unfold from_loop_writes. rewrite list_elem_of_bind. split.
  - intros (x & Hw & Hx). exists x. split; [done|].
    pose proof Hx as [Hxn Hxo]%elem_of_outside.
    pose proof (rank_lt n loop x Hxn Hxo) as Hlt.
    case_decide as Hpos; [|by apply elem_of_nil in Hw].
    apply list_elem_of_singleton in Hw as ->.
    apply merged_cell_pos in Hpos as Hp; [|lia..]. split; [done|].
    rewrite merged_cell, Hp by lia. by rewrite decide_True.
  - intros (x & Hx & Hp & ->). exists x. split; [|done].
    pose proof Hx as [Hxn Hxo]%elem_of_outside.
    pose proof (rank_lt n loop x Hxn Hxo) as Hlt.
    rewrite merged_cell, Hp by lia. destruct (decide (mO = mO)); [|done].
    rewrite decide_True by lia. by apply list_elem_of_singleton.
Qed.

Lemma outside_cell i j :
  i < n → j < n →
  mget (apply_writes outside_writes (replicate n (replicate n 0))) i j =
    if decide (i ∈ O ∧ j ∈ O) then mget mst_merged (rank loop i) (rank loop j) else 0.
Proof.
  intros Hi Hj. case_decide as Hin.
  - apply mget_apply_writes_same.
    + by rewrite length_replicate.
    + by rewrite lookup_total_replicate_2, length_replicate.
    + exists (i, j, mget mst_merged (rank loop i) (rank loop j)). split; [|done].
      apply elem_of_outside_writes. exists i, j. by destruct Hin.
    + by intros w (x & y & _ & _ & ->)%elem_of_outside_writes [= -> ->].
  - rewrite mget_apply_writes_other; [by apply mget_replicate|].
    intros w (x & y & Hx & Hy & ->)%elem_of_outside_writes [= -> ->]. by apply Hin.
Qed.

Lemma loop_cell M i j :
  square n M → i < n → j < n →
  mget (apply_writes loop_writes M) i j =
    if decide (i ∈ loop ∧ j = parents !!! i) then 1 else mget M i j.
Proof.
  intros [Hlen Hrows] Hi Hj. case_decide as Hin.
  - apply mget_apply_writes_same.
    + lia.
    + by rewrite (square_row_length n).
    + destruct Hin as [Hin ->]. exists (i, parents !!! i, 1). split; [|done].
      apply elem_of_loop_writes. by exists i.
    + by intros w (c & _ & ->)%elem_of_loop_writes _.
  - apply mget_apply_writes_other.
    intros w (c & Hc & ->)%elem_of_loop_writes [= -> <-]. by apply Hin.
Qed.

Lemma from_loop_cell M i j :
  square n M → i < n → j < n →
  mget (apply_writes from_loop_writes M) i j =
    if decide (i ∈ O ∧ ps' (rank loop i) = mO ∧ j = loop_to_v e !!! i) then 1
    else mget M i j.
Proof.
  intros [Hlen Hrows] Hi Hj. case_decide as Hin.
  - apply mget_apply_writes_same.
    + lia.
    + by rewrite (square_row_length n).
    + destruct Hin as (Hin & Hp & ->). exists (i, loop_to_v e !!! i, 1).
      split; [|done]. apply elem_of_from_loop_writes. by exists i.
    + by intros w (c & _ & _ & ->)%elem_of_from_loop_writes _.
  - apply mget_apply_writes_other.
    intros w (c & Hc & Hp & ->)%elem_of_from_loop_writes [= -> <-]. by apply Hin.
Qed.

Lemma square_outside_cells :
  square n (apply_writes outside_writes (replicate n (replicate n 0))).
Proof. apply square_apply_writes, square_replicate. Qed.

Lemma square_loop_cells :
  square n (apply_writes loop_writes
              (apply_writes outside_writes (replicate n (replicate n 0)))).
Proof. apply square_apply_writes, square_outside_cells. Qed.

Lemma square_from_loop_cells :
  square n (apply_writes from_loop_writes
              (apply_writes loop_writes
                 (apply_writes outside_writes (replicate n (replicate n 0))))).
Proof. apply square_apply_writes, square_loop_cells. Qed.

Lemma square_expanded : square n expanded.
Proof. do 2 apply square_mset. apply square_from_loop_cells. Qed.

Lemma rank_inj x y :
  x < n → x ∉ loop → y < n → y ∉ loop → rank loop x = rank loop y → x = y.
Proof.
  intros Hx Hxo Hy Hyo Heq.
  rewrite <-(outside_total_rank n loop x), <-(outside_total_rank n loop y) by done.
  by rewrite Heq.
Qed.

Lemma merged_parent_outside x :
  x < n → x ∉ loop → ps' (rank loop x) ≠ mO → ps' (rank loop x) < mO.
Proof.
  intros Hx Hxo Hne. pose proof (rank_lt n loop x Hx Hxo) as Hlt.
  pose proof (gt_range _ _ _ _ _ Hrec (rank loop x)). lia.
Qed.

(** Row [i] of the expanded matrix has its one 1 in column [ps_new i]. *)
Lemma expanded_cell i j :
  i < n → j < n → mget expanded i j = if decide (j = ps_new i) then 1 else 0.
Proof.
  intros Hi Hj. unfold expanded, ps_new.
  destruct target_spec as (_ & Htl & _).
  pose proof source_outside as [Hsn Hso]%elem_of_outside.
  pose proof (Hloop_range _ Htl) as Htn.
  pose proof (loop_parent_in_loop _ Htl) as Hpl.
  pose proof (Hloop_range _ Hpl) as Hpn.
  pose proof square_from_loop_cells as Hsq4.
  destruct (decide ((target, parents !!! target) = (i, j))) as [[= <- <-]|Hne1].
  { rewrite mget_mset_eq.
    - rewrite (decide_True (P := target ∈ loop)) by done.
      rewrite (decide_True (P := target = target)) by done.
      rewrite decide_False; [done|].
      intros Heq. by rewrite Heq in Hpl.
    - rewrite mset_length. by destruct Hsq4 as [-> _].
    - by rewrite mset_row_length, (square_row_length n). }
  rewrite mget_mset_ne by done.
  destruct (decide ((target, source) = (i, j))) as [[= <- <-]|Hne2].
  { rewrite mget_mset_eq.
    - rewrite (decide_True (P := target ∈ loop)) by done.
      rewrite (decide_True (P := target = target)) by done.
      by rewrite decide_True.
    - by destruct Hsq4 as [-> _].
    - by rewrite (square_row_length n). }
  rewrite mget_mset_ne by done.
  rewrite from_loop_cell, loop_cell, outside_cell
    by (done || apply square_loop_cells || apply square_outside_cells).
  destruct (decide (i ∈ loop)) as [Hil|Hil].
  - rewrite (decide_False (P := i ∈ O ∧ _ ∧ _))
      by (intros ([_ ?]%elem_of_outside & _); done).
    rewrite (decide_False (P := i ∈ O ∧ _))
      by (intros ([_ ?]%elem_of_outside & _); done).
    destruct (decide (i = target)) as [->|Hit].
    + rewrite decide_False by (intros [_ ->]; done).
      rewrite decide_False; [done|]. by intros ->.
    + destruct (decide (j = parents !!! i)) as [->|Hjp].
      * by rewrite decide_True.
      * by rewrite decide_False by (intros [_ ?]; done).
  - assert (i ∈ O) as HiO by (by apply elem_of_outside).
    rewrite (decide_False (P := i ∈ loop ∧ _)) by (intros [? _]; done).
    pose proof (rank_lt n loop i Hi Hil) as Hri.
    destruct (decide (ps' (rank loop i) = mO)) as [Hp|Hp].
    + destruct (from_loop_total i HiO Hp) as [Hll _].
      destruct (decide (j = loop_to_v e !!! i)) as [->|Hjl].
      * by rewrite decide_True.
      * rewrite decide_False by (intros (_ & _ & ?); done).
        case_decide as HjO; [|done].
        destruct HjO as [_ [_ Hjo]%elem_of_outside].
        pose proof (rank_lt n loop j Hj Hjo) as Hrj.
        rewrite merged_cell by lia. rewrite decide_False; [done|lia].
    + rewrite decide_False by (intros (_ & ? & _); done).
      pose proof (merged_parent_outside i Hi Hil Hp) as Hlt.
      pose proof (outside_total_elem n loop _ Hlt) as [Hyn Hyo]%elem_of_outside.
      case_decide as HjO.
      * destruct HjO as [_ [_ Hjo]%elem_of_outside].
        pose proof (rank_lt n loop j Hj Hjo) as Hrj.
        rewrite merged_cell by lia.
        destruct (decide (rank loop j = ps' (rank loop i))) as [Heq|Hneq].
        -- rewrite decide_True; [done|].
           by rewrite <-Heq, outside_total_rank.
        -- rewrite decide_False; [done|].
           intros ->. by rewrite rank_outside_total in Hneq.
      * rewrite decide_False; [done|].
        intros ->. apply HjO. split; [done|]. by apply outside_total_elem.
Qed.

Lemma ps_new_root : ps_new r = r.
Proof.
  unfold ps_new. rewrite decide_False by done.
  rewrite (gt_root _ _ _ _ _ Hrec).
  rewrite decide_False by (pose proof rank_root; lia).
  by apply outside_total_rank.
Qed.

Lemma ps_new_range i : i < n → ps_new i < n.
Proof.
  intros Hi. unfold ps_new.
  destruct target_spec as (_ & Htl & _).
  pose proof source_outside as [Hsn Hso]%elem_of_outside.
  destruct (decide (i ∈ loop)) as [Hil|Hil].
  - case_decide; [done|]. by apply Hloop_range, loop_parent_in_loop.
  - assert (i ∈ O) as HiO by (by apply elem_of_outside).
    case_decide as Hp.
    + apply Hloop_range. by apply from_loop_total.
    + pose proof (merged_parent_outside i Hi Hil Hp) as Hlt.
      by pose proof (outside_total_elem n loop _ Hlt) as [? ?]%elem_of_outside.
Qed.

Lemma ps_new_edge i : i < n → i ≠ r → has_edge graph (ps_new i) i.
Proof.
  intros Hi Hir. unfold ps_new.
  destruct target_spec as (_ & Htl & Hte).
  destruct (decide (i ∈ loop)) as [Hil|Hil].
  - case_decide as Hit; [by subst i|]. by apply Hparent.
  - assert (i ∈ O) as HiO by (by apply elem_of_outside).
    pose proof (rank_lt n loop i Hi Hil) as Hri.
    case_decide as Hp.
    + by apply from_loop_total.
    + pose proof (merged_parent_outside i Hi Hil Hp) as Hlt.
      assert (rank loop i ≠ rank loop r) as Hne
        by (intros Heq; by apply Hir, rank_inj).
      assert (rank loop i < S mO) as Hri' by lia.
      pose proof (gt_edge _ _ _ _ _ Hrec _ Hri' Hne) as Hedge.
      apply merged_edge_inner in Hedge; [|done..].
      by rewrite (outside_total_rank n loop i) in Hedge.
Qed.

(** Inside the loop every node but [target] keeps its parent, so the walk
    from any loop node runs backwards along the loop to [target]. *)
Lemma loop_step j :
  j < length loop → loop !!! j ≠ target →
  ps_new (loop !!! j) = loop !!! (if decide (j = 0) then length loop - 1 else j - 1).
Proof.
  intros Hj Hne. unfold ps_new.
  rewrite decide_True by (by apply list_elem_of_lookup_total_2).
  rewrite decide_False by done. by apply loop_pred.
Qed.

Lemma loop_lookup_inj i j :
  i < length loop → j < length loop → loop !!! i = loop !!! j → i = j.
Proof.
  intros Hi Hj Heq. eapply NoDup_lookup; [apply Hloop_nodup|..].
  - by apply list_lookup_lookup_total_lt.
  - rewrite Heq. by apply list_lookup_lookup_total_lt.
Qed.

Lemma climb_down t d :
  loop !!! t = target → t + d < length loop →
  climbs ps_new (loop !!! (t + d)) target.
Proof.
  intros Ht. induction d as [|d IH]; intros Hlt.
  - rewrite Nat.add_0_r, Ht. apply rtc_refl.
  - eapply rtc_l; [|apply IH; lia]. simpl.
    rewrite loop_step; [|lia|].
    + rewrite decide_False by lia. f_equal. lia.
    + rewrite <-Ht. intros Heq%loop_lookup_inj; lia.
Qed.

Lemma climb_wrap t j :
  loop !!! t = target → t < length loop → j < t →
  climbs ps_new (loop !!! j) target.
Proof.
  intros Ht Hlt. induction j as [|j IH]; intros Hj.
  - eapply rtc_l.
    + simpl. apply loop_step; [lia|].
      rewrite <-Ht. intros Heq%loop_lookup_inj; lia.
    + rewrite decide_True by done.
      replace (length loop - 1) with (t + (length loop - 1 - t)) by lia.
      apply climb_down; [done|lia].
  - eapply rtc_l; [|apply IH; lia]. simpl.
    rewrite loop_step; [|lia|].
    + rewrite decide_False by lia. f_equal. lia.
    + rewrite <-Ht. intros Heq%loop_lookup_inj; lia.
Qed.

Lemma loop_climbs x : x ∈ loop → climbs ps_new x target.
Proof.
  intros (j & Hj)%list_elem_of_lookup_1.
  pose proof (lookup_lt_Some _ _ _ Hj) as Hlt.
  rewrite <-(list_lookup_total_correct _ _ _ Hj).
  destruct find_target as (t & _ & Ht & Htarget).
  destruct (decide (j < t)) as [Hjt|Hjt].
  - by apply (climb_wrap t).
  - replace j with (t + (j - t)) by lia. apply climb_down; [done|lia].
Qed.

Lemma target_step : ps_new target = source.
Proof.
  unfold ps_new. destruct target_spec as (_ & Htl & _).
  rewrite decide_True by done. by rewrite decide_True.
Qed.

Lemma expanded_climbs a :
  climbs ps' a (rank loop r) →
  ∀ x, x < n → v_map m !!! x = a → climbs ps_new x r.
Proof.
  unfold climbs. revert a.
  apply (rtc_ind_l (λ a, ∀ x, x < n → v_map m !!! x = a → rtc (λ a b, ps_new a = b) x r)).
  - intros x Hx Hvm.
    destruct (vm_cases x Hx) as [[_ Heq]|(Hxo & _ & Heq & _)]; rewrite Heq in Hvm.
    + pose proof rank_root. lia.
    + by rewrite (rank_inj x r Hx Hxo Hr Hr_out Hvm).
  - intros a b Hab _ IH x Hx Hvm.
    destruct (vm_cases x Hx) as [[Hxl Heq]|(Hxo & HxO & Heq & Hrx)];
      rewrite Heq in Hvm; subst a.
    + etrans; [by apply loop_climbs|].
      eapply rtc_l; [apply target_step|].
      pose proof source_outside as HsO.
      pose proof HsO as [Hsn Hso]%elem_of_outside.
      apply IH; [done|]. rewrite v_map_outside by done. by rewrite rank_source.
    + eapply rtc_l; [reflexivity|]. unfold ps_new.
      rewrite decide_False by done. case_decide as Hp.
      * destruct (from_loop_total x HxO Hp) as [Hll _].
        apply IH; [by apply Hloop_range|]. rewrite v_map_loop by done. by rewrite <-Hab.
      * pose proof (merged_parent_outside x Hx Hxo Hp) as Hlt.
        pose proof (outside_total_elem n loop _ Hlt) as HyO.
        pose proof HyO as [Hyn Hyo]%elem_of_outside.
        apply IH; [done|]. rewrite v_map_outside by done.
        by rewrite rank_outside_total.
Qed.

(** The expansion of a good tree of the merged graph is a good tree. *)
Lemma expand_loop_good : good_tree n r graph ps_new expanded.
Proof.
  split.
  - split; [apply square_expanded|apply expanded_cell].
  - apply ps_new_root.
  - apply ps_new_range.
  - apply ps_new_edge.
  - intros i Hi.
    destruct (vm_cases i Hi) as [[_ Heq]|(_ & _ & Heq & Hlt)].
    + apply (expanded_climbs mO); [|done..].
      apply (gt_climb _ _ _ _ _ Hrec). lia.
    + apply (expanded_climbs (rank loop i)); [|done..].
      apply (gt_climb _ _ _ _ _ Hrec). lia.
Qed.
End merged_graph.

(** *** One level of the solver *)

Section level.
Import Arbor.
Variable rnd : nat → nat.
Variable n : nat.
Variable graph : list (list weight).
Variable r k : nat.
Hypothesis Hsquare : square n graph.
Hypothesis Hr : r < n.
Hypothesis Hdiag : ∀ i, mget graph i i = NegInf.
Hypothesis Hreach : ∀ v, v < n → reachable graph r v.

(** [graph] after step 1. *)
Definition cleared : list (list weight) :=
  <[r := replicate (length (graph !!! r)) NegInf]> graph.

(** [parents] after step 2. *)
Definition level_parents : list nat := (best_parents rnd n cleared 0 k).1.

Lemma square_cleared : square n cleared.
Proof.
  destruct Hsquare as [Hlen Hrows]. split.
  - unfold cleared. by rewrite length_insert.
  - apply Forall_insert; [done|]. rewrite length_replicate.
    by apply (square_row_length n).
Qed.

Lemma mget_cleared i j :
  mget cleared i j = if decide (i = r) then NegInf else mget graph i j.
Proof.
  case_decide as Hi.
  - subst i. apply cleared_root_row.
  - unfold mget, cleared. by rewrite list_lookup_total_insert_ne.
Qed.

Lemma has_edge_cleared u v : has_edge cleared u v ↔ v ≠ r ∧ has_edge graph u v.
Proof.
  unfold has_edge. rewrite mget_cleared.
  destruct (decide (v = r)) as [Hv|Hv]; simpl.
  - split; [done|]. by intros [? _].
  - split; [done|]. by intros [_ ?].
Qed.

Lemma diagonal_cleared i : mget cleared i i = NegInf.
Proof. rewrite mget_cleared. by case_decide. Qed.

Lemma reachable_cleared v : v < n → reachable cleared r v.
Proof.
  intros Hv. pose proof (Hreach v Hv) as Hpath. clear Hv. revert v Hpath.
  unfold reachable.
  apply (rtc_ind_r (λ v, rtc (has_edge cleared) r v)); [done|].
  intros x y _ Hxy IH.
  destruct (decide (y = r)) as [->|Hne]; [done|].
  eapply rtc_r; [apply IH|]. by apply has_edge_cleared.
Qed.

Lemma has_edge_cleared_range u v : has_edge cleared u v → u < n ∧ v < n.
Proof.
  intros [_ He]%has_edge_cleared. by apply (has_edge_range graph n).
Qed.

(** Every node but the root has an incoming edge, so step 2 takes its best
    one, and never the random fallback. *)
Lemma incoming_edge i : i < n → i ≠ r → ∃ u, has_edge cleared u i.
Proof.
  intros Hi Hne. pose proof (reachable_cleared i Hi) as Hpath.
  apply rtc_inv_r in Hpath as [->|(u & _ & Hu)]; [done|]. eauto.
Qed.

Lemma level_parents_spec i :
  i < n → i ≠ r →
  level_parents !!! i < n ∧ level_parents !!! i ≠ i ∧
  has_edge cleared (level_parents !!! i) i.
Proof.
  intros Hi Hne. destruct (incoming_edge i Hi Hne) as [u Hu].
  pose proof square_cleared as Hsq.
  pose proof (square_row_length n _ i Hsq Hi) as Hrow.
  destruct Hsq as [Hlen _].
  assert (cleared !! i = Some (cleared !!! i)) as Hlook
    by (apply list_lookup_lookup_total_lt; lia).
  destruct (row_max_finite (cleared !!! i) u Hu) as [mx Hmx].
  pose proof (best_parents_lookup rnd n cleared 0 k i _ mx Hlook Hmx) as Hp.
  unfold level_parents. rewrite (list_lookup_total_correct _ _ _ Hp).
  destruct (first_index_spec _ _ (row_max_elem _ _ Hmx)) as [Hidx Hval].
  assert (has_edge cleared (first_index mx (cleared !!! i)) i) as Hedge
    by (unfold has_edge, mget; by rewrite Hval).
  split_and!; [lia| |done].
  intros Heq. rewrite Heq in Hedge. unfold has_edge in Hedge.
  by rewrite diagonal_cleared in Hedge.
Qed.

(** The children lists of step 2 are as the cycle search needs them. *)
Definition level_adj : list (list nat) := adj_list_pruned n r level_parents.

Lemma level_child p c :
  child level_adj p c ↔ c < n ∧ c ≠ r ∧ level_parents !!! c = p.
Proof.
  unfold child, level_adj. rewrite elem_of_adj_list_pruned. split.
  - by intros (Hc & Hne & Heq & _).
  - intros (Hc & Hne & <-). split_and!; [done..|].
    by apply level_parents_spec.
Qed.

Lemma level_check_loop :
  ∃ loop v_outside,
    check_loop level_adj n = Ok (loop, v_outside) ∧
    ((loop = [] ∧ ∀ s, s < n → ¬ tc (child level_adj) s s) ∨
     (is_cycle level_adj loop ∧ v_outside = outside n loop)).
Proof.
  apply check_loop_spec.
  - by intros p c (? & _ & _ & ?)%elem_of_adj_list_pruned.
  - by intros p p' c (_ & _ & <- & _)%elem_of_adj_list_pruned
                     (_ & _ & <- & _)%elem_of_adj_list_pruned.
  - intros p. apply NoDup_adj_list_pruned.
  - intros p (Hp & Hne & Heq & _)%elem_of_adj_list_pruned.
    by destruct (level_parents_spec p Hp Hne) as (_ & ? & _).
Qed.

(** *** No cycle: the [else] branch of step 4 *)

Definition level_ps (i : nat) : nat :=
  if decide (i = r) then r else level_parents !!! i.

(** The first [d] nodes met when following [ps] from [i]. *)
Fixpoint chain (ps : nat → nat) (d i : nat) : list nat :=
  match d with
  | O => []
  | S d' => i :: chain ps d' (ps i)
  end.

Lemma chain_length ps d i : length (chain ps d i) = d.
Proof. revert i; induction d as [|d IH]; intros i; simpl; [done|]. by rewrite IH. Qed.

Lemma chain_climbs ps d i x : x ∈ chain ps d i → climbs ps i x.
Proof.
  revert i; induction d as [|d IH]; intros i; simpl.
  - by intros ?%elem_of_nil.
  - intros [->|Hx]%elem_of_cons; [apply rtc_refl|].
    eapply rtc_l; [reflexivity|]. by apply IH.
Qed.

Lemma level_ps_range i : i < n → level_ps i < n.
Proof.
  intros Hi. unfold level_ps. case_decide; [done|]. by apply level_parents_spec.
Qed.

Lemma chain_range d i x : i < n → x ∈ chain level_ps d i → x < n.
Proof.
  revert i; induction d as [|d IH]; intros i Hi; simpl.
  - by intros ?%elem_of_nil.
  - intros [->|Hx]%elem_of_cons; [done|].
    apply (IH (level_ps i)); [by apply level_ps_range|done].
Qed.

Lemma chain_descends d y x :
  y < n → r ∉ chain level_ps d y → x ∈ chain level_ps d y →
  rtc (child level_adj) x y.
Proof.
  revert y; induction d as [|d IH]; intros y Hy; simpl.
  - by intros _ ?%elem_of_nil.
  - intros Hr' [->|Hx]%elem_of_cons; [done|].
    apply not_elem_of_cons in Hr' as [Hne Hr'].
    eapply rtc_r; [apply IH; [by apply level_ps_range|done..]|].
    apply level_child. split_and!; [done..|].
    unfold level_ps. by rewrite decide_False.
Qed.

Section acyclic.
Hypothesis Hacyclic : ∀ s, s < n → ¬ tc (child level_adj) s s.

Lemma chain_NoDup d i : i < n → r ∉ chain level_ps d i → NoDup (chain level_ps d i).
Proof.
  revert i; induction d as [|d IH]; intros i Hi; simpl; [constructor|].
  intros [Hne Hr']%not_elem_of_cons. apply NoDup_cons. split.
  - intros Hin. apply (Hacyclic i Hi).
    eapply tc_rtc_l; [by apply (chain_descends d (level_ps i)); [apply level_ps_range|..]|].
    apply tc_once, level_child. split_and!; [done..|].
    unfold level_ps. by rewrite decide_False.
  - apply IH; [by apply level_ps_range|done].
Qed.

Lemma level_climbs i : i < n → climbs level_ps i r.
Proof.
  intros Hi. apply (chain_climbs _ (S n)).
  destruct (decide (r ∈ chain level_ps (S n) i)) as [|Hout]; [done|exfalso].
  pose proof (chain_NoDup (S n) i Hi Hout) as Hnd.
  assert (chain level_ps (S n) i ⊆+ seq 0 n) as Hsub.
  { apply NoDup_submseteq; [done|]. intros x Hx. apply elem_of_seq.
    pose proof (chain_range _ _ _ Hi Hx). lia. }
  apply submseteq_length in Hsub.
  rewrite chain_length, length_seq in Hsub. lia.
Qed.

Lemma elem_of_no_loop_writes w :
  w ∈ (λ i, if decide (i = r) then (i, i, 1) else (i, level_parents !!! i, 1))
        <$> seq 0 n
  ↔ ∃ i, i < n ∧ w = (i, level_ps i, 1).
Proof.
  rewrite list_elem_of_fmap. unfold level_ps. split.
  - intros (i & -> & Hi%elem_of_seq). exists i. split; [lia|].
    case_decide; by subst.
  - intros (i & Hi & ->). exists i. split; [|apply elem_of_seq; lia].
    case_decide; by subst.
Qed.

Lemma no_loop_good : good_tree n r cleared level_ps (no_loop_mst n r level_parents).
Proof.
  split.
  - split; [apply square_apply_writes, square_replicate|].
    intros i j Hi Hj. unfold no_loop_mst. case_decide as Hij.
    + apply mget_apply_writes_same.
      * by rewrite length_replicate.
      * by rewrite lookup_total_replicate_2, length_replicate.
      * exists (i, level_ps i, 1). split; [|by subst].
        apply elem_of_no_loop_writes. by exists i.
      * by intros w (i' & _ & ->)%elem_of_no_loop_writes _.
    + rewrite mget_apply_writes_other; [by apply mget_replicate|].
      by intros w (i' & _ & ->)%elem_of_no_loop_writes [= -> <-].
  - unfold level_ps. by rewrite decide_True.
  - apply level_ps_range.
  - intros i Hi Hne. unfold level_ps. rewrite decide_False by done.
    by apply level_parents_spec.
  - apply level_climbs.
Qed.
End acyclic.

(** *** A cycle: the recursive branch of step 4 *)

Section cyclic.
Variable loop : list nat.
Hypothesis Hcycle : is_cycle level_adj loop.

Lemma cycle_NoDup : NoDup loop.
Proof. by destruct Hcycle as (? & _ & _). Qed.

Lemma cycle_length : 2 ≤ length loop.
Proof. by destruct Hcycle as (_ & ? & _). Qed.

Lemma cycle_parent i :
  i < length loop →
  level_parents !!! (loop !!! ((i + 1) mod length loop)) = loop !!! i.
Proof.
  intros Hi. destruct Hcycle as (_ & _ & Hchild).
  by destruct (proj1 (level_child _ _) (Hchild i Hi)) as (_ & _ & ?).
Qed.

Lemma cycle_elem x : x ∈ loop → x < n ∧ x ≠ r.
Proof.
  intros (j & Hj)%list_elem_of_lookup_1.
  pose proof (lookup_lt_Some _ _ _ Hj) as Hlt.
  pose proof cycle_length as Hlen.
  destruct Hcycle as (_ & _ & Hchild).
  apply list_lookup_total_correct in Hj as <-.
  destruct (decide (j = 0)) as [->|Hj0].
  - assert (length loop - 1 < length loop) as Hi by lia.
    pose proof (proj1 (level_child _ _) (Hchild _ Hi)) as (? & ? & _).
    replace (length loop - 1 + 1) with (length loop) in * by lia.
    by rewrite Nat.Div0.mod_same in *.
  - assert (j - 1 < length loop) as Hi by lia.
    pose proof (proj1 (level_child _ _) (Hchild _ Hi)) as (? & ? & _).
    replace (j - 1 + 1) with j in * by lia.
    by rewrite Nat.mod_small in * by done.
Qed.

Lemma cycle_range x : x ∈ loop → x < n.
Proof. by intros [? _]%cycle_elem. Qed.

Lemma cycle_root : r ∉ loop.
Proof. by intros [_ ?]%cycle_elem. Qed.

Lemma cycle_edge x :
  x ∈ loop → isinf (mget cleared x (level_parents !!! x)) = false.
Proof.
  intros [Hx Hne]%cycle_elem.
  by destruct (level_parents_spec x Hx Hne) as (_ & _ & ?).
Qed.

Lemma cycle_nonempty : 0 < length loop.
Proof. pose proof cycle_length. lia. Qed.

Local Abbreviation merged_level :=
  (merge_nodes cleared level_parents n loop (outside n loop)).

Lemma merged_size : S (length (outside n loop)) < n.
Proof.
  pose proof (length_outside n loop cycle_NoDup cycle_range).
  pose proof cycle_length. lia.
Qed.

Lemma merged_root : v_map merged_level !!! r = rank loop r.
Proof.
  apply v_map_outside.
  apply elem_of_outside. split; [done|apply cycle_root].
Qed.

Lemma merged_level_reachable a :
  a < S (length (outside n loop)) →
  reachable (graph_new merged_level) (rank loop r) a.
Proof.
  intros Ha.
  destruct (merged_onto cleared level_parents n loop cycle_range cycle_nonempty a Ha)
    as (x & Hx & <-).
  rewrite <-merged_root.
  apply (merged_reachable _ _ _ _ cycle_NoDup cycle_range cycle_nonempty cycle_edge
           square_cleared).
  by apply reachable_cleared.
Qed.

(** With a good tree of the merged graph, the rest of step 4 raises nothing
    and returns a good tree of the graph. *)
Lemma expand_level ps' mst_merged :
  good_tree (S (length (outside n loop))) (rank loop r)
            (graph_new merged_level) ps' mst_merged →
  ∃ ps mst,
    expand_loop merged_level n loop (outside n loop) mst_merged = Ok mst ∧
    good_tree n r cleared ps mst.
Proof.
  intros Hrec.
  exists (ps_new cleared level_parents n loop ps'),
         (expanded cleared level_parents n loop ps' mst_merged).
  split.
  - apply (expand_loop_Ok _ _ _ _ cycle_NoDup cycle_range cycle_nonempty cycle_edge
             r ps' mst_merged Hr cycle_root cycle_parent diagonal_cleared Hrec).
  - apply (expand_loop_good _ _ _ _ cycle_NoDup cycle_range cycle_nonempty cycle_edge
             r ps' mst_merged Hr cycle_root cycle_parent diagonal_cleared Hrec).
Qed.
End cyclic.
End level.

(** *** The whole recursion *)

Section recursion.
Import Arbor.
Variable rnd : nat → nat.

Lemma ecl_S fuel k graph r :
  ecl rnd (S fuel) k graph r =
    let n := length graph in
    if decide (n ≤ r) then Raise IndexError else
    lv <- check_loop (level_adj rnd n graph r k) n ;;
    if decide (0 < length lv.1) then
      let m := merge_nodes (cleared graph r) (level_parents rnd n graph r k) n lv.1 lv.2 in
      rec <- ecl rnd fuel (best_parents rnd n (cleared graph r) 0 k).2
                 (graph_new m) (v_map m !!! r) ;;
      mst <- expand_loop m n lv.1 lv.2 rec.2 ;;
      Ok (rec.1.1, cleared graph r, mst)
    else
      Ok ((best_parents rnd n (cleared graph r) 0 k).2, cleared graph r,
          no_loop_mst n r (level_parents rnd n graph r k)).
Proof. reflexivity. Qed.

Lemma good_tree_cleared n r graph ps mst :
  good_tree n r (cleared graph r) ps mst → good_tree n r graph ps mst.
Proof.
  intros [Hhot Hroot Hrange Hedge Hclimb]. split; [done..| |done].
  intros i Hi Hne. by apply (has_edge_cleared graph r), Hedge.
Qed.

(** On a graph without self edges in which the root reaches every node, the
    solver returns, and what it returns is a good tree of the graph. *)
Lemma ecl_good fuel :
  ∀ n graph r k,
    square n graph → r < n →
    (∀ i, mget graph i i = NegInf) →
    (∀ v, v < n → reachable graph r v) →
    n < fuel →
    ∃ k' ps mst,
      ecl rnd fuel k graph r = Ok (k', cleared graph r, mst) ∧
      good_tree n r (cleared graph r) ps mst.
Proof.
  induction fuel as [|fuel IH]; intros n graph r k Hsq Hr Hdiag Hreach Hfuel; [lia|].
  rewrite ecl_S. cbv zeta.
  pose proof Hsq as [Hlen _]. rewrite Hlen.
  rewrite decide_False by lia.
  destruct (level_check_loop rnd n graph r k Hsq Hr Hdiag Hreach)
    as (loop & v_outside & Hcheck & [[-> Hacyclic]|[Hcycle ->]]).
  - rewrite Hcheck. cbn [rbind fst snd length].
    rewrite decide_False by lia.
    eexists _, _, _. split; [done|].
    by apply no_loop_good.
  - rewrite Hcheck. cbn [rbind fst snd].
    pose proof (cycle_length rnd n graph r k loop Hcycle) as Hlen2.
    rewrite decide_True by lia.
    pose proof (merged_size rnd n graph r k Hsq Hr Hdiag Hreach loop Hcycle) as Hsize.
    pose proof (cycle_NoDup rnd n graph r k loop Hcycle) as Hnd.
    pose proof (cycle_range rnd n graph r k Hsq Hr Hdiag Hreach loop Hcycle) as Hrange.
    pose proof (merged_root rnd n graph r k Hsq Hr Hdiag Hreach loop Hcycle) as Hroot.
    rewrite Hroot.
    destruct (IH (S (length (outside n loop)))
                 (graph_new (merge_nodes (cleared graph r) (level_parents rnd n graph r k)
                                         n loop (outside n loop)))
                 (rank loop r)
                 (best_parents rnd n (cleared graph r) 0 k).2)
      as (k' & ps' & mst' & Hrec & Hgood).
    + apply square_graph_new; [done..|lia].
    + pose proof (cycle_root rnd n graph r k Hsq Hr Hdiag Hreach loop Hcycle) as Hout.
      pose proof (rank_lt n loop r Hr Hout). lia.
    + apply (merged_diagonal _ _ _ _ Hnd Hrange ltac:(lia)).
      intros i. by apply diagonal_cleared.
    + apply (merged_level_reachable rnd n graph r k Hsq Hr Hdiag Hreach loop Hcycle).
    + lia.
    + rewrite Hrec. cbn [rbind fst snd].
      apply good_tree_cleared in Hgood.
      destruct (expand_level rnd n graph r k Hsq Hr Hdiag Hreach loop Hcycle ps' mst' Hgood)
        as (ps & mst & Hexp & Hmst).
      rewrite Hexp. cbn [rbind]. by eexists _, _, _.
Qed.
End recursion.

(** *** From the parent function to the claim's words *)

Lemma sum_list_zeros (row : list nat) :
  (∀ j, j < length row → row !!! j = 0) → sum_list row = 0.
Proof.
  induction row as [|a row IH]; intros Hrow; [done|]. simpl.
  pose proof (Hrow 0 ltac:(simpl; lia)) as H0. simpl in H0. subst a.
  rewrite IH; [done|].
  intros j Hj. apply (Hrow (S j)). simpl. lia.
Qed.

Lemma sum_list_one_hot (row : list nat) p :
  p < length row →
  (∀ j, j < length row → row !!! j = if decide (j = p) then 1 else 0) →
  sum_list row = 1.
Proof.
  revert p; induction row as [|a row IH]; intros p Hp Hrow; simpl in *; [lia|].
  pose proof (Hrow 0 ltac:(lia)) as H0. simpl in H0.
  destruct p as [|p].
  - rewrite decide_True in H0 by done. subst a.
    rewrite sum_list_zeros; [done|].
    intros j Hj. pose proof (Hrow (S j) ltac:(lia)) as HS.
    change ((1 :: row) !!! S j) with (row !!! j) in HS.
    by rewrite decide_False in HS by done.
  - rewrite decide_False in H0 by done. subst a.
    rewrite (IH p); [done|lia|].
    intros j Hj. pose proof (Hrow (S j) ltac:(lia)) as HS.
    change ((0 :: row) !!! S j) with (row !!! j) in HS.
    rewrite HS. repeat case_decide; (done || lia).
Qed.

Lemma sum_list_ones (l : list nat) :
  Forall (λ x, x = 1) l → sum_list l = length l.
Proof. induction 1 as [|x l -> _ IH]; simpl; [done|]. by rewrite IH. Qed.

Section tree.
Import Arbor.
Variable n r : nat.
Variable graph : list (list weight).
Variable ps : nat → nat.
Variable mst : list (list nat).
Hypothesis Hr : r < n.
Hypothesis Hgood : good_tree n r graph ps mst.

Lemma tree_square : square n mst.
Proof. by destruct (gt_hot _ _ _ _ _ Hgood). Qed.

Lemma tree_cell i j :
  i < n → j < n → mget mst i j = if decide (j = ps i) then 1 else 0.
Proof. by destruct (gt_hot _ _ _ _ _ Hgood) as [_ ?]; auto. Qed.

Lemma mst_edge_parent j i : mst_edge mst j i ↔ i < n ∧ j = ps i.
Proof.
  unfold mst_edge. split.
  - intros Hedge.
    destruct (decide (i < n)) as [Hi|Hi];
      [|by rewrite (mget_out_of_range n) in Hedge by (apply tree_square || lia)].
    destruct (decide (j < n)) as [Hj|Hj];
      [|by rewrite (mget_out_of_range n) in Hedge by (apply tree_square || lia)].
    rewrite tree_cell in Hedge by done. by case_decide.
  - intros [Hi ->]. rewrite tree_cell; [by rewrite decide_True|done|].
    by apply (gt_range _ _ _ _ _ Hgood).
Qed.

Lemma tree_zero_one : zero_one mst.
Proof.
  pose proof tree_square as Hsq.
  apply Forall_lookup. intros i row Hrow.
  pose proof (lookup_lt_Some _ _ _ Hrow) as Hi.
  apply Forall_lookup. intros j v Hv.
  pose proof (lookup_lt_Some _ _ _ Hv) as Hj.
  apply list_lookup_total_correct in Hrow as <-.
  apply list_lookup_total_correct in Hv as <-.
  destruct Hsq as [Hlen Hrows].
  rewrite (square_row_length n) in Hj by (done || lia).
  fold (mget mst i j). rewrite tree_cell by lia. case_decide; auto.
Qed.

Lemma tree_n_edges : n_edges mst = n.
Proof.
  pose proof tree_square as Hsq. destruct (Hsq) as [Hlen Hrows].
  unfold n_edges. rewrite sum_list_ones; [by rewrite length_fmap|].
  apply Forall_fmap, Forall_lookup. intros i row Hrow. simpl.
  pose proof (lookup_lt_Some _ _ _ Hrow) as Hi.
  apply list_lookup_total_correct in Hrow as <-.
  pose proof (square_row_length n _ i Hsq ltac:(lia)) as Hrl.
  apply (sum_list_one_hot _ (ps i)).
  - rewrite Hrl. apply (gt_range _ _ _ _ _ Hgood). lia.
  - intros j Hj. fold (mget mst i j). apply tree_cell; lia.
Qed.

Lemma tree_reaches v : v < n → rtc (mst_edge mst) r v.
Proof.
  intros Hv. pose proof (gt_climb _ _ _ _ _ Hgood v Hv) as Hclimb.
  unfold climbs in Hclimb. revert v Hclimb Hv.
  apply (rtc_ind_l (λ v, v < n → rtc (mst_edge mst) r v)); [done|].
  intros x y Hxy _ IH Hx.
  eapply rtc_r; [apply IH; subst y; by apply (gt_range _ _ _ _ _ Hgood)|].
  by apply mst_edge_parent.
Qed.

Lemma tc_last_step {A} (R : relation A) x z :
  tc R x z → ∃ y, rtc R x y ∧ R y z.
Proof.
  revert z. apply tc_ind_r.
  - intros y Hxy. by exists x.
  - intros y z Hxy Hyz _. exists y. split; [by apply tc_rtc|done].
Qed.

(** A cycle that avoids the edges into the root would keep the walk to the
    root on the cycle for ever. *)
Lemma tree_acyclic v : ¬ tc (λ a b, mst_edge mst a b ∧ b ≠ r) v v.
Proof.
  set (E := λ a b, mst_edge mst a b ∧ b ≠ r). intros Hcyc.
  assert (v < n) as Hv.
  { destruct (tc_last_step E v v Hcyc) as (z & _ & [Hz _]).
    by apply mst_edge_parent in Hz as [? _]. }
  assert (∀ x, climbs ps v x → tc E v x ∧ tc E x v) as Hon.
  { unfold climbs. apply (rtc_ind_r (λ x, tc E v x ∧ tc E x v)); [done|].
    intros x y _ Hxy [Hvx Hxv].
    destruct (tc_last_step E v x Hvx) as (z & Hvz & [Hzx Hne]).
    pose proof Hzx as [_ ->]%mst_edge_parent. rewrite Hxy in Hvz, Hzx.
    split.
    - apply rtc_tc in Hvz as [<-|?]; done.
    - eapply tc_l; [|done]. by split. }
  destruct (Hon r (gt_climb _ _ _ _ _ Hgood v Hv)) as [Hvr _].
  by destruct (tc_last_step E v r Hvr) as (z & _ & [_ ?]).
Qed.

(** The matrix is what C1 asks for, up to the root's self-loop. *)
Lemma tree_arborescence : arborescence_with_root_loop n r mst.
Proof.
  split_and!.
  - apply tree_square.
  - apply tree_zero_one.
  - apply tree_n_edges.
  - apply mst_edge_parent. split; [done|]. by rewrite (gt_root _ _ _ _ _ Hgood).
  - apply tree_acyclic.
  - intros i Hi. exists (ps i). split; [by apply mst_edge_parent|].
    by intros j' [_ ->]%mst_edge_parent.
  - apply tree_reaches.
Qed.
End tree.

(** *** The tree returned by [edmond_chu_liu] *)

Section arborescence.
Import Arbor.

(** C1 (amended). For a square log-weight matrix [graph] on [n] nodes that
    has no edge from a node to itself and a root [r] from which every node
    is reachable, [edmond_chu_liu] returns, whatever the random draws, and
    the matrix it returns is a 0/1 matrix with exactly [n] ones:
    the root's self-loop [mst[r,r] = 1] is the only edge into the root,
    every other node has exactly one incoming edge, no cycle avoids the
    root's self-loop, and every node is reachable from the root along the
    edges of the matrix. *)
Theorem edmond_chu_liu_tree_with_root_loop
    (rnd : nat → nat) (k : nat) (graph : list (list weight)) (n r : nat) :
  square n graph → r < n →
  (∀ i, i < n → mget graph i i = NegInf) →
  (∀ v, v < n → reachable graph r v) →
  ∃ k' graph' mst,
    edmond_chu_liu rnd k graph r = Ok (k', graph', mst) ∧
    arborescence_with_root_loop n r mst.
Proof.
  intros Hsq Hr Hdiag Hreach.
  assert (∀ i, mget graph i i = NegInf) as Hdiag'.
  { intros i. destruct (decide (i < n)) as [Hi|Hi]; [by apply Hdiag|].
    rewrite (mget_out_of_range n); [done|done|lia]. }
  destruct (ecl_good rnd (S (length graph)) n graph r k Hsq Hr Hdiag' Hreach)
    as (k' & ps & mst & Hrun & Hgood).
  { destruct Hsq as [-> _]. lia. }
  exists k', (cleared graph r), mst. split; [done|].
  by apply (tree_arborescence n r (cleared graph r) ps).
Qed.
End arborescence.

Lemma edmond_chu_liu_tree_with_root_loop_witness :
  ∃ k' graph' mst,
    Arbor.edmond_chu_liu (λ _, 0) 0 three_cycle 0 = Ok (k', graph', mst) ∧
    Arbor.arborescence_with_root_loop 4 0 mst.
Proof.
  apply (edmond_chu_liu_tree_with_root_loop (λ _, 0) 0 three_cycle 4 0).
  - split; [reflexivity|]. repeat constructor.
  - lia.
  - intros i Hi. do 4 (destruct i as [|i]; [reflexivity|]). lia.
  - intros v Hv. destruct v as [|v]; [apply rtc_refl|].
    do 3 (destruct v as [|v]; [apply rtc_once; reflexivity|]). lia.
Defined.

(** * Further properties of the code *)

(** ** Cycle search, contraction and the solver's tree *)

Lemma get_loop_outside tb n start loop v_outside :
  Arbor.get_loop tb n start = Ok (loop, v_outside) →
  v_outside = filter (λ i, i ∉ loop) (seq 0 n).
Proof.
  unfold Arbor.get_loop.
  intros (l & _ & [= <- <-])%rbind_Ok.
  apply list_filter_iff. intros i. by rewrite elem_of_reverse.
Qed.

Lemma bfs_outside fuel adj n queue checked tb loop v_outside :
  Arbor.bfs fuel adj n queue checked tb = Ok (Arbor.Found loop v_outside) →
  v_outside = filter (λ i, i ∉ loop) (seq 0 n).
Proof.
  revert queue checked tb.
  induction fuel as [|fuel IH]; intros queue checked tb; simpl; [done|].
  destruct queue as [|ptr queue]; [done|].
  destruct (checked !!! ptr); [|by apply IH].
  intros ([l v] & Hget & Hfound)%rbind_Ok. simpl in Hfound.
  case_decide; [done|]. injection Hfound as <- <-.
  by eapply get_loop_outside.
Qed.

Lemma check_loop_from_outside adj n nodes loop v_outside :
  Arbor.check_loop_from adj n nodes = Ok (loop, v_outside) →
  v_outside = filter (λ i, i ∉ loop) (seq 0 n).
Proof.
  induction nodes as [|s nodes IH]; cbn [Arbor.check_loop_from].
  - intros [= <- <-]. symmetry.
    induction (seq 0 n) as [|a l IHl]; [done|].
    rewrite filter_cons_True by apply not_elem_of_nil. by f_equal.
  - intros ([l v|] & Hbfs & Hrest)%rbind_Ok.
    + injection Hrest as <- <-. by eapply bfs_outside.
    + by apply IH.
Qed.

Section solver_properties.
Import Arbor.

(** [check_loop] on the children lists that step 2 of [edmond_chu_liu]
    builds, when no node but the root is its own parent: it raises nothing;
    [v_outside] is the complement of [loop]; and either [loop] is empty and
    no node sits on a cycle of the children lists, or [loop] is a cycle of at
    least two distinct nodes, none of them the root, listed so that each is
    the parent of the next (and the last the parent of the first). *)
Theorem check_loop_returns_a_cycle (n r : nat) (parents : list nat) :
  (∀ i, i < n → i ≠ r → parents !!! i < n ∧ parents !!! i ≠ i) →
  ∃ loop v_outside,
    check_loop (adj_list_pruned n r parents) n = Ok (loop, v_outside) ∧
    v_outside = filter (λ i, i ∉ loop) (seq 0 n) ∧
    ((loop = [] ∧
      ∀ s, s < n → ¬ tc (child (adj_list_pruned n r parents)) s s) ∨
     (NoDup loop ∧ 2 ≤ length loop ∧ (r ∉ loop) ∧
      (∀ x, x ∈ loop → x < n) ∧
      ∀ i, i < length loop →
           parents !!! (loop !!! ((i + 1) mod length loop)) = loop !!! i)).
Proof.
  intros Hparents.
  destruct (check_loop_spec (adj_list_pruned n r parents) n)
    as (loop & v_outside & Hcheck & Hcases).
  - by intros p c (? & _ & _ & ?)%elem_of_adj_list_pruned.
  - by intros p p' c (_ & _ & <- & _)%elem_of_adj_list_pruned
                     (_ & _ & <- & _)%elem_of_adj_list_pruned.
  - intros p. apply NoDup_adj_list_pruned.
  - intros p (Hp & Hne & Heq & _)%elem_of_adj_list_pruned.
    by destruct (Hparents p Hp Hne) as [_ ?].
  - exists loop, v_outside. split; [done|].
    split; [by eapply check_loop_from_outside|].
    destruct Hcases as [[-> Hacyclic]|[(Hnd & Hlen & Hchild) ->]]; [by left|right].
    + assert (∀ j, j < length loop →
                   loop !!! j < n ∧ loop !!! j ≠ r) as Helem.
      { intros j Hj.
        destruct (decide (j = 0)) as [->|Hj0].
        - assert (length loop - 1 < length loop) as Hi by lia.
          pose proof (Hchild _ Hi) as (? & ? & _)%elem_of_adj_list_pruned.
          replace (length loop - 1 + 1) with (length loop) in * by lia.
          by rewrite Nat.Div0.mod_same in *.
        - assert (j - 1 < length loop) as Hi by lia.
          pose proof (Hchild _ Hi) as (? & ? & _)%elem_of_adj_list_pruned.
          replace (j - 1 + 1) with j in * by lia.
          by rewrite Nat.mod_small in * by done. }
      split_and!; [done..| | |].
      * intros (j & Hj)%list_elem_of_lookup_1.
        pose proof (lookup_lt_Some _ _ _ Hj) as Hlt.
        apply list_lookup_total_correct in Hj.
        destruct (Helem j Hlt) as [_ Hne]. by rewrite Hj in Hne.
      * intros x (j & Hj)%list_elem_of_lookup_1.
        pose proof (lookup_lt_Some _ _ _ Hj) as Hlt.
        apply list_lookup_total_correct in Hj as <-. by apply Helem.
      * intros i Hi.
        by pose proof (Hchild _ Hi) as (_ & _ & ? & _)%elem_of_adj_list_pruned.
Qed.

Lemma check_loop_returns_a_cycle_witness :
  ∃ loop v_outside,
    check_loop (adj_list_pruned 3 0 [0; 2; 1]) 3 = Ok (loop, v_outside) ∧
    v_outside = filter (λ i, i ∉ loop) (seq 0 3) ∧
    ((loop = [] ∧
      ∀ s, s < 3 → ¬ tc (child (adj_list_pruned 3 0 [0; 2; 1])) s s) ∨
     (NoDup loop ∧ 2 ≤ length loop ∧ (0 ∉ loop) ∧
      (∀ x, x ∈ loop → x < 3) ∧
      ∀ i, i < length loop →
           [0; 2; 1] !!! (loop !!! ((i + 1) mod length loop)) = loop !!! i)).
Proof.
  apply (check_loop_returns_a_cycle 3 0 [0; 2; 1]).
  intros i Hi Hne.
  destruct i as [|[|[|i]]]; [done|split; simpl; lia..|lia].
Defined.

(** [merge_nodes] numbers the nodes outside the loop 0, 1, ... in increasing
    order and gives every loop node the next number,
    [n_nodes - len(loop)]; [v_map] has no other key. *)
Theorem merge_nodes_v_map
    (graph : list (list weight)) (parents : list nat) (n : nat)
    (loop v_outside : list nat) (x : nat) :
  NoDup loop → (∀ y, y ∈ loop → y < n) →
  v_map (merge_nodes graph parents n loop v_outside) !! x =
    if decide (x ∈ loop) then Some (n - length loop)
    else if decide (x < n)
         then Some (length (filter (λ i, i ∉ loop) (seq 0 x)))
         else None.
Proof.
  intros Hnd Hrange. cbn [merge_nodes v_map].
  rewrite build_v_map_lookup.
  pose proof (length_outside n loop Hnd Hrange) as Hlen.
  replace (n - length loop) with (length (outside n loop)) by lia.
  done.
Qed.

Lemma merge_nodes_v_map_witness :
  v_map (merge_nodes three_cycle [0; 3; 1; 2] 4 [1; 2; 3] [0]) !! 2 =
    if decide (2 ∈ [1; 2; 3]) then Some (4 - length [1; 2; 3])
    else if decide (2 < 4)
         then Some (length (filter (λ i, i ∉ [1; 2; 3]) (seq 0 2)))
         else None.
Proof.
  apply (merge_nodes_v_map three_cycle [0; 3; 1; 2] 4 [1; 2; 3] [0] 2).
  - by apply (bool_decide_unpack _).
  - intros y Hy. repeat (apply elem_of_cons in Hy as [->|Hy]; [lia|]).
    by apply elem_of_nil in Hy.
Defined.

(** The merged graph of [merge_nodes] is square of size
    [n_nodes - len(loop) + 1]; between two nodes outside the loop it has the
    weight the graph has; and the merged node has no edge to itself. *)
Theorem merge_nodes_keeps_outside_edges
    (graph : list (list weight)) (parents : list nat) (n : nat)
    (loop : list nat) :
  NoDup loop → (∀ y, y ∈ loop → y < n) → 0 < length loop →
  let m := merge_nodes graph parents n loop (filter (λ i, i ∉ loop) (seq 0 n)) in
  square (n - length loop + 1) (graph_new m) ∧
  (∀ x y, x < n → y < n → x ∉ loop → y ∉ loop →
          mget (graph_new m) (v_map m !!! x) (v_map m !!! y) = mget graph x y) ∧
  mget (graph_new m) (n - length loop) (n - length loop) = NegInf.
Proof.
  intros Hnd Hrange Hlen m.
  pose proof (length_outside n loop Hnd Hrange) as Hout.
  split_and!.
  - rewrite (n_new_eq n loop Hnd Hrange Hlen).
    by apply square_graph_new.
  - intros x y Hx Hy Hxo Hyo.
    assert (x ∈ outside n loop) as HxO by (by apply elem_of_outside).
    assert (y ∈ outside n loop) as HyO by (by apply elem_of_outside).
    unfold m. fold (outside n loop).
    rewrite !v_map_outside by done.
    rewrite graph_new_inner by (done || by apply rank_lt).
    by rewrite !outside_total_rank.
  - replace (n - length loop) with (length (outside n loop)) by lia.
    by apply graph_new_vc.
Qed.

Lemma merge_nodes_keeps_outside_edges_witness :
  let m := merge_nodes three_cycle [0; 3; 1; 2] 4 [1; 2; 3]
             (filter (λ i, i ∉ [1; 2; 3]) (seq 0 4)) in
  square (4 - length [1; 2; 3] + 1) (graph_new m) ∧
  (∀ x y, x < 4 → y < 4 → x ∉ [1; 2; 3] → y ∉ [1; 2; 3] →
          mget (graph_new m) (v_map m !!! x) (v_map m !!! y)
          = mget three_cycle x y) ∧
  mget (graph_new m) (4 - length [1; 2; 3]) (4 - length [1; 2; 3]) = NegInf.
Proof.
  apply (merge_nodes_keeps_outside_edges three_cycle [0; 3; 1; 2] 4 [1; 2; 3]).
  - by apply (bool_decide_unpack _).
  - intros y Hy. repeat (apply elem_of_cons in Hy as [->|Hy]; [lia|]).
    by apply elem_of_nil in Hy.
  - simpl. lia.
Defined.

(** Contracting a loop keeps reachability: when [v] can be reached from [r]
    in the graph, the image of [v] can be reached from the image of [r] in
    the merged graph. *)
Theorem merge_nodes_keeps_reachability
    (graph : list (list weight)) (parents : list nat) (n : nat)
    (loop : list nat) (r v : nat) :
  square n graph →
  NoDup loop → (∀ y, y ∈ loop → y < n) → 0 < length loop →
  (∀ x, x ∈ loop → isinf (mget graph x (parents !!! x)) = false) →
  reachable graph r v →
  let m := merge_nodes graph parents n loop (filter (λ i, i ∉ loop) (seq 0 n)) in
  reachable (graph_new m) (v_map m !!! r) (v_map m !!! v).
Proof.
  intros Hsq Hnd Hrange Hlen Hparent Hreach m.
  by apply (merged_reachable graph parents n loop).
Qed.

Lemma merge_nodes_keeps_reachability_witness :
  let m := merge_nodes three_cycle [0; 3; 1; 2] 4 [1; 2; 3]
             (filter (λ i, i ∉ [1; 2; 3]) (seq 0 4)) in
  reachable (graph_new m) (v_map m !!! 0) (v_map m !!! 2).
Proof.
  apply (merge_nodes_keeps_reachability three_cycle [0; 3; 1; 2] 4 [1; 2; 3] 0 2).
  - split; [reflexivity|]. repeat constructor.
  - by apply (bool_decide_unpack _).
  - intros y Hy. repeat (apply elem_of_cons in Hy as [->|Hy]; [lia|]).
    by apply elem_of_nil in Hy.
  - simpl. lia.
  - intros x Hx. repeat (apply elem_of_cons in Hx as [->|Hx]; [reflexivity|]).
    by apply elem_of_nil in Hx.
  - apply rtc_once. reflexivity.
Defined.

(** Under the conditions of the tree theorem, every edge of the returned
    matrix other than the root's self-loop is an edge of the input graph
    (its log-weight is not [-inf]), and is no self edge. *)
Theorem edmond_chu_liu_tree_edges_are_graph_edges
    (rnd : nat → nat) (k : nat) (graph : list (list weight)) (n r : nat)
    (k' : nat) (graph' : list (list weight)) (mst : list (list nat)) :
  square n graph → r < n →
  (∀ i, i < n → mget graph i i = NegInf) →
  (∀ v, v < n → reachable graph r v) →
  edmond_chu_liu rnd k graph r = Ok (k', graph', mst) →
  ∀ i j, mst_edge mst j i → i ≠ r → has_edge graph j i ∧ j ≠ i.
Proof.
  intros Hsq Hr Hdiag Hreach Hrun i j Hedge Hne.
  assert (∀ i, mget graph i i = NegInf) as Hdiag'.
  { intros i'. destruct (decide (i' < n)) as [Hi|Hi]; [by apply Hdiag|].
    rewrite (mget_out_of_range n); [done|done|lia]. }
  destruct (ecl_good rnd (S (length graph)) n graph r k Hsq Hr Hdiag' Hreach)
    as (k0 & ps & mst0 & Hrun0 & Hgood).
  { destruct Hsq as [-> _]. lia. }
  unfold edmond_chu_liu in Hrun. rewrite Hrun0 in Hrun.
  injection Hrun as -> <- <-.
  apply (mst_edge_parent n r _ ps mst0 Hr Hgood) in Hedge as [Hi ->].
  pose proof (gt_edge _ _ _ _ _ Hgood i Hi Hne) as Hgraph.
  apply has_edge_cleared in Hgraph as [_ Hgraph]. split; [done|].
  intros Heq. rewrite Heq in Hgraph. unfold has_edge in Hgraph.
  by rewrite Hdiag' in Hgraph.
Qed.

Lemma edmond_chu_liu_tree_edges_are_graph_edges_witness :
  has_edge three_cycle 3 1 ∧ 3 ≠ 1.
Proof.
  eapply (edmond_chu_liu_tree_edges_are_graph_edges (λ _, 0) 0 three_cycle 4 0).
  - split; [reflexivity|]. repeat constructor.
  - lia.
  - intros i Hi. do 4 (destruct i as [|i]; [reflexivity|]). lia.
  - intros v Hv. destruct v as [|v]; [apply rtc_refl|].
    do 3 (destruct v as [|v]; [apply rtc_once; reflexivity|]). lia.
  - vm_compute. reflexivity.
  - reflexivity.
  - lia.
Defined.

Lemma row_max_upper row m j z :
  row_max row = Some m → row !! j = Some (Finite z) → (z ≤ m)%Z.
Proof.
  revert m j; induction row as [|w row IH]; intros m j; [done|].
  simpl. destruct j as [|j]; simpl.
  - intros Hmax [= ->]. destruct (row_max row); injection Hmax as <-; lia.
  - intros Hmax Hj. destruct w as [|a]; [by eapply IH|].
    destruct (row_max row) as [b|] eqn:Hb.
    + injection Hmax as <-. pose proof (IH b j eq_refl Hj). lia.
    + exfalso. clear -Hb Hj. revert j Hj.
      induction row as [|w row IHr]; intros j Hj; [done|].
      simpl in Hb. destruct j as [|j]; simpl in Hj.
      * injection Hj as ->. by destruct (row_max row).
      * destruct w; [by eapply IHr|by destruct (row_max row)].
Qed.

Lemma first_index_first row m j :
  j < first_index m row → row !! j ≠ Some (Finite m).
Proof.
  unfold first_index.
  destruct (list_find _ row) as [[p w]|] eqn:Hfind; [|lia].
  apply list_find_Some in Hfind as (_ & _ & Hfirst).
  intros Hj Hrow. by apply (Hfirst j _ Hrow).
Qed.

(** Step 2 of [edmond_chu_liu]: for a row with an entry that is not [-inf],
    [parents[i]] is the first column that holds the row's largest weight. *)
Theorem best_parent_is_first_maximum
    (rnd : nat → nat) (n : nat) (graph : list (list weight)) (k i : nat)
    (row : list weight) (j0 : nat) :
  graph !! i = Some row → isinf (row !!! j0) = false →
  ∃ p m,
    (best_parents rnd n graph 0 k).1 !! i = Some p ∧
    row !! p = Some (Finite m) ∧
    (∀ j z, row !! j = Some (Finite z) → (z ≤ m)%Z) ∧
    (∀ j, j < p → row !! j ≠ Some (Finite m)).
Proof.
  intros Hrow Hfinite.
  destruct (row_max_finite row j0 Hfinite) as [m Hmax].
  exists (first_index m row), m.
  destruct (first_index_spec _ _ (row_max_elem _ _ Hmax)) as [Hidx Hval].
  split_and!.
  - by apply (best_parents_lookup rnd n graph 0 k i row m).
  - by rewrite list_lookup_lookup_total_lt, Hval.
  - intros j z. by apply row_max_upper.
  - intros j. apply first_index_first.
Qed.

Lemma best_parent_is_first_maximum_witness :
  ∃ p m,
    (best_parents (λ _, 0) 4 three_cycle 0 0).1 !! 2 = Some p ∧
    [Finite (-3); Finite (-1); NegInf; Finite (-1)] !! p = Some (Finite m) ∧
    (∀ j z, [Finite (-3); Finite (-1); NegInf; Finite (-1)] !! j
            = Some (Finite z) → (z ≤ m)%Z) ∧
    (∀ j, j < p →
          [Finite (-3); Finite (-1); NegInf; Finite (-1)] !! j ≠ Some (Finite m)).
Proof.
  apply (best_parent_is_first_maximum (λ _, 0) 4 three_cycle 0 2 _ 0);
    reflexivity.
Defined.

Lemma row_max_cleared m : row_max (replicate m NegInf) = None.
Proof. induction m as [|m IH]; [done|]. simpl. by rewrite IH. Qed.

Lemma best_parents_draws rnd n rows i k :
  k ≤ (best_parents rnd n rows i k).2 ∧
  ∀ j row, rows !! j = Some row → row_max row = None →
           k < (best_parents rnd n rows i k).2.
Proof.
  revert i k; induction rows as [|row rows IH]; intros i k; [done|].
  cbn [best_parents].
  destruct (row_max row) as [mx|] eqn:Hmax; cbn [fst snd].
  - destruct (IH (S i) k) as [Hle Hlt]. split; [done|].
    intros [|j] row'; simpl; [by intros [= <-]; rewrite Hmax|apply Hlt].
  - destruct (IH (S i) (S k)) as [Hle Hlt]. split; [lia|]. intros; lia.
Qed.

Lemma ecl_draws rnd fuel :
  ∀ k graph r out, ecl rnd fuel k graph r = Ok out → k < out.1.1.
Proof.
  induction fuel as [|fuel IH]; intros k graph r out; [done|].
  rewrite ecl_S. cbv zeta. case_decide as Hr; [done|].
  assert (k < (best_parents rnd (length graph) (cleared graph r) 0 k).2) as Hdraw.
  { apply (proj2 (best_parents_draws _ _ _ _ _) r
             (replicate (length (graph !!! r)) NegInf)).
    - unfold cleared. apply list_lookup_insert_eq. lia.
    - apply row_max_cleared. }
  intros (lv & _ & Hrest)%rbind_Ok.
  case_decide.
  - apply rbind_Ok in Hrest as (rec & Hrec & (mst & _ & [= <-])%rbind_Ok).
    apply IH in Hrec. simpl. lia.
  - by injection Hrest as <-.
Qed.

(** A call of [edmond_chu_liu] that returns has drawn from [np.random] at
    least once: the root's row is cleared in step 1, so step 2 takes the
    random fallback for the root, also when the result does not depend on
    the draw. *)
Theorem edmond_chu_liu_draws_from_the_generator
    (rnd : nat → nat) (k : nat) (graph : list (list weight)) (r : nat)
    (k' : nat) (graph' : list (list weight)) (mst : list (list nat)) :
  edmond_chu_liu rnd k graph r = Ok (k', graph', mst) → k < k'.
Proof. intros Hrun. by apply ecl_draws in Hrun. Qed.

Lemma edmond_chu_liu_draws_from_the_generator_witness : 0 < 3.
Proof.
  eapply (edmond_chu_liu_draws_from_the_generator (λ _, 0) 0 three_cycle 0).
  vm_compute. reflexivity.
Defined.

(** *** The weights of the merged node's edges *)

(** One turn of either half of the double loop of [merge_nodes]: loop node
    [x] offers weight [w] for the outside node [y]; the offer is taken when
    [y] has no entry yet or [w] is larger than the entry. *)
Definition offer (x y : nat) (finite : bool) (w : weight)
    (d : gmap nat nat * gmap nat weight) : gmap nat nat * gmap nat weight :=
  if finite then
    if decide (d.1 !! y = None) then (<[y := x]> d.1, <[y := w]> d.2)
    else if wgt w (d.2 !!! y) then (<[y := x]> d.1, <[y := w]> d.2)
    else d
  else d.

Lemma merge_edge_offers_to graph parents x y e :
  (v_to_loop (merge_edge graph parents x y e),
   weight_to_loop (merge_edge graph parents x y e))
  = offer x y (negb (isinf (mget graph x y)))
          (wsub (mget graph x y) (mget graph x (parents !!! x)))
          (v_to_loop e, weight_to_loop e).
Proof.
  unfold merge_edge, offer. cbn [fst snd].
  destruct (isinf (mget graph x y)); cbn [negb];
    repeat (case_decide || destruct (wgt _ _) || destruct (isinf _)); done.
Qed.

Lemma merge_edge_offers_from graph parents x y e :
  (loop_to_v (merge_edge graph parents x y e),
   weight_from_loop (merge_edge graph parents x y e))
  = offer x y (negb (isinf (mget graph y x))) (mget graph y x)
          (loop_to_v e, weight_from_loop e).
Proof.
  unfold merge_edge, offer. cbn [fst snd].
  destruct (isinf (mget graph x y));
    [|case_decide; [|destruct (wgt _ (weight_to_loop e !!! y))]];
    cbn [loop_to_v weight_from_loop];
    (destruct (isinf (mget graph y x)); cbn [negb]; [done|];
     case_decide; [done|]; by destruct (wgt _ _)).
Qed.

Lemma foldl_project {A B C} (π : A → C) (f : A → B → A) (g : C → B → C) l a :
  (∀ a b, π (f a b) = g (π a) b) → π (foldl f a l) = foldl g (π a) l.
Proof.
  intros Hfg. revert a; induction l as [|b l IH]; intros a; [done|].
  simpl. by rewrite IH, Hfg.
Qed.

Section offers.
Variable ok : nat → nat → bool.
Variable cand : nat → nat → weight.
Variable xs ys : list nat.
Hypothesis Hcand : ∀ x y, x ∈ xs → ok x y = true → isinf (cand x y) = false.

Definition offers_of (x : nat) (d : gmap nat nat * gmap nat weight) :=
  foldl (λ d y, offer x y (ok x y) (cand x y) d) d ys.

Definition all_offers : gmap nat nat * gmap nat weight :=
  foldl (λ d x, offers_of x d) (∅, ∅) xs.

(** After the offers of the loop nodes [done], the entry of [y] is the best
    of their offers. *)
Definition best_of (done : list nat) (y : nat)
    (d : gmap nat nat * gmap nat weight) : Prop :=
  match d.1 !! y with
  | None => ∀ x, x ∈ done → ok x y = false
  | Some x =>
      x ∈ done ∧ ok x y = true ∧ d.2 !! y = Some (cand x y) ∧
      ∀ x', x' ∈ done → ok x' y = true → wgt (cand x' y) (cand x y) = false
  end.

Lemma offer_other x y y' b w d :
  y' ≠ y → (offer x y b w d).1 !! y' = d.1 !! y' ∧ (offer x y b w d).2 !! y' = d.2 !! y'.
Proof.
  intros Hne. unfold offer.
  destruct b; [|done]. case_decide; [|destruct (wgt _ _); [|done]];
    cbn [fst snd]; by rewrite !lookup_insert_ne.
Qed.

Lemma best_of_other done x y y' d :
  y' ≠ y → best_of done y' d → best_of done y' (offer x y (ok x y) (cand x y) d).
Proof.
  intros Hne. unfold best_of.
  destruct (offer_other x y y' (ok x y) (cand x y) d Hne) as [-> ->]. done.
Qed.

Lemma wgt_irrefl w : wgt w w = false.
Proof. destruct w; simpl; [done|]. apply Z.ltb_irrefl. Qed.

Lemma best_of_offer done x y d :
  x ∈ xs → (∀ x', x' ∈ done → x' ∈ xs) →
  best_of done y d ∨ best_of (done ++ [x]) y d →
  best_of (done ++ [x]) y (offer x y (ok x y) (cand x y) d).
Proof.
  intros Hx Hdone Hbest. unfold best_of, offer in *.
  destruct (ok x y) eqn:Hok.
  - pose proof (Hcand x y Hx Hok) as [z Hz]%isinf_false.
    destruct (d.1 !! y) as [x0|] eqn:Hd.
    + rewrite decide_False by done.
      assert (x0 ∈ done ++ [x] ∧ ok x0 y = true ∧ d.2 !! y = Some (cand x0 y) ∧
              ∀ x', x' ∈ done → ok x' y = true →
                    wgt (cand x' y) (cand x0 y) = false) as (Hx0 & Hok0 & Hw0 & Hmax0).
      { destruct Hbest as [(? & ? & ? & ?)|(? & ? & ? & Hall)].
        - split_and!; [apply elem_of_app; by left|done..].
        - split_and!; [done..|]. intros x' Hx'. apply Hall, elem_of_app. by left. }
      assert (x0 ∈ xs) as Hx0s.
      { apply elem_of_app in Hx0 as [?| ->%list_elem_of_singleton]; auto. }
      pose proof (Hcand x0 y Hx0s Hok0) as [z0 Hz0]%isinf_false.
      rewrite (lookup_total_correct _ _ _ Hw0).
      destruct (wgt (cand x y) (cand x0 y)) eqn:Hgt; cbn [fst snd].
      * rewrite !lookup_insert_eq. split_and!; [apply elem_of_app; right; by left|done..|].
        intros x' [Hx'| ->%list_elem_of_singleton]%elem_of_app Hok';
          [|apply wgt_irrefl].
        specialize (Hmax0 x' Hx' Hok').
        pose proof (Hcand x' y (Hdone x' Hx') Hok') as [z' Hz']%isinf_false.
        rewrite Hz, Hz0, Hz' in *. simpl in *. lia.
      * rewrite Hd. split_and!; [done..|].
        intros x' [Hx'| ->%list_elem_of_singleton]%elem_of_app Hok'; auto.
    + rewrite decide_True by done. cbn [fst snd].
      rewrite !lookup_insert_eq. split_and!; [apply elem_of_app; right; by left|done..|].
      intros x' [Hx'| ->%list_elem_of_singleton]%elem_of_app Hok';
        [|apply wgt_irrefl].
      destruct Hbest as [Hnone|Hnone].
      * by rewrite (Hnone x' Hx') in Hok'.
      * rewrite (Hnone x') in Hok'; [done|]. apply elem_of_app. by left.
  - destruct (d.1 !! y) as [x0|] eqn:Hd.
    + destruct Hbest as [(? & ? & ? & Hall)|?]; [|done].
      split_and!; [apply elem_of_app; by left|done..|].
      intros x' [Hx'| ->%list_elem_of_singleton]%elem_of_app Hok'; [auto|].
      by rewrite Hok in Hok'.
    + destruct Hbest as [Hnone|?]; [|done].
      intros x' [Hx'| ->%list_elem_of_singleton]%elem_of_app; auto.
Qed.

Lemma best_of_kept done x y l d :
  x ∈ xs → (∀ x', x' ∈ done → x' ∈ xs) →
  best_of (done ++ [x]) y d →
  best_of (done ++ [x]) y (foldl (λ d y0, offer x y0 (ok x y0) (cand x y0) d) d l).
Proof.
  intros Hx Hdone. revert d; induction l as [|y0 l IH]; intros d Hd; [done|].
  simpl. apply IH. destruct (decide (y = y0)) as [<-|Hne].
  - apply best_of_offer; auto.
  - by apply best_of_other.
Qed.

Lemma best_of_offers done x y d :
  x ∈ xs → (∀ x', x' ∈ done → x' ∈ xs) → y ∈ ys →
  best_of done y d → best_of (done ++ [x]) y (offers_of x d).
Proof.
  intros Hx Hdone. unfold offers_of. generalize ys.
  intros l; revert d; induction l as [|y0 l IH]; intros d Hy Hd.
  - by apply elem_of_nil in Hy.
  - simpl. destruct (decide (y = y0)) as [<-|Hne].
    + apply best_of_kept; [done..|]. apply best_of_offer; auto.
    + apply IH; [|by apply best_of_other].
      apply elem_of_cons in Hy as [?|?]; done.
Qed.

Lemma best_of_all_from done l y d :
  (∀ x, x ∈ done ++ l → x ∈ xs) → y ∈ ys →
  best_of done y d → best_of (done ++ l) y (foldl (λ d x, offers_of x d) d l).
Proof.
  revert done d; induction l as [|x l IH]; intros done d Hsub Hy Hd; simpl.
  - by rewrite app_nil_r.
  - replace (done ++ x :: l) with ((done ++ [x]) ++ l) by (by rewrite <-app_assoc).
    apply IH; [by rewrite <-app_assoc|done|].
    apply best_of_offers; [|intros x' Hx'|done..].
    + apply Hsub, elem_of_app. right. by left.
    + apply Hsub, elem_of_app. by left.
Qed.

Lemma best_of_all y : y ∈ ys → best_of xs y all_offers.
Proof.
  intros Hy. apply (best_of_all_from [] xs y (∅, ∅)); [done..|].
  unfold best_of. cbn [fst]. rewrite lookup_empty. by intros x ?%elem_of_nil.
Qed.
End offers.

Lemma build_edges_offers_to graph parents loop v_outside :
  (v_to_loop (build_edges graph parents loop v_outside),
   weight_to_loop (build_edges graph parents loop v_outside))
  = all_offers (λ x y, negb (isinf (mget graph x y)))
               (λ x y, wsub (mget graph x y) (mget graph x (parents !!! x)))
               loop v_outside.
Proof.
  unfold build_edges, all_offers.
  apply (foldl_project (λ e, (v_to_loop e, weight_to_loop e))).
  intros e x. unfold offers_of.
  apply (foldl_project (λ e, (v_to_loop e, weight_to_loop e))).
  intros e' y. apply merge_edge_offers_to.
Qed.

Lemma build_edges_offers_from graph parents loop v_outside :
  (loop_to_v (build_edges graph parents loop v_outside),
   weight_from_loop (build_edges graph parents loop v_outside))
  = all_offers (λ x y, negb (isinf (mget graph y x))) (λ x y, mget graph y x)
               loop v_outside.
Proof.
  unfold build_edges, all_offers.
  apply (foldl_project (λ e, (loop_to_v e, weight_from_loop e))).
  intros e x. unfold offers_of.
  apply (foldl_project (λ e, (loop_to_v e, weight_from_loop e))).
  intros e' y. apply merge_edge_offers_from.
Qed.

(** The edge of the merged graph from an outside node [y] into the merged
    node: [-inf] when [y] has no edge into the loop; otherwise the largest
    of [graph[x,y] - graph[x,parents[x]]] over the loop nodes [x] that [y]
    has an edge to, and [v_to_loop[y]] is a loop node where it is attained. *)
Theorem merge_nodes_best_edge_into_loop
    (graph : list (list weight)) (parents : list nat) (n : nat)
    (loop : list nat) (y : nat) :
  NoDup loop → (∀ x, x ∈ loop → x < n) → 0 < length loop →
  (∀ x, x ∈ loop → isinf (mget graph x (parents !!! x)) = false) →
  y < n → y ∉ loop →
  let m := merge_nodes graph parents n loop (filter (λ i, i ∉ loop) (seq 0 n)) in
  let adjusted x := wsub (mget graph x y) (mget graph x (parents !!! x)) in
  let w := mget (graph_new m) (n - length loop) (v_map m !!! y) in
  (w = NegInf ∧ ∀ x, x ∈ loop → isinf (mget graph x y) = true) ∨
  (∃ x, x ∈ loop ∧ isinf (mget graph x y) = false ∧
        v_to_loop (edges m) !! y = Some x ∧ w = adjusted x ∧
        ∀ x', x' ∈ loop → isinf (mget graph x' y) = false →
              wgt (adjusted x') (adjusted x) = false).
Proof.
  intros Hnd Hrange Hlen Hparent Hy Hyo m adjusted w.
  pose proof (length_outside n loop Hnd Hrange) as Hout.
  assert (y ∈ outside n loop) as HyO by (by apply elem_of_outside).
  pose proof (rank_lt n loop y Hy Hyo) as Hrank.
  assert (w = if decide (is_Some (v_to_loop (edges m) !! y))
              then weight_to_loop (edges m) !!! y else NegInf) as Hw.
  { unfold w, m. fold (outside n loop).
    rewrite v_map_outside by done.
    replace (n - length loop) with (length (outside n loop)) by lia.
    rewrite graph_new_into by done. by rewrite outside_total_rank. }
  pose proof (best_of_all (λ x y, negb (isinf (mget graph x y)))
                (λ x y, wsub (mget graph x y) (mget graph x (parents !!! x)))
                loop (outside n loop)) as Hbest.
  rewrite <-build_edges_offers_to in Hbest.
  specialize (Hbest ltac:(intros x y0 Hx [z ->]%negb_true_iff%isinf_false;
                          by destruct (isinf_false _ (Hparent x Hx)) as [z' ->])
                    y HyO).
  unfold best_of in Hbest. cbn [fst snd] in Hbest.
  change (build_edges graph parents loop (outside n loop)) with (edges m) in Hbest.
  destruct (v_to_loop (edges m) !! y) as [x|] eqn:Hx.
  - right. destruct Hbest as (Hxl & Hok & Hweight & Hmax).
    exists x. split_and!; [done|by apply negb_true_iff in Hok|done| |].
    + rewrite Hw, decide_True by done. by apply lookup_total_correct.
    + intros x' Hx' Hfin. apply Hmax; [done|]. by rewrite Hfin.
  - left. split.
    + rewrite Hw, decide_False; [done|]. by intros [? ?].
    + intros x Hxl. specialize (Hbest x Hxl). by apply negb_false_iff in Hbest.
Qed.

Lemma merge_nodes_best_edge_into_loop_witness :
  let m := merge_nodes three_cycle [0; 3; 1; 2] 4 [1; 2; 3]
             (filter (λ i, i ∉ [1; 2; 3]) (seq 0 4)) in
  let adjusted x :=
    wsub (mget three_cycle x 0) (mget three_cycle x ([0; 3; 1; 2] !!! x)) in
  let w := mget (graph_new m) (4 - length [1; 2; 3]) (v_map m !!! 0) in
  (w = NegInf ∧ ∀ x, x ∈ [1; 2; 3] → isinf (mget three_cycle x 0) = true) ∨
  (∃ x, x ∈ [1; 2; 3] ∧ isinf (mget three_cycle x 0) = false ∧
        v_to_loop (edges m) !! 0 = Some x ∧ w = adjusted x ∧
        ∀ x', x' ∈ [1; 2; 3] → isinf (mget three_cycle x' 0) = false →
              wgt (adjusted x') (adjusted x) = false).
Proof.
  apply (merge_nodes_best_edge_into_loop three_cycle [0; 3; 1; 2] 4 [1; 2; 3] 0).
  - by apply (bool_decide_unpack _).
  - intros x Hx. repeat (apply elem_of_cons in Hx as [->|Hx]; [lia|]).
    by apply elem_of_nil in Hx.
  - simpl. lia.
  - intros x Hx. repeat (apply elem_of_cons in Hx as [->|Hx]; [reflexivity|]).
    by apply elem_of_nil in Hx.
  - lia.
  - by apply (bool_decide_unpack _).
Defined.

(** The edge of the merged graph from the merged node to an outside node
    [y]: [-inf] when no loop node has an edge to [y]; otherwise the largest
    weight [graph[y,x]] of an edge from a loop node [x], and [loop_to_v[y]]
    is a loop node where it is attained. *)
Theorem merge_nodes_best_edge_from_loop
    (graph : list (list weight)) (parents : list nat) (n : nat)
    (loop : list nat) (y : nat) :
  NoDup loop → (∀ x, x ∈ loop → x < n) → 0 < length loop →
  y < n → y ∉ loop →
  let m := merge_nodes graph parents n loop (filter (λ i, i ∉ loop) (seq 0 n)) in
  let w := mget (graph_new m) (v_map m !!! y) (n - length loop) in
  (w = NegInf ∧ ∀ x, x ∈ loop → isinf (mget graph y x) = true) ∨
  (∃ x, x ∈ loop ∧ isinf (mget graph y x) = false ∧
        loop_to_v (edges m) !! y = Some x ∧ w = mget graph y x ∧
        ∀ x', x' ∈ loop → wgt (mget graph y x') (mget graph y x) = false).
Proof.
  intros Hnd Hrange Hlen Hy Hyo m w.
  pose proof (length_outside n loop Hnd Hrange) as Hout.
  assert (y ∈ outside n loop) as HyO by (by apply elem_of_outside).
  pose proof (rank_lt n loop y Hy Hyo) as Hrank.
  assert (w = if decide (is_Some (loop_to_v (edges m) !! y))
              then weight_from_loop (edges m) !!! y else NegInf) as Hw.
  { unfold w, m. fold (outside n loop).
    rewrite v_map_outside by done.
    replace (n - length loop) with (length (outside n loop)) by lia.
    rewrite graph_new_out by done. by rewrite outside_total_rank. }
  pose proof (best_of_all (λ x y, negb (isinf (mget graph y x)))
                (λ x y, mget graph y x) loop (outside n loop)) as Hbest.
  rewrite <-(build_edges_offers_from graph parents loop (outside n loop)) in Hbest.
  specialize (Hbest ltac:(by intros x y0 _ ?%negb_true_iff) y HyO).
  unfold best_of in Hbest. cbn [fst snd] in Hbest.
  change (build_edges graph parents loop (outside n loop)) with (edges m) in Hbest.
  destruct (loop_to_v (edges m) !! y) as [x|] eqn:Hx.
  - right. destruct Hbest as (Hxl & Hok & Hweight & Hmax).
    exists x. split_and!; [done|by apply negb_true_iff in Hok|done| |].
    + rewrite Hw, decide_True by done. by apply lookup_total_correct.
    + intros x' Hx'. destruct (isinf (mget graph y x')) eqn:Hfin.
      * by destruct (mget graph y x').
      * apply Hmax; [done|]. by rewrite Hfin.
  - left. split.
    + rewrite Hw, decide_False; [done|]. by intros [? ?].
    + intros x Hxl. specialize (Hbest x Hxl). by apply negb_false_iff in Hbest.
Qed.

Lemma merge_nodes_best_edge_from_loop_witness :
  let m := merge_nodes three_cycle [0; 3; 1; 2] 4 [1; 2; 3]
             (filter (λ i, i ∉ [1; 2; 3]) (seq 0 4)) in
  let w := mget (graph_new m) (v_map m !!! 0) (4 - length [1; 2; 3]) in
  (w = NegInf ∧ ∀ x, x ∈ [1; 2; 3] → isinf (mget three_cycle 0 x) = true) ∨
  (∃ x, x ∈ [1; 2; 3] ∧ isinf (mget three_cycle 0 x) = false ∧
        loop_to_v (edges m) !! 0 = Some x ∧ w = mget three_cycle 0 x ∧
        ∀ x', x' ∈ [1; 2; 3] →
              wgt (mget three_cycle 0 x') (mget three_cycle 0 x) = false).
Proof.
  apply (merge_nodes_best_edge_from_loop three_cycle [0; 3; 1; 2] 4 [1; 2; 3] 0).
  - by apply (bool_decide_unpack _).
  - intros x Hx. repeat (apply elem_of_cons in Hx as [->|Hx]; [lia|]).
    by apply elem_of_nil in Hx.
  - simpl. lia.
  - lia.
  - by apply (bool_decide_unpack _).
Defined.
End solver_properties.

(** ** Connectivity check ([adj_matrix_to_list], [check_connected]) *)

Module Connect.
Import Arbor.

(** A [for] loop whose body can raise. *)
Fixpoint rfoldl {A B} (f : A → B → result A) (a : A) (l : list B) : result A :=
  match l with
  | [] => Ok a
  | b :: l' => a' <- f a b ;; rfoldl f a' l'
  end.

(** [np.where(~(np.isinf(A[i])))[0]] *)
Definition idx_noninf (row : list weight) : list nat :=
  filter (λ j, isinf (row !!! j) = false) (seq 0 (length row)).

(** [adj_list[par].append(i)]; a missing key raises [KeyError]. *)
Definition append_child (i : nat) (adj_list : gmap nat (list nat)) (par : nat)
    : result (gmap nat (list nat)) :=
  l <- of_option KeyError (adj_list !! par) ;;
  Ok (<[par := l ++ [i]]> adj_list).

Definition adj_matrix_to_list (A : list (list weight))
    : result (gmap nat (list nat)) :=
  let n_type := length A in
  let adj_list := foldl (λ adj i, <[i := []]> adj) ∅ (seq 0 n_type) in
  rfoldl (λ adj i, rfoldl (append_child i) adj (idx_noninf (A !!! i)))
         adj_list (seq 0 n_type).

(** The body of [for child in adj_list[ptr]]: the queue and [checked]. *)
Definition visit (st : list nat * list bool) (child : nat)
    : result (list nat * list bool) :=
  c <- of_option IndexError (st.2 !! child) ;;
  if (c : bool) then Ok st
  else Ok (st.1 ++ [child], <[child := true]> st.2).

(** The [while(len(queue)>0)] loop. A node joins the queue only when it is
    marked, and is marked once, so [n_nodes + 1] turns are enough. *)
Fixpoint search (fuel : nat) (adj_list : gmap nat (list nat))
    (queue : list nat) (checked : list bool) : result (list bool) :=
  match fuel with
  | O => Raise OutOfFuel
  | S fuel' =>
      match queue with
      | [] => Ok checked
      | ptr :: queue =>
          children <- of_option KeyError (adj_list !! ptr) ;;
          st <- rfoldl visit (queue, checked) children ;;
          search fuel' adj_list st.1 st.2
      end
  end.

Definition check_connected (adj_list : gmap nat (list nat)) (root n_nodes : nat)
    : result bool :=
  let checked := replicate n_nodes false in
  if decide (n_nodes ≤ root) then Raise IndexError else
  let checked := <[root := true]> checked in
  checked <- search (S n_nodes) adj_list [root] checked ;;
  Ok (forallb id checked).

End Connect.

Section connect_facts.
Import Arbor Connect.

Lemma rfoldl_app {A B} (f : A → B → result A) a l1 l2 :
  rfoldl f a (l1 ++ l2) = (a' <- rfoldl f a l1 ;; rfoldl f a' l2).
Proof.
  revert a; induction l1 as [|b l1 IH]; intros a; simpl; [done|].
  destruct (f a b); simpl; [apply IH|done].
Qed.

Lemma init_adj_lookup n p :
  foldl (λ (adj : gmap nat (list nat)) i, <[i := []]> adj) ∅ (seq 0 n) !! p
  = if decide (p < n) then Some [] else None.
Proof.
  induction n as [|n IH].
  - simpl. by rewrite lookup_empty.
  - rewrite seq_S, foldl_app. cbn [foldl Nat.add].
    destruct (decide (p = n)) as [-> |Hne].
    + rewrite lookup_insert_eq. destruct (decide (n < S n)); [done|lia].
    + rewrite lookup_insert_ne by done. rewrite IH.
      repeat case_decide; (done || lia).
Qed.

(** One row of the matrix: [i] is appended to the list of every column where
    the row has an edge. *)
Lemma append_children i adj pars :
  NoDup pars → (∀ p, p ∈ pars → is_Some (adj !! p)) →
  ∃ adj', rfoldl (append_child i) adj pars = Ok adj' ∧
    ∀ p, adj' !! p = if decide (p ∈ pars) then (λ l, l ++ [i]) <$> adj !! p
                     else adj !! p.
Proof.
  revert adj; induction pars as [|par pars IH]; intros adj Hnd Hdom; cbn [rfoldl].
  - exists adj. split; [done|]. intros p.
    case_decide as Hin; [by apply elem_of_nil in Hin|done].
  - apply NoDup_cons in Hnd as [Hpar Hnd].
    destruct (Hdom par ltac:(left)) as [l Hl].
    unfold append_child at 1. rewrite Hl. cbn [of_option rbind].
    destruct (IH (<[par := l ++ [i]]> adj) Hnd) as (adj' & -> & Hadj').
    { intros p Hp. destruct (decide (p = par)) as [-> |Hne].
      - rewrite lookup_insert_eq. eauto.
      - rewrite lookup_insert_ne by done. apply Hdom. by right. }
    exists adj'. split; [done|]. intros p. rewrite Hadj'.
    destruct (decide (p = par)) as [-> |Hne].
    + rewrite decide_False by done. rewrite (decide_True (P := par ∈ par :: pars)) by left.
      by rewrite lookup_insert_eq, Hl.
    + rewrite lookup_insert_ne by done.
      destruct (decide (p ∈ pars)) as [Hin|Hin].
      * by rewrite decide_True by (by right).
      * rewrite decide_False; [done|]. by intros [?|?]%elem_of_cons.
Qed.

Lemma elem_of_idx_noninf row j :
  j ∈ idx_noninf row ↔ j < length row ∧ isinf (row !!! j) = false.
Proof.
  unfold idx_noninf. rewrite list_elem_of_filter, elem_of_seq.
  split; intros [? ?]; split; (done || lia).
Qed.

Lemma adj_rows n A t :
  square n A → t ≤ n →
  ∃ adj,
    rfoldl (λ adj i, rfoldl (append_child i) adj (idx_noninf (A !!! i)))
           (foldl (λ adj i, <[i := []]> adj) ∅ (seq 0 n)) (seq 0 t) = Ok adj ∧
    ∀ p, adj !! p =
         if decide (p < n)
         then Some (filter (λ i, isinf (mget A i p) = false) (seq 0 t))
         else None.
Proof.
  intros Hsq. induction t as [|t IH]; intros Ht.
  - eexists. split; [done|]. intros p. by rewrite init_adj_lookup.
  - destruct IH as (adj & Hadj & Hlook); [lia|].
    rewrite seq_S, rfoldl_app, Hadj. cbn [rbind rfoldl Nat.add].
    pose proof (square_row_length n A t Hsq ltac:(lia)) as Hrow.
    destruct (append_children t adj (idx_noninf (A !!! t))) as (adj' & -> & Hadj').
    { apply NoDup_filter, NoDup_seq. }
    { intros p [Hp _]%elem_of_idx_noninf. rewrite Hlook.
      rewrite decide_True by lia. eauto. }
    exists adj'. split; [done|]. intros p. rewrite Hadj', Hlook.
    destruct (decide (p < n)) as [Hp|Hp].
    + rewrite filter_app.
      destruct (decide (p ∈ idx_noninf (A !!! t))) as [Hin|Hin].
      * apply elem_of_idx_noninf in Hin as [_ Hfin].
        rewrite filter_cons_True by done. done.
      * rewrite filter_cons_False; [by rewrite app_nil_r|].
        intros Hfin. apply Hin, elem_of_idx_noninf. split; [lia|done].
    + rewrite decide_False; [done|].
      intros [? _]%elem_of_idx_noninf. lia.
Qed.

Lemma adj_matrix_to_list_spec n A :
  square n A →
  ∃ adj,
    adj_matrix_to_list A = Ok adj ∧
    ∀ p, adj !! p =
         if decide (p < n)
         then Some (filter (λ i, isinf (mget A i p) = false) (seq 0 n))
         else None.
Proof.
  intros Hsq. unfold adj_matrix_to_list. destruct (Hsq) as [-> _].
  by apply adj_rows.
Qed.

Section search_facts.
Variable adj : gmap nat (list nat).
Variable n root : nat.
Hypothesis Hdom : ∀ p, p < n → is_Some (adj !! p).
Hypothesis Hrange : ∀ p l c, adj !! p = Some l → c ∈ l → c < n.
Hypothesis Hroot : root < n.

(** [c] is on the children list of [p]. *)
Definition listed (p c : nat) : Prop := ∃ l, adj !! p = Some l ∧ c ∈ l.

(** What the search keeps: the marked nodes can be reached from the root,
    and a marked node is still in the queue or has all its children
    marked. *)
Record searching (pending : list nat) (checked : list bool) : Prop := {
  sr_length : length checked = n;
  sr_root : checked !! root = Some true;
  sr_pending : ∀ x, x ∈ pending → checked !! x = Some true;
  sr_sound : ∀ x, checked !! x = Some true → rtc listed root x;
  sr_closed : ∀ x, checked !! x = Some true →
      x ∈ pending ∨ ∀ c, listed x c → checked !! c = Some true;
}.

Lemma mark_lookup (checked : list bool) c x :
  c < length checked →
  <[c := true]> checked !! x = if decide (x = c) then Some true else checked !! x.
Proof.
  intros Hc. case_decide as Hx.
  - subst x. by apply list_lookup_insert_eq.
  - by apply list_lookup_insert_ne.
Qed.

Lemma visit_children ptr cs q ch :
  (∀ c, c ∈ cs → listed ptr c) →
  searching (ptr :: q) ch →
  ∃ q' ch',
    rfoldl visit (q, ch) cs = Ok (q', ch') ∧
    searching (ptr :: q') ch' ∧
    (∀ x, ch !! x = Some true → ch' !! x = Some true) ∧
    (∀ c, c ∈ cs → ch' !! c = Some true) ∧
    length q' + unchecked ch' = length q + unchecked ch.
Proof.
  revert q ch; induction cs as [|c cs IH]; intros q ch Hcs Hinv; cbn [rfoldl].
  - exists q, ch. split_and!; [done..| |done]. by intros c ?%elem_of_nil.
  - pose proof (Hcs c ltac:(left)) as Hedge.
    assert (c < n) as Hc by (destruct Hedge as (l & Hl & Hin); eauto).
    pose proof (sr_length _ _ Hinv) as Hlen.
    destruct (ch !! c) as [b|] eqn:Hb;
      [|apply lookup_ge_None in Hb; lia].
    unfold visit at 1. cbn [snd fst]. rewrite Hb. cbn [of_option rbind].
    destruct b; cbn [rbind].
    + destruct (IH q ch) as (q' & ch' & -> & Hinv' & Hmono & Hall & Hmeasure);
        [intros; apply Hcs; by right|done|].
      exists q', ch'. split_and!; [done..| |done].
      intros c' [-> |?]%elem_of_cons; [by apply Hmono|by apply Hall].
    + destruct (IH (q ++ [c]) (<[c := true]> ch))
        as (q' & ch' & -> & Hinv' & Hmono & Hall & Hmeasure).
      { intros; apply Hcs; by right. }
      { destruct Hinv as [_ Hr Hpend Hsound Hclosed]. split.
        - by rewrite length_insert.
        - rewrite mark_lookup by lia. by case_decide.
        - intros x Hx. rewrite mark_lookup by lia. case_decide; [done|].
          apply Hpend. rewrite app_comm_cons in Hx.
          apply elem_of_app in Hx as [?| ->%list_elem_of_singleton]; done.
        - intros x. rewrite mark_lookup by lia. case_decide as Hx.
          + intros _. subst x. eapply rtc_r; [apply Hsound, Hpend; by left|done].
          + apply Hsound.
        - intros x. rewrite mark_lookup by lia. case_decide as Hx.
          + intros _. left. subst x. rewrite app_comm_cons.
            apply elem_of_app. right. by left.
          + intros Hchecked. destruct (Hclosed x Hchecked) as [Hin|Hch].
            * left. rewrite app_comm_cons. apply elem_of_app. by left.
            * right. intros c' Hc'. rewrite mark_lookup by lia.
              case_decide; [done|by apply Hch]. }
      exists q', ch'. split_and!; [done..| | |].
      * intros x Hx. apply Hmono. rewrite mark_lookup by lia. by case_decide.
      * intros c' [-> |?]%elem_of_cons; [|by apply Hall].
        apply Hmono. rewrite mark_lookup by lia. by rewrite decide_True.
      * rewrite Hmeasure, length_app. simpl.
        pose proof (unchecked_insert ch c Hb). lia.
Qed.

Lemma search_spec fuel q ch :
  searching q ch → length q + unchecked ch < fuel →
  ∃ ch', search fuel adj q ch = Ok ch' ∧ searching [] ch'.
Proof.
  revert q ch; induction fuel as [|fuel IH]; intros q ch Hinv Hfuel; [lia|].
  cbn [search]. destruct q as [|ptr q]; [by exists ch|].
  pose proof (sr_pending _ _ Hinv ptr ltac:(left)) as Hptr.
  pose proof (lookup_lt_Some _ _ _ Hptr) as Hlt.
  rewrite (sr_length _ _ Hinv) in Hlt.
  destruct (Hdom ptr Hlt) as [cs Hcs]. rewrite Hcs. cbn [of_option rbind].
  destruct (visit_children ptr cs q ch) as (q' & ch' & -> & Hinv' & _ & Hall & Hm);
    [by exists cs|done|].
  cbn [rbind fst snd]. apply IH; [|simpl in Hfuel; lia].
  destruct Hinv' as [Hl Hr Hpend Hsound Hclosed]. split; [done..| | |].
  - intros x Hx. apply Hpend. by right.
  - done.
  - intros x Hx. destruct (Hclosed x Hx) as [[-> |?]%elem_of_cons|?]; [|by left|by right].
    right. intros c (l & Hl' & Hc). apply Hall. congruence.
Qed.

Lemma searching_start :
  searching [root] (<[root := true]> (replicate n false)).
Proof.
  split.
  - by rewrite length_insert, length_replicate.
  - apply list_lookup_insert_eq. by rewrite length_replicate.
  - intros x ->%list_elem_of_singleton.
    apply list_lookup_insert_eq. by rewrite length_replicate.
  - intros x. rewrite mark_lookup by (by rewrite length_replicate).
    case_decide as Hx; [by subst x|].
    by intros [? _]%lookup_replicate.
  - intros x. rewrite mark_lookup by (by rewrite length_replicate).
    case_decide as Hx; [subst x; left; by left|].
    by intros [? _]%lookup_replicate.
Qed.

Lemma forallb_id_lookup (l : list bool) :
  forallb id l = true ↔ ∀ i, i < length l → l !! i = Some true.
Proof.
  induction l as [|b l IH]; simpl.
  - split; [intros _ i ?; lia|done].
  - rewrite andb_true_iff, IH. unfold id. split.
    + intros [-> Hl] [|i] Hi; simpl; [done|]. apply Hl. lia.
    + intros Hl. split.
      * specialize (Hl 0 ltac:(lia)). by injection Hl.
      * intros i Hi. apply (Hl (S i)). lia.
Qed.

Lemma finished_all_reached ch :
  searching [] ch →
  forallb id ch = true ↔ ∀ v, v < n → rtc listed root v.
Proof.
  intros [Hl Hr Hpend Hsound Hclosed]. rewrite forallb_id_lookup, Hl. split.
  - intros Hall v Hv. by apply Hsound, Hall.
  - intros Hreach v Hv. specialize (Hreach v Hv). clear Hv. revert v Hreach.
    apply (rtc_ind_r (λ v, ch !! v = Some true)); [done|].
    intros x y _ Hxy Hx. destruct (Hclosed x Hx) as [?%elem_of_nil|Hch]; [done|].
    by apply Hch.
Qed.

Lemma check_connected_spec :
  ∃ b, check_connected adj root n = Ok b ∧
       (b = true ↔ ∀ v, v < n → rtc listed root v).
Proof.
  unfold check_connected. rewrite decide_False by lia.
  destruct (search_spec (S n) [root] (<[root := true]> (replicate n false)))
    as (ch & -> & Hfinal).
  - apply searching_start.
  - simpl. assert (replicate n false !! root = Some false) as Hfalse
      by (by apply lookup_replicate).
    pose proof (unchecked_insert _ _ Hfalse) as Hun.
    rewrite unchecked_replicate in Hun. lia.
  - cbn [rbind]. eexists. split; [done|]. by apply finished_all_reached.
Qed.
End search_facts.

Lemma listed_has_edge n A adj :
  square n A →
  (∀ p, adj !! p =
        if decide (p < n)
        then Some (filter (λ i, isinf (mget A i p) = false) (seq 0 n))
        else None) →
  ∀ p c, listed adj p c ↔ has_edge A p c.
Proof.
  intros Hsq Hadj p c. unfold listed. rewrite Hadj. split.
  - intros (l & Hl & Hc). case_decide; [|done]. injection Hl as <-.
    by apply list_elem_of_filter in Hc as [? _].
  - intros Hedge. destruct (has_edge_range _ _ _ _ Hsq Hedge) as [Hp Hc].
    rewrite decide_True by done. eexists. split; [done|].
    apply list_elem_of_filter. split; [done|]. apply elem_of_seq. lia.
Qed.

(** [adj_matrix_to_list] on a square matrix raises nothing; the list of a
    node holds, in increasing order, the nodes it has an edge to (the rows
    whose entry in the node's column is not [-inf]), and the dictionary has
    exactly the keys [0 .. n_type-1]. *)
Theorem adj_matrix_to_list_children (n : nat) (A : list (list weight)) :
  square n A →
  ∃ adj_list,
    adj_matrix_to_list A = Ok adj_list ∧
    ∀ p, adj_list !! p =
         if decide (p < n)
         then Some (filter (λ i, isinf (mget A i p) = false) (seq 0 n))
         else None.
Proof. apply adj_matrix_to_list_spec. Qed.

Lemma adj_matrix_to_list_children_witness :
  ∃ adj_list,
    adj_matrix_to_list three_cycle = Ok adj_list ∧
    ∀ p, adj_list !! p =
         if decide (p < 4)
         then Some (filter (λ i, isinf (mget three_cycle i p) = false) (seq 0 4))
         else None.
Proof.
  apply (adj_matrix_to_list_children 4 three_cycle).
  split; [reflexivity|]. repeat constructor.
Defined.

Lemma check_connected_iff_reachable n A root :
  square n A → root < n →
  ∃ adj_list b,
    adj_matrix_to_list A = Ok adj_list ∧
    check_connected adj_list root n = Ok b ∧
    (b = true ↔ ∀ v, v < n → reachable A root v).
Proof.
  intros Hsq Hroot.
  destruct (adj_matrix_to_list_spec n A Hsq) as (adj & Hadj & Hlook).
  destruct (check_connected_spec adj n root) as (b & Hb & Hiff).
  - intros p Hp. rewrite Hlook, decide_True by done. eauto.
  - intros p l c. rewrite Hlook. case_decide; [|done]. intros [= <-].
    intros [_ ?%elem_of_seq]%list_elem_of_filter. lia.
  - done.
  - exists adj, b. split_and!; [done..|]. rewrite Hiff.
    pose proof (listed_has_edge n A adj Hsq Hlook) as Hrel.
    unfold reachable.
    split; intros Hall v Hv; (eapply rtc_subrel; [|by apply Hall]);
      intros x y; by apply Hrel.
Qed.

(** [check_connected] on the lists of [adj_matrix_to_list] raises nothing
    and answers [True] exactly when every node can be reached from the root
    along edges of the matrix. *)
Theorem check_connected_iff_all_reachable
    (n : nat) (A : list (list weight)) (root : nat) :
  square n A → root < n →
  ∃ adj_list b,
    adj_matrix_to_list A = Ok adj_list ∧
    check_connected adj_list root n = Ok b ∧
    (b = true ↔ ∀ v, v < n → reachable A root v).
Proof. intros. by apply check_connected_iff_reachable. Qed.

Lemma check_connected_iff_all_reachable_witness :
  ∃ adj_list b,
    adj_matrix_to_list three_cycle = Ok adj_list ∧
    check_connected adj_list 0 4 = Ok b ∧
    (b = true ↔ ∀ v, v < 4 → reachable three_cycle 0 v).
Proof.
  apply (check_connected_iff_all_reachable 4 three_cycle 0).
  - split; [reflexivity|]. repeat constructor.
  - lia.
Defined.

(** The connected branch of [compute_transition_deterministic]: when the
    graph of a partition has no self edge and [check_connected] answers
    [True], [edmond_chu_liu] returns, and what it returns is a tree on the
    partition rooted at [root] (with the root's self-loop). *)
Theorem connected_partition_gets_a_tree
    (rnd : nat → nat) (k : nat) (n : nat) (graph_part : list (list weight))
    (root : nat) (adj_list : gmap nat (list nat)) :
  square n graph_part → root < n →
  (∀ i, i < n → mget graph_part i i = NegInf) →
  adj_matrix_to_list graph_part = Ok adj_list →
  check_connected adj_list root n = Ok true →
  ∃ k' graph' mst_part,
    edmond_chu_liu rnd k graph_part root = Ok (k', graph', mst_part) ∧
    arborescence_with_root_loop n root mst_part.
Proof.
  intros Hsq Hroot Hdiag Hadj Hconn.
  destruct (check_connected_iff_reachable n graph_part root Hsq Hroot)
    as (adj & b & Hadj' & Hb & Hiff).
  rewrite Hadj in Hadj'. injection Hadj' as <-.
  rewrite Hconn in Hb. injection Hb as <-.
  assert (∀ i, mget graph_part i i = NegInf) as Hdiag'.
  { intros i. destruct (decide (i < n)) as [Hi|Hi]; [by apply Hdiag|].
    rewrite (mget_out_of_range n); [done|done|lia]. }
  destruct (ecl_good rnd (S (length graph_part)) n graph_part root k Hsq Hroot Hdiag')
    as (k' & ps & mst & Hrun & Hgood).
  { by apply Hiff. }
  { destruct Hsq as [-> _]. lia. }
  exists k', (cleared graph_part root), mst. split; [done|].
  by apply (tree_arborescence n root (cleared graph_part root) ps).
Qed.

Lemma connected_partition_gets_a_tree_witness :
  ∃ k' graph' mst_part,
    edmond_chu_liu (λ _, 0) 0 three_cycle 0 = Ok (k', graph', mst_part) ∧
    arborescence_with_root_loop 4 0 mst_part.
Proof.
  eapply (connected_partition_gets_a_tree (λ _, 0) 0 4 three_cycle 0).
  - split; [reflexivity|]. repeat constructor.
  - lia.
  - intros i Hi. do 4 (destruct i as [|i]; [reflexivity|]). lia.
  - vm_compute. reflexivity.
  - vm_compute. reflexivity.
Defined.
End connect_facts.

(** ** Labels and graphs as integers ([encode_type], [str2int], [int2str],
       [encode_graph], [TransGraph.__init__]) *)

Module Labels.
Import Encode.

(** [self.n_type = len(cell_types_raw)] *)
Definition TransGraph_n_type (cell_labels_raw : list string) : nat :=
  length (TransGraph_cell_types_raw cell_labels_raw).

(** [self.cell_types =
      np.array([self.label_dic[cell_types_raw[i]] for i in range(self.n_type)])] *)
Definition TransGraph_cell_types (cell_labels_raw : list string) : result (list nat) :=
  rmap (λ i,
          t <- of_option IndexError (TransGraph_cell_types_raw cell_labels_raw !! i) ;;
          of_option KeyError (TransGraph_label_dic cell_labels_raw !! t))
       (seq 0 (TransGraph_n_type cell_labels_raw)).

(** A Python dictionary as its items in insertion order; [d[k] = v] replaces
    the value of a key that is there and appends a new key. *)
Definition dict_set {K V} `{EqDecision K} (k : K) (v : V) (d : list (K * V))
    : list (K * V) :=
  if decide (k ∈ d.*1) then (λ kv, if decide (kv.1 = k) then (k, v) else kv) <$> d
  else d ++ [(k, v)].

(** [[label_dic[x] for x in names]] *)
Definition encode_names (label_dic : gmap string nat) (names : list string)
    : result (list nat) :=
  rmap (λ x, of_option KeyError (label_dic !! x)) names.

(** The [for type_ in graph_raw.keys()] loop of [encode_graph]: the right
    side of the assignment is evaluated before the key on its left. *)
Fixpoint encode_graph_loop (label_dic : gmap string nat)
    (graph_raw : list (string * list string)) (graph_enc : list (nat * list nat))
    : result (list (nat * list nat)) :=
  match graph_raw with
  | [] => Ok graph_enc
  | (type_, children) :: rest =>
      enc <- encode_names label_dic children ;;
      key <- of_option KeyError (label_dic !! type_) ;;
      encode_graph_loop label_dic rest (dict_set key enc graph_enc)
  end.

Definition encode_graph (graph_raw : list (string * list string))
    (init_types_raw : list string) (label_dic : gmap string nat)
    : result (list (nat * list nat) * list nat) :=
  graph_enc <- encode_graph_loop label_dic graph_raw [] ;;
  init_types_enc <- encode_names label_dic init_types_raw ;;
  Ok (graph_enc, init_types_enc).

End Labels.

Section label_properties.
Import Encode Labels.

Lemma encode_loop_rev l i d dr k t :
  l !! k = Some t → (encode_loop i l d dr).2 !! (i + k) = Some t.
Proof.
  revert i d dr k; induction l as [|a l IH]; intros i d dr k; [done|].
  destruct k as [|k]; simpl.
  - intros [= ->]. rewrite Nat.add_0_r, encode_loop_below by lia.
    apply lookup_insert_eq.
  - intros Hk. replace (i + S k) with (S i + k) by lia. by apply IH.
Qed.

Lemma encode_loop_rev_above l i d dr j :
  i + length l ≤ j → (encode_loop i l d dr).2 !! j = dr !! j.
Proof.
  revert i d dr; induction l as [|a l IH]; intros i d dr Hj; simpl in *; [done|].
  rewrite IH by lia. apply lookup_insert_ne. lia.
Qed.

Lemma encode_loop_last l i d dr t :
  t ∈ l →
  ∃ k, l !! k = Some t ∧ (encode_loop i l d dr).1 !! t = Some (i + k) ∧
       ∀ k', l !! k' = Some t → k' ≤ k.
Proof.
  revert i d dr; induction l as [|a l IH]; intros i d dr Ht.
  - by apply elem_of_nil in Ht.
  - simpl. destruct (decide (t ∈ l)) as [Hin|Hout].
    + destruct (IH (S i) (<[a := i]> d) (<[i := a]> dr) Hin) as (k & Hk & Hcode & Hlast).
      exists (S k). split_and!; [done| |].
      * rewrite Hcode. f_equal. lia.
      * intros [|k'] Hk'; [lia|]. apply Hlast in Hk'. lia.
    + apply elem_of_cons in Ht as [->|?]; [|done].
      exists 0. split_and!; [done| |].
      * rewrite encode_loop_absent by done. rewrite lookup_insert_eq.
        f_equal. lia.
      * intros [|k'] Hk'; [lia|]. simpl in Hk'.
        by apply list_elem_of_lookup_2 in Hk'.
Qed.

(** [encode_type] on any list of types, repeated ones included:
    [label_dic_rev] is the list itself, [label_dic] sends a type to the
    index of its last occurrence, and neither dictionary has another key. *)
Theorem encode_type_last_occurrence (cell_types_raw : list string) :
  (∀ i, (encode_type cell_types_raw).2 !! i = cell_types_raw !! i) ∧
  (∀ t, t ∈ cell_types_raw →
        ∃ k, (encode_type cell_types_raw).1 !! t = Some k ∧
             cell_types_raw !! k = Some t ∧
             ∀ k', cell_types_raw !! k' = Some t → k' ≤ k) ∧
  (∀ t, t ∉ cell_types_raw → (encode_type cell_types_raw).1 !! t = None).
Proof.
  unfold encode_type. split_and!.
  - intros i. destruct (cell_types_raw !! i) as [t|] eqn:Hi.
    + by apply (encode_loop_rev cell_types_raw 0 ∅ ∅ i t).
    + apply lookup_ge_None in Hi.
      by rewrite encode_loop_rev_above by (simpl; lia).
  - intros t Ht.
    destruct (encode_loop_last cell_types_raw 0 ∅ ∅ t Ht) as (k & Hk & Hcode & Hlast).
    by exists k.
  - intros t Ht. by rewrite encode_loop_absent.
Qed.

Lemma rmap_dict_spec {K V} `{Countable K} (d : gmap K V) (l : list K) :
  match rmap (λ x, of_option KeyError (d !! x)) l with
  | Ok vs => Forall2 (λ k v, d !! k = Some v) l vs
  | Raise e => e = KeyError ∧ ∃ k, k ∈ l ∧ d !! k = None
  end.
Proof.
  induction l as [|k l IH]; cbn [rmap]; [constructor|].
  destruct (d !! k) as [v|] eqn:Hk; cbn [of_option rbind].
  - destruct (rmap _ l) as [vs|e]; cbn [rbind].
    + by constructor.
    + destruct IH as [-> (k' & Hk' & Hnone)]. split; [done|].
      exists k'. split; [by right|done].
  - split; [done|]. exists k. split; [by left|done].
Qed.

(** [str2int] and [int2str] translate entry by entry; the only exception
    they raise is [KeyError], and they raise it exactly when an entry is
    not a key of the dictionary. *)
Theorem str2int_int2str_raise_only_KeyError
    (cell_labels_raw : list string) (label_dic : gmap string nat)
    (cell_labels : list nat) (label_dic_rev : gmap nat string) :
  match str2int cell_labels_raw label_dic with
  | Ok codes => Forall2 (λ l c, label_dic !! l = Some c) cell_labels_raw codes
  | Raise e => e = KeyError ∧ ∃ l, l ∈ cell_labels_raw ∧ label_dic !! l = None
  end ∧
  match int2str cell_labels label_dic_rev with
  | Ok names => Forall2 (λ c l, label_dic_rev !! c = Some l) cell_labels names
  | Raise e => e = KeyError ∧ ∃ c, c ∈ cell_labels ∧ label_dic_rev !! c = None
  end.
Proof. split; apply rmap_dict_spec. Qed.

(** The constructor of [TransGraph] encodes every label array without an
    exception: [cell_labels] has one code per cell, every code is below
    [n_type], decoding the codes with [label_dic_rev] gives the labels back,
    and [cell_types] is [0, 1, ..., n_type-1]. *)
Theorem TransGraph_init_encodes_labels (cell_labels_raw : list string) :
  ∃ codes,
    TransGraph_cell_labels cell_labels_raw = Ok codes ∧
    length codes = length cell_labels_raw ∧
    Forall (λ c, c < TransGraph_n_type cell_labels_raw) codes ∧
    int2str codes (TransGraph_label_dic_rev cell_labels_raw) = Ok cell_labels_raw ∧
    TransGraph_cell_types cell_labels_raw
    = Ok (seq 0 (TransGraph_n_type cell_labels_raw)).
Proof.
  unfold TransGraph_cell_labels, TransGraph_label_dic, TransGraph_label_dic_rev,
    TransGraph_cell_types, TransGraph_n_type, TransGraph_cell_types_raw.
  set (types := np_unique cell_labels_raw).
  destruct (roundtrip_any types cell_labels_raw) as (codes & Hcodes & Hback).
  { intros l Hl. by apply elem_of_np_unique. }
  exists codes. split_and!; [done| | |done|].
  - by apply rmap_Ok_length in Hcodes.
  - apply Forall_lookup. intros i c Hc.
    pose proof (rmap_Ok_length _ _ _ Hcodes) as Hlen.
    destruct (cell_labels_raw !! i) as [l|] eqn:Hl;
      [|apply lookup_ge_None in Hl; apply lookup_lt_Some in Hc; lia].
    destruct (rmap_Ok_lookup _ _ _ _ _ Hcodes Hl) as (c' & Hc' & Hi).
    rewrite Hc in Hi. injection Hi as <-.
    destruct ((encode_type types).1 !! l) as [c'|] eqn:Hd; [|done].
    injection Hc' as <-.
    by destruct (encode_loop_consistent types 0 ∅ ∅ ltac:(done) l c' Hd).
  - assert (NoDup types) as Hnd by apply sorted_NoDup, np_unique_sorted.
    rewrite (rmap_all_Ok _ id); [by rewrite list_fmap_id|].
    intros i Hi%elem_of_seq.
    destruct (types !! i) as [t|] eqn:Ht;
      [|apply lookup_ge_None in Ht; lia].
    cbn [of_option rbind].
    destruct (encode_loop_index types 0 ∅ ∅ i t Hnd Ht) as [Hcode _].
    change (TransGraph_label_dic cell_labels_raw)
      with ((encode_loop 0 types ∅ ∅).1). by rewrite Hcode.
Qed.

(** *** [encode_graph] *)

Lemma encode_graph_loop_spec d graph_raw acc :
  match encode_graph_loop d graph_raw acc with
  | Ok _ =>
      ∀ t cs, (t, cs) ∈ graph_raw →
              is_Some (d !! t) ∧ ∀ c, c ∈ cs → is_Some (d !! c)
  | Raise e =>
      e = KeyError ∧
      ∃ name t cs, d !! name = None ∧ (t, cs) ∈ graph_raw ∧ (name = t ∨ name ∈ cs)
  end.
Proof.
  revert acc; induction graph_raw as [|[t cs] rest IH]; intros acc;
    cbn [encode_graph_loop].
  - by intros t cs ?%elem_of_nil.
  - pose proof (rmap_dict_spec d cs) as Hcs. fold (encode_names d cs) in Hcs.
    destruct (encode_names d cs) as [ks|e]; cbn [rbind].
    + destruct (d !! t) as [k|] eqn:Ht; cbn [of_option rbind].
      * specialize (IH (dict_set k ks acc)).
        destruct (encode_graph_loop d rest _) as [out|e].
        -- intros t' cs' [[= -> ->]|Hin]%elem_of_cons; [|by apply IH].
           split; [by rewrite Ht|]. intros c Hc.
           apply list_elem_of_lookup_1 in Hc as [i Hi].
           destruct (Forall2_lookup_l _ _ _ _ _ Hcs Hi) as (x & _ & ->). eauto.
        -- destruct IH as [-> (name & t' & cs' & ? & ? & ?)]. split; [done|].
           exists name, t', cs'. split_and!; [done|by right|done].
      * split; [done|]. exists t, t, cs. split_and!; [done|by left|by left].
    + destruct Hcs as [-> (c & Hc & Hnone)]. split; [done|].
      exists c, t, cs. split_and!; [done|by left|by right].
Qed.

(** [encode_graph] raises nothing but [KeyError], and raises it exactly when
    a type of the graph (a key or a child) or an initial type is not a key
    of [label_dic]; otherwise the initial types are encoded entry by
    entry. *)
Theorem encode_graph_raises_only_KeyError
    (graph_raw : list (string * list string)) (init_types_raw : list string)
    (label_dic : gmap string nat) :
  match encode_graph graph_raw init_types_raw label_dic with
  | Ok out =>
      (∀ t cs, (t, cs) ∈ graph_raw →
               is_Some (label_dic !! t) ∧ ∀ c, c ∈ cs → is_Some (label_dic !! c)) ∧
      Forall2 (λ l c, label_dic !! l = Some c) init_types_raw out.2
  | Raise e =>
      e = KeyError ∧
      ∃ name, label_dic !! name = None ∧
              (name ∈ init_types_raw ∨
               ∃ t cs, (t, cs) ∈ graph_raw ∧ (name = t ∨ name ∈ cs))
  end.
Proof.
  unfold encode_graph.
  pose proof (encode_graph_loop_spec label_dic graph_raw []) as Hloop.
  destruct (encode_graph_loop label_dic graph_raw []) as [genc|e]; cbn [rbind].
  - pose proof (rmap_dict_spec label_dic init_types_raw) as Hinit.
    fold (encode_names label_dic init_types_raw) in Hinit.
    destruct (encode_names label_dic init_types_raw) as [ienc|e]; cbn [rbind].
    + done.
    + destruct Hinit as [-> (l & Hl & Hnone)]. split; [done|]. exists l. auto.
  - destruct Hloop as [-> (name & t & cs & Hnone & Hin & Hname)].
    split; [done|]. exists name. split; [done|]. right. eauto.
Qed.

(** *** [encode_graph], then the body of [decode_graph] *)

Section back_and_forth.
Variable d : gmap string nat.
Variable dr : gmap nat string.
Hypothesis Hback : ∀ t k, d !! t = Some k → dr !! k = Some t.

(** An item of the encoded graph next to the item it encodes. *)
Definition encodes (raw : string * list string) (enc : nat * list nat) : Prop :=
  d !! raw.1 = Some enc.1 ∧ Forall2 (λ c x, d !! c = Some x) raw.2 enc.2.

Lemma encode_names_Ok names :
  (∀ c, c ∈ names → is_Some (d !! c)) →
  ∃ ks, encode_names d names = Ok ks ∧ Forall2 (λ c x, d !! c = Some x) names ks.
Proof.
  intros Hknown. pose proof (rmap_dict_spec d names) as Hspec.
  fold (encode_names d names) in Hspec.
  destruct (encode_names d names) as [ks|e]; [by exists ks|].
  destruct Hspec as [_ (c & Hc & Hnone)].
  destruct (Hknown c Hc) as [? ?]. congruence.
Qed.

Lemma decode_list_back names ks :
  Forall2 (λ c x, d !! c = Some x) names ks → decode_list dr ks = Ok names.
Proof.
  unfold decode_list. induction 1 as [|c x names ks Hc _ IH]; [done|].
  cbn [rmap]. rewrite (Hback _ _ Hc). cbn [of_option rbind].
  by rewrite IH.
Qed.

Lemma encode_graph_loop_fresh graph_raw acc :
  NoDup graph_raw.*1 →
  (∀ t cs, (t, cs) ∈ graph_raw →
           is_Some (d !! t) ∧ ∀ c, c ∈ cs → is_Some (d !! c)) →
  (∀ t k, t ∈ graph_raw.*1 → d !! t = Some k → k ∉ acc.*1) →
  ∃ new, encode_graph_loop d graph_raw acc = Ok (acc ++ new) ∧
         Forall2 encodes graph_raw new.
Proof.
  revert acc; induction graph_raw as [|[t cs] rest IH]; intros acc Hnd Hknown Hfresh;
    cbn [encode_graph_loop].
  - exists []. by rewrite app_nil_r.
  - rewrite fmap_cons in Hnd. apply NoDup_cons in Hnd as [Ht Hnd].
    destruct (Hknown t cs ltac:(left)) as [[k Hk] Hcs].
    destruct (encode_names_Ok cs Hcs) as (ks & -> & Hks). cbn [rbind].
    rewrite Hk. cbn [of_option rbind].
    assert (dict_set k ks acc = acc ++ [(k, ks)]) as ->.
    { unfold dict_set. rewrite decide_False; [done|].
      apply (Hfresh t); [by left|done]. }
    destruct (IH (acc ++ [(k, ks)]) Hnd) as (new & -> & Hnew).
    + intros t' cs' Hin. apply Hknown. by right.
    + intros t' k' Ht' Hk'. rewrite fmap_app. cbn [fmap list_fmap fst].
      rewrite not_elem_of_app, list_elem_of_singleton. split.
      * apply (Hfresh t'); [by right|done].
      * intros ->. apply Ht.
        replace t with t'; [done|].
        apply Hback in Hk, Hk'. congruence.
    + exists ((k, ks) :: new). split; [by rewrite <-app_assoc|].
      by constructor.
Qed.

Lemma decode_loop_back graph_raw genc locals g :
  Forall2 encodes graph_raw genc →
  ∃ locals',
    decode_loop dr genc locals g
    = Ok (locals', foldl (λ m raw, <[raw.1 := raw.2]> m) g graph_raw) ∧
    ∀ name, name ≠ "type_" → locals' !! name = locals !! name.
Proof.
  intros Henc. revert locals g.
  induction Henc as [|[t cs] [k ks] graph_raw genc [Hk Hks] _ IH];
    intros locals g; cbn [decode_loop].
  - by exists locals.
  - cbn [fst snd] in Hk, Hks. rewrite (Hback _ _ Hk). cbn [of_option rbind].
    rewrite (decode_list_back _ _ Hks). cbn [rbind].
    destruct (IH (<["type_" := VInt k]> locals) (<[t := cs]> g))
      as (locals' & -> & Hlocals).
    exists locals'. split; [done|].
    intros name Hname. rewrite Hlocals by done. by rewrite lookup_insert_ne.
Qed.
End back_and_forth.

Lemma foldl_insert_lookup (l : list (string * list string))
    (g : gmap string (list string)) t cs :
  NoDup l.*1 →
  foldl (λ m raw, <[raw.1 := raw.2]> m) g l !! t = Some cs ↔
  (t, cs) ∈ l ∨ ((t ∉ l.*1) ∧ g !! t = Some cs).
Proof.
  revert g; induction l as [|[t' cs'] l IH]; intros g Hnd; cbn [foldl].
  - split; [intros ?; right; split; [apply not_elem_of_nil|done]|].
    by intros [?%elem_of_nil|[_ ?]].
  - rewrite fmap_cons in Hnd. apply NoDup_cons in Hnd as [Ht' Hnd].
    rewrite IH by done. cbn [fst snd]. rewrite fmap_cons, not_elem_of_cons.
    cbn [fst]. rewrite elem_of_cons. split.
    + intros [Hin|[Hout Hg]]; [left; by right|].
      destruct (decide (t = t')) as [->|Hne].
      * rewrite lookup_insert_eq in Hg. injection Hg as <-. left. by left.
      * rewrite lookup_insert_ne in Hg by done. by right.
    + intros [[[= -> ->]|Hin]|[[Hne Hout] Hg]].
      * right. split; [done|]. by rewrite lookup_insert_eq.
      * by left.
      * right. split; [done|]. by rewrite lookup_insert_ne.
Qed.

(** On a graph whose types all have codes, the body of [decode_graph] undoes
    [encode_graph]: with the dictionaries of [encode_type] on distinct
    types, [encode_graph] succeeds and, run on its result, [decode_graph]
    reaches its [return] with [graph_dec] equal to the raw graph and
    [init_types_dec] equal to the raw initial types. (The [return] statement
    then names two other variables.) *)
Theorem decode_body_inverts_encode_graph
    (cell_types_raw : list string) (graph_raw : list (string * list string))
    (init_types_raw : list string) :
  NoDup cell_types_raw → NoDup graph_raw.*1 →
  (∀ t cs, (t, cs) ∈ graph_raw →
           t ∈ cell_types_raw ∧ ∀ c, c ∈ cs → c ∈ cell_types_raw) →
  (∀ x, x ∈ init_types_raw → x ∈ cell_types_raw) →
  ∃ graph_enc init_types_enc locals graph_dec,
    encode_graph graph_raw init_types_raw (encode_type cell_types_raw).1
    = Ok (graph_enc, init_types_enc) ∧
    decode_body graph_enc init_types_enc (encode_type cell_types_raw).2 = Ok locals ∧
    locals !! "graph_dec" = Some (VGraphStr graph_dec) ∧
    (∀ t cs, graph_dec !! t = Some cs ↔ (t, cs) ∈ graph_raw) ∧
    locals !! "init_types_dec" = Some (VStrs init_types_raw).
Proof.
  intros Hnd Hkeys Hgraph Hinit.
  set (d := (encode_type cell_types_raw).1).
  set (dr := (encode_type cell_types_raw).2).
  assert (∀ t k, d !! t = Some k → dr !! k = Some t) as Hback.
  { intros t k Hk.
    by destruct (encode_loop_consistent cell_types_raw 0 ∅ ∅ ltac:(done) t k Hk). }
  assert (∀ t, t ∈ cell_types_raw → is_Some (d !! t)) as Hknown.
  { intros t Ht. apply encode_loop_dom. done. }
  destruct (encode_graph_loop_fresh d dr Hback graph_raw []) as (genc & Hloop & Henc).
  { done. }
  { intros t cs [Ht Hcs]%Hgraph. split; [auto|]. intros c Hc. auto. }
  { intros t k _ _. apply not_elem_of_nil. }
  destruct (encode_names_Ok d init_types_raw) as (ienc & Hienc & Hinit2).
  { intros c Hc. auto. }
  destruct (decode_loop_back d dr Hback graph_raw genc
              {[ "graph" := VGraphInt genc; "init_types" := VInts ienc;
                 "label_dic_rev" := VRevDict dr ]} ∅ Henc)
    as (locals' & Hdec & Hlocals).
  eexists genc, ienc, _, _. split_and!.
  - unfold encode_graph. rewrite Hloop. cbn [rbind app]. by rewrite Hienc.
  - unfold decode_body. rewrite Hdec. cbn [rbind].
    rewrite (decode_list_back d dr Hback _ _ Hinit2). cbn [rbind]. done.
  - rewrite lookup_insert_ne by done. by rewrite lookup_insert_eq.
  - intros t cs. rewrite foldl_insert_lookup by done.
    rewrite lookup_empty. split; [by intros [?|[_ ?]]|by left].
  - by rewrite lookup_insert_eq.
Qed.

Lemma decode_body_inverts_encode_graph_witness :
  ∃ graph_enc init_types_enc locals graph_dec,
    encode_graph [("A", ["B"; "C"]); ("B", []); ("C", [])] ["A"]
                 (encode_type ["A"; "B"; "C"]).1
    = Ok (graph_enc, init_types_enc) ∧
    decode_body graph_enc init_types_enc (encode_type ["A"; "B"; "C"]).2
    = Ok locals ∧
    locals !! "graph_dec" = Some (VGraphStr graph_dec) ∧
    (∀ t cs, graph_dec !! t = Some cs ↔
             (t, cs) ∈ [("A", ["B"; "C"]); ("B", []); ("C", [])]) ∧
    locals !! "init_types_dec" = Some (VStrs ["A"]).
Proof.
  apply (decode_body_inverts_encode_graph ["A"; "B"; "C"]
           [("A", ["B"; "C"]); ("B", []); ("C", [])] ["A"]).
  - by apply (bool_decide_unpack _).
  - by apply (bool_decide_unpack _).
  - intros t cs Hin.
    repeat (apply elem_of_cons in Hin as [[= -> ->]|Hin];
            [split; [by apply (bool_decide_unpack _)|];
             intros c Hc;
             repeat (apply elem_of_cons in Hc as [->|Hc];
                     [by apply (bool_decide_unpack _)|]);
             by apply elem_of_nil in Hc|]).
    by apply elem_of_nil in Hin.
  - intros x Hx. repeat (apply elem_of_cons in Hx as [->|Hx];
                         [by apply (bool_decide_unpack _)|]).
    by apply elem_of_nil in Hx.
Defined.
End label_properties.

(** ** More on the epoch loop ([BrODE.train_epoch], [BrODE.train]) *)

Section epoch_properties.
Import Train.
Variable cfg : config.
Variable ll_seq : nat → Qc.
Variable n_batches : nat.

Lemma train_batches_counter b st st' stop :
  train_batches cfg ll_seq b st = Ok (st', stop) →
  if stop then counter st' < counter st + b
  else counter st' = counter st + b.
Proof.
  revert st; induction b as [|b IH]; intros st; cbn [train_batches].
  - intros [= <- <-]. lia.
  - destruct (test_due cfg st) as [due|e]; [|done].
    destruct (due && stop_now cfg (if due then evaluate cfg ll_seq st else st)).
    + intros [= <- <-]. destruct due; simpl; lia.
    + intros Hrest. apply IH in Hrest.
      assert (counter (optimizer_step (if due then evaluate cfg ll_seq st else st))
              = S (counter st)) as Hc by (by destruct due).
      rewrite Hc in Hrest. destruct stop; lia.
Qed.

(** [train_epoch] returns [stop_training = False] exactly when it has taken
    the optimizer step of every minibatch of the loader ([self.counter] grew
    by [len(train_loader)]); when it returns [True] it left the loop before
    the step of some minibatch. *)
Theorem train_epoch_counts_minibatches (st st' : trainer) (stop : bool) :
  train_epoch cfg ll_seq n_batches st = Ok (st', stop) →
  if stop then counter st' < counter st + n_batches
  else counter st' = counter st + n_batches.
Proof. apply train_batches_counter. Qed.

(** With [test_iter = 0] the first minibatch of an epoch raises
    [ZeroDivisionError] (unless [self.counter] is 1): the test
    [self.counter % self.config["test_iter"] == 0] divides by zero. A fresh
    [BrODE] has [self.counter = 0], so [train] raises before any step. *)
Theorem zero_test_iter_raises (st : trainer) :
  test_iter cfg = 0%Z → 0 < n_batches →
  (counter st ≠ 1 →
   train_epoch cfg ll_seq n_batches st = Raise ZeroDivisionError) ∧
  (0 < n_epochs cfg → train cfg ll_seq n_batches = Raise ZeroDivisionError).
Proof.
  intros Hzero Hb.
  assert (∀ st, counter st ≠ 1 →
            train_epoch cfg ll_seq n_batches st = Raise ZeroDivisionError) as Hepoch.
  { intros st0 Hc. unfold train_epoch. destruct n_batches as [|b]; [lia|].
    cbn [train_batches]. unfold test_due.
    destruct (counter st0 =? 1) eqn:Hone; [apply Nat.eqb_eq in Hone; lia|].
    by rewrite Hzero. }
  split; [apply Hepoch|].
  intros He. unfold train. destruct (n_epochs cfg) as [|e]; [lia|].
  cbn [train_epochs]. by rewrite Hepoch.
Qed.

Lemma stop_disabled st : (early_stop cfg ≤ 0)%Z → stop_now cfg st = false.
Proof.
  intros Hle. unfold stop_now. apply andb_false_iff. right.
  apply Z.ltb_ge. lia.
Qed.

Lemma train_batches_no_stop b st :
  (early_stop cfg ≤ 0)%Z → test_iter cfg ≠ 0%Z →
  ∃ st', train_batches cfg ll_seq b st = Ok (st', false) ∧
         length (loss_test st')
         = length (loss_test st) + evals_in cfg (counter st) b.
Proof.
  intros Hle Hiter. revert st; induction b as [|b IH]; intros st;
    cbn [train_batches evals_in].
  - exists st. split; [done|lia].
  - rewrite test_due_Ok by done.
    set (due := (counter st =? 1) || (Z.of_nat (counter st) mod test_iter cfg =? 0)%Z).
    rewrite stop_disabled by done. rewrite andb_false_r.
    destruct (IH (optimizer_step (if due then evaluate cfg ll_seq st else st)))
      as (st' & -> & Hlen).
    exists st'. split; [done|]. rewrite Hlen.
    destruct due; cbn [optimizer_step evaluate loss_test counter];
      [rewrite length_app; simpl|]; lia.
Qed.

(** With [early_stop <= 0] early stopping is switched off: every epoch runs
    all its minibatches and returns [stop_training = False], whatever the
    held-out losses are, and the held-out set is still evaluated on
    schedule. *)
Theorem nonpositive_early_stop_never_stops (st : trainer) :
  (early_stop cfg ≤ 0)%Z → test_iter cfg ≠ 0%Z →
  ∃ st',
    train_epoch cfg ll_seq n_batches st = Ok (st', false) ∧
    counter st' = counter st + n_batches ∧
    length (loss_test st')
    = length (loss_test st) + evals_in cfg (counter st) n_batches.
Proof.
  intros Hle Hiter.
  destruct (train_batches_no_stop n_batches st Hle Hiter) as (st' & Hrun & Hlen).
  exists st'. split_and!; [done| |done].
  by apply train_batches_counter in Hrun.
Qed.
End epoch_properties.

Lemma train_epoch_counts_minibatches_witness :
  Train.counter (Train.optimizer_step
                   (Train.evaluate
                      {| Train.n_epochs := 1; Train.test_iter := 2;
                         Train.early_stop := 3; Train.early_stop_thred := 1%Qc |}
                      (λ _, 0%Qc) Train.init))
  = Train.counter Train.init + 1.
Proof.
  apply (train_epoch_counts_minibatches
           {| Train.n_epochs := 1; Train.test_iter := 2;
              Train.early_stop := 3; Train.early_stop_thred := 1%Qc |}
           (λ _, 0%Qc) 1 Train.init _ false).
  reflexivity.
Defined.

Lemma zero_test_iter_raises_witness :
  (Train.counter Train.init ≠ 1 →
   Train.train_epoch
     {| Train.n_epochs := 2; Train.test_iter := 0;
        Train.early_stop := 3; Train.early_stop_thred := 1%Qc |}
     (λ _, 0%Qc) 4 Train.init = Raise ZeroDivisionError) ∧
  (0 < 2 →
   Train.train
     {| Train.n_epochs := 2; Train.test_iter := 0;
        Train.early_stop := 3; Train.early_stop_thred := 1%Qc |}
     (λ _, 0%Qc) 4 = Raise ZeroDivisionError).
Proof.
  apply (zero_test_iter_raises
           {| Train.n_epochs := 2; Train.test_iter := 0;
              Train.early_stop := 3; Train.early_stop_thred := 1%Qc |}
           (λ _, 0%Qc) 4 Train.init).
  - reflexivity.
  - lia.
Defined.

Lemma nonpositive_early_stop_never_stops_witness :
  ∃ st',
    Train.train_epoch
      {| Train.n_epochs := 2; Train.test_iter := 2;
         Train.early_stop := 0; Train.early_stop_thred := 1%Qc |}
      (λ _, 0%Qc) 4 Train.init = Ok (st', false) ∧
    Train.counter st' = Train.counter Train.init + 4 ∧
    length (Train.loss_test st')
    = length (Train.loss_test Train.init)
      + Train.evals_in
          {| Train.n_epochs := 2; Train.test_iter := 2;
             Train.early_stop := 0; Train.early_stop_thred := 1%Qc |}
          (Train.counter Train.init) 4.
Proof.
  apply (nonpositive_early_stop_never_stops
           {| Train.n_epochs := 2; Train.test_iter := 2;
              Train.early_stop := 0; Train.early_stop_thred := 1%Qc |}
           (λ _, 0%Qc) 4 Train.init).
  - simpl. lia.
  - simpl. lia.
Defined.

(** ** More on graph pruning ([TransGraph.compute_transition_deterministic]) *)

Section prune_properties.
Import Prune.

(** The parents kept for row [i] (the row of [P] before the floor is added):
    an entry that is not zero is the entry of [P_raw] for another type whose
    initial time is not later, and for [n_par >= 1] at most [n_par] entries
    are not zero. *)
Theorem pruning_keeps_at_most_n_par_parents
    (t_init : list Qc) (n_par : Z) (i : nat) (row : list npfloat) :
  (1 ≤ n_par)%Z →
  let Pi := select_parents t_init n_par i row (reverse (argsort row)) 0
              (replicate (length row) (Num 0)) in
  (∀ j, Pi !!! j = Num 0 ∨
        (j ≠ i ∧ (t_init !!! j ≤ t_init !!! i)%Qc ∧ Pi !!! j = row !!! j)) ∧
  (Z.of_nat (length (filter (λ j, Pi !!! j ≠ Num 0) (seq 0 (length row))))
   ≤ n_par)%Z.
Proof.
  intros Hpar Pi. split.
  - intros j. destruct (select_from_zeros t_init n_par i row j) as [Hz|[Hel Hj]];
      [by left|right].
    unfold eligible in Hel. apply andb_true_iff in Hel as [Hne Hle].
    apply bool_decide_eq_true in Hne, Hle. done.
  - pose proof (select_parents_nz_bound t_init n_par i row (reverse (argsort row)) 0
                  (replicate (length row) (Num 0))) as Hbound.
    rewrite nzidx_replicate in Hbound. specialize (Hbound ltac:(simpl; lia) ltac:(lia)).
    unfold nzidx in Hbound.
    by rewrite select_parents_length, length_replicate in Hbound.
Qed.

Lemma pruning_keeps_at_most_n_par_parents_witness :
  let row := [frac 3 10; frac 7 10; frac 0 1] in
  let t_init := [0%Qc; 0%Qc; 1%Qc] in
  let i := 2 in
  let Pi := select_parents t_init 1 i row (reverse (argsort row)) 0
              (replicate (length row) (Num 0)) in
  (∀ j, Pi !!! j = Num 0 ∨
        (j ≠ i ∧ (t_init !!! j ≤ t_init !!! i)%Qc ∧ Pi !!! j = row !!! j)) ∧
  (Z.of_nat (length (filter (λ j, Pi !!! j ≠ Num 0) (seq 0 (length row))))
   ≤ 1)%Z.
Proof.
  apply (pruning_keeps_at_most_n_par_parents [0%Qc; 0%Qc; 1%Qc] 1 2
           [frac 3 10; frac 7 10; frac 0 1]).
  lia.
Defined.

Lemma fl_div_zero s : fl_div (Num 0) s = Num 0 ∨ fl_div (Num 0) s = NaN.
Proof.
  destruct s as [y| | |]; unfold fl_div; auto.
  destruct (decide (y = 0)%Qc) as [Hy|Hy].
  - right. by destruct (decide (0 = 0)%Qc).
  - left. f_equal. unfold Qcdiv. by rewrite Qcmult_0_l.
Qed.

Lemma pruned_row_self t_init n_par i row :
  i < length row → pruned_row t_init n_par (i, row) !! i = Some (Num 0).
Proof.
  intros Hi. unfold pruned_row, add_floor. cbn [fst snd].
  rewrite list_lookup_imap.
  assert (length (selected t_init n_par i row) = length row) as Hlen
    by (unfold selected; by rewrite select_parents_length, length_replicate).
  rewrite list_lookup_lookup_total_lt by lia. cbn [fmap option_fmap option_map].
  rewrite bool_decide_eq_false_2 by (unfold Qclt; apply Qlt_irrefl).
  destruct (select_from_zeros t_init n_par i row i) as [->|[Hel _]]; [done|].
  by rewrite not_eligible_self in Hel.
Qed.

(** The pruned matrix has no self transition: after pruning and row
    normalisation [P[i,i]] is 0, or NaN when the row sums to zero; its
    logarithm is never a finite edge weight. *)
Theorem pruned_matrix_has_no_self_transition
    (P_raw : list (list npfloat)) (t_init : list Qc) (n_par : Z)
    (P : list (list npfloat)) (i : nat) (row : list npfloat) :
  prune P_raw t_init n_par = Ok P →
  P !! i = Some row → i < length row →
  row !!! i = Num 0 ∨ row !!! i = NaN.
Proof.
  intros Hprune Hrow Hi.
  rewrite (prune_lookup _ _ _ _ i Hprune) in Hrow.
  destruct (P_raw !! i) as [raw|]; [|done]. injection Hrow as <-.
  unfold normalise_row in *. rewrite length_fmap in Hi.
  assert (length (pruned_row t_init n_par (i, raw)) = length raw) as Hlen.
  { unfold pruned_row, add_floor, selected. cbn [fst snd].
    by rewrite length_imap, select_parents_length, length_replicate. }
  pose proof (pruned_row_self t_init n_par i raw ltac:(lia)) as Hself.
  erewrite list_lookup_total_correct;
    [|by rewrite list_lookup_fmap, Hself].
  apply fl_div_zero.
Qed.

Lemma pruned_matrix_has_no_self_transition_witness :
  [frac 1 702; frac 701 702; frac 0 1] !!! 2 = Num 0 ∨
  [frac 1 702; frac 701 702; frac 0 1] !!! 2 = NaN.
Proof.
  apply (pruned_matrix_has_no_self_transition
           [[frac 0 1; frac 1 1; frac 0 1];
            [frac 1 1; frac 0 1; frac 0 1];
            [frac 3 10; frac 7 10; frac 0 1]]
           [0%Qc; 0%Qc; 1%Qc] 1
           [[frac 0 1; frac 1 1; frac 0 1];
            [frac 1 1; frac 0 1; frac 0 1];
            [frac 1 702; frac 701 702; frac 0 1]] 2).
  - apply (bool_decide_unpack _). vm_compute. exact I.
  - reflexivity.
  - simpl. lia.
Defined.

(** The loop that builds [P] never fails its [assert P[i,i] == 0], and the
    pruned matrix has the shape of [P_raw]. *)
Theorem prune_passes_its_assertion
    (P_raw : list (list npfloat)) (t_init : list Qc) (n_par : Z) :
  length t_init = length P_raw →
  Forall (λ row, length row = length P_raw) P_raw →
  ∃ P, prune P_raw t_init n_par = Ok P ∧
       length P = length P_raw ∧
       Forall (λ row, length row = length P_raw) P.
Proof.
  intros _ Hshape. rewrite prune_Ok. eexists. split; [done|]. split.
  - by rewrite !length_fmap, length_imap.
  - apply Forall_fmap, Forall_fmap, Forall_lookup.
    intros k [j raw] Hk. cbn.
    rewrite list_lookup_imap in Hk.
    destruct (P_raw !! k) as [raw'|] eqn:Hraw; [|done]. injection Hk as <- <-.
    unfold normalise_row, pruned_row, add_floor, selected. cbn [fst snd].
    rewrite length_fmap, length_imap, select_parents_length, length_replicate.
    by apply (Forall_lookup_1 _ _ _ _ Hshape Hraw).
Qed.

Lemma prune_passes_its_assertion_witness :
  ∃ P, prune [[frac 1 1; frac 0 1]; [frac 1 2; frac 1 2]] [0%Qc; 1%Qc] 2 = Ok P ∧
       length P = length [[frac 1 1; frac 0 1]; [frac 1 2; frac 1 2]] ∧
       Forall (λ row, length row
                      = length [[frac 1 1; frac 0 1]; [frac 1 2; frac 1 2]]) P.
Proof.
  apply (prune_passes_its_assertion
           [[frac 1 1; frac 0 1]; [frac 1 2; frac 1 2]] [0%Qc; 1%Qc] 2).
  - reflexivity.
  - repeat constructor.
Defined.
End prune_properties.

(** ** Transition times ([recover_transition_time_rec],
       [recoverTransitionTime]) *)

Module Recover.
Import Connect.

Section times.
(** The entries of [t_trans] and [ts] and their addition; nothing is assumed
    of it. *)
Context {T : Type}.
Variable add : T → T → T.

(** The two updates at the head of the loop of
    [recover_transition_time_rec]:
    [t_trans[cur_type] += t_trans[prev_type]], then
    [ts[cur_type] += t_trans[cur_type]]. An index past the end of an array
    raises [IndexError]. *)
Definition shift (prev_type : nat) (st : list T * list T) (cur_type : nat)
    : result (list T * list T) :=
  a <- of_option IndexError (st.1 !! cur_type) ;;
  b <- of_option IndexError (st.1 !! prev_type) ;;
  let t_trans := <[cur_type := add a b]> st.1 in
  c <- of_option IndexError (st.2 !! cur_type) ;;
  Ok (t_trans, <[cur_type := add c (add a b)]> st.2).

(** [recover_transition_time_rec]; [fuel] bounds the depth of the
    recursion. The test [len(graph[prev_type])==0] is the loop over an empty
    list. *)
Fixpoint recover_transition_time_rec (fuel : nat) (st : list T * list T)
    (prev_type : nat) (graph : gmap nat (list nat)) : result (list T * list T) :=
  match fuel with
  | O => Raise OutOfFuel
  | S fuel' =>
      children <- of_option KeyError (graph !! prev_type) ;;
      rfoldl (λ st cur_type,
                st' <- shift prev_type st cur_type ;;
                recover_transition_time_rec fuel' st' cur_type graph)
             st children
  end.

(** [recoverTransitionTime]: the arrays handed in are copied, so the state
    threaded here is the pair of copies [t_trans_orig], [ts_orig]. *)
Definition recoverTransitionTime (fuel : nat) (t_trans ts : list T)
    (graph : gmap nat (list nat)) (init_type : list nat)
    : result (list T * list T) :=
  rfoldl (λ st x,
            c <- of_option IndexError (st.2 !! x) ;;
            a <- of_option IndexError (st.1 !! x) ;;
            recover_transition_time_rec fuel (st.1, <[x := add c a]> st.2) x graph)
         (t_trans, ts) init_type.
End times.

End Recover.

Section recover_facts.
Import Connect Recover.
Context {T : Type}.
Variable add : T → T → T.
Variable graph : gmap nat (list nat).

(** [c] is a child of [p] in [graph]. *)
Definition child_of (p c : nat) : Prop := ∃ l, graph !! p = Some l ∧ c ∈ l.

Lemma rfoldl_raises {A B} (f : A → B → result A) (l : list B) (b : B) (a : A) :
  b ∈ l → (∀ a out, f a b ≠ Ok out) → ∀ out, rfoldl f a l ≠ Ok out.
Proof.
  intros Hb Hf. revert a; induction l as [|b' l IH]; intros a out; cbn [rfoldl].
  - by apply elem_of_nil in Hb.
  - apply elem_of_cons in Hb as [<-|Hb].
    + destruct (f a b) as [a'|e] eqn:Hfa; [by apply Hf in Hfa|done].
    + destruct (f a b') as [a'|e]; [by apply IH|done].
Qed.

Lemma rec_never_returns fuel st prev y :
  rtc child_of prev y → tc child_of y y →
  ∀ out, recover_transition_time_rec add fuel st prev graph ≠ Ok out.
Proof.
  intros Hreach Hcycle. revert st prev Hreach.
  induction fuel as [|fuel IH]; intros st prev Hreach out; [done|].
  cbn [recover_transition_time_rec].
  assert (∃ c, child_of prev c ∧ rtc child_of c y) as (c & (l & Hl & Hc) & Hcy).
  { apply rtc_inv in Hreach as [->|(c & Hstep & Hrest)]; [|eauto].
    inversion Hcycle as [? ? Hstep|? c ? Hstep Hrest]; subst.
    - exists y. split; [done|apply rtc_refl].
    - exists c. split; [done|by apply tc_rtc]. }
  rewrite Hl. cbn [of_option rbind].
  apply (rfoldl_raises _ l c); [done|].
  intros st' out'. destruct (shift add prev st' c) as [st''|e]; [|done].
  cbn [rbind]. by apply IH.
Qed.

(** A cycle of [graph] that can be reached from an initial type keeps the
    recursion from ever returning: whatever depth is allowed,
    [recoverTransitionTime] does not return (Python ends it with a
    [RecursionError], or with an [IndexError] or [KeyError] met on the
    way). *)
Theorem recoverTransitionTime_never_returns_on_a_cycle
    (fuel : nat) (t_trans ts : list T) (init_type : list nat) (x y : nat) :
  x ∈ init_type → rtc child_of x y → tc child_of y y →
  ∃ e, recoverTransitionTime add fuel t_trans ts graph init_type = Raise e.
Proof.
  intros Hx Hreach Hcycle.
  destruct (recoverTransitionTime add fuel t_trans ts graph init_type)
    as [out|e] eqn:Hrun; [exfalso|by exists e].
  revert Hrun. unfold recoverTransitionTime.
  apply (rfoldl_raises _ init_type x); [done|].
  intros st out'.
  destruct (st.2 !! x); cbn [of_option rbind]; [|done].
  destruct (st.1 !! x); cbn [of_option rbind]; [|done].
  by eapply rec_never_returns.
Qed.
End recover_facts.

Lemma recoverTransitionTime_never_returns_on_a_cycle_witness :
  ∃ e, Recover.recoverTransitionTime Z.add 5 [1; 2]%Z [0; 0]%Z
         {[ 0 := [1]; 1 := [0] ]} [0] = Raise e.
Proof.
  apply (recoverTransitionTime_never_returns_on_a_cycle
           Z.add {[ 0 := [1]; 1 := [0] ]} 5 [1; 2]%Z [0; 0]%Z [0] 0 0).
  - by left.
  - apply rtc_refl.
  - apply (tc_l _ 0 1 0).
    + exists [1]. split; [reflexivity|by left].
    + apply tc_once. exists [0]. split; [reflexivity|by left].
Defined.

(** *** Transition times on a forest *)

Section forest.
Import Connect Recover.
Context {T : Type} `{!Inhabited T}.
Variable add : T → T → T.
Variable graph : gmap nat (list nat).
Variable n : nat.
Variable rank : nat → nat.
Hypothesis Hkeys : ∀ v, v < n → is_Some (graph !! v).
Hypothesis Hrange : ∀ p c, child_of graph p c → c < n.
Hypothesis Hparent : ∀ p1 p2 c, child_of graph p1 c → child_of graph p2 c → p1 = p2.
Hypothesis Hnodup : ∀ p l, graph !! p = Some l → NoDup l.
Hypothesis Hrank : ∀ p c, child_of graph p c → rank c < rank p.

Local Abbreviation child := (child_of graph).

Lemma rank_descends a b : tc child a b → rank b < rank a.
Proof.
  induction 1 as [a b Hab|a b c Hab _ IH]; [by apply Hrank|].
  apply Hrank in Hab. lia.
Qed.

Lemma no_cycle v : ¬ tc child v v.
Proof. intros Hv%rank_descends. lia. Qed.

(** Two ancestors of a node lie on one line. *)
Lemma ancestors_in_line a b v :
  rtc child a v → rtc child b v → rtc child a b ∨ rtc child b a.
Proof.
  intros Ha. revert b. revert v Ha.
  apply (rtc_ind_r (λ v, ∀ b, rtc child b v → rtc child a b ∨ rtc child b a)).
  - intros b Hb. by right.
  - intros y v Hay Hyv IH b Hb.
    apply rtc_inv_r in Hb as [->|(y' & Hby' & Hy'v)].
    + left. by eapply rtc_r.
    + rewrite (Hparent y' y v Hy'v Hyv) in Hby'. by apply IH.
Qed.

Lemma not_above_parent p c : child p c → ¬ rtc child c p.
Proof.
  intros Hpc Hcp. apply (no_cycle p). eapply tc_rtc_r; [by apply tc_once|done].
Qed.

Lemma siblings_apart p c1 c2 v :
  child p c1 → child p c2 → rtc child c1 v → rtc child c2 v → c1 = c2.
Proof.
  assert (∀ c1 c2, child p c1 → child p c2 → rtc child c1 c2 → c1 = c2) as Hline.
  { intros a b Ha Hb Hab.
    apply rtc_inv_r in Hab as [?|(y & Hay & Hyb)]; [done|].
    rewrite (Hparent y p b Hyb Hb) in Hay. by apply not_above_parent in Hay. }
  intros H1 H2 Hv1 Hv2.
  destruct (ancestors_in_line c1 c2 v Hv1 Hv2) as [?|?]; [by apply Hline|].
  symmetry. by apply Hline.
Qed.

Definition sized (st : list T * list T) : Prop :=
  length st.1 = n ∧ length st.2 = n.

(** The two values agree at index [v]. *)
Definition same_at (st st' : list T * list T) (v : nat) : Prop :=
  st'.1 !!! v = st.1 !!! v ∧ st'.2 !!! v = st.2 !!! v.

(** What a call of [recover_transition_time_rec] at [prev] does to the
    arrays. *)
Definition below (prev : nat) (st st' : list T * list T) : Prop :=
  (∀ v, ¬ tc child prev v → same_at st st' v) ∧
  (∀ p c, rtc child prev p → child p c →
          st'.1 !!! c = add (st.1 !!! c) (st'.1 !!! p)) ∧
  (∀ v, tc child prev v → st'.2 !!! v = add (st.2 !!! v) (st'.1 !!! v)).

(** The step before the recursive call, in the loop over the children of
    [prev] ([from = Some prev]) and in the loop over the initial types
    ([from = None]). *)
Definition enter (from : option nat) (st : list T * list T) (x : nat)
    : result (list T * list T) :=
  match from with
  | Some prev => shift add prev st x
  | None =>
      c <- of_option IndexError (st.2 !! x) ;;
      a <- of_option IndexError (st.1 !! x) ;;
      Ok (st.1, <[x := add c a]> st.2)
  end.

Definition entered (from : option nat) (st : list T * list T) (x : nat) : T :=
  match from with
  | Some prev => add (st.1 !!! x) (st.1 !!! prev)
  | None => st.1 !!! x
  end.

Lemma enter_spec from st x :
  sized st → x < n → (∀ prev, from = Some prev → prev < n) →
  ∃ st1, enter from st x = Ok st1 ∧ sized st1 ∧
         (∀ v, v ≠ x → same_at st st1 v) ∧
         st1.1 !!! x = entered from st x ∧
         st1.2 !!! x = add (st.2 !!! x) (entered from st x).
Proof.
  intros [Hl1 Hl2] Hx Hfrom.
  assert (st.1 !! x = Some (st.1 !!! x)) as H1
    by (apply list_lookup_lookup_total_lt; lia).
  assert (st.2 !! x = Some (st.2 !!! x)) as H2
    by (apply list_lookup_lookup_total_lt; lia).
  destruct from as [prev|]; cbn [enter entered].
  - specialize (Hfrom prev eq_refl).
    assert (st.1 !! prev = Some (st.1 !!! prev)) as Hp
      by (apply list_lookup_lookup_total_lt; lia).
    unfold shift. rewrite H1, Hp, H2. cbn [of_option rbind].
    eexists. split; [done|]. cbn [fst snd]. split_and!.
    + split; cbn [fst snd]; by rewrite length_insert.
    + intros v Hv. split; cbn [fst snd];
        by rewrite list_lookup_total_insert_ne.
    + apply list_lookup_total_insert_eq. lia.
    + apply list_lookup_total_insert_eq. lia.
  - rewrite H1, H2. cbn [of_option rbind].
    eexists. split; [done|]. cbn [fst snd]. split_and!.
    + split; cbn [fst snd]; [done|by rewrite length_insert].
    + intros v Hv. split; cbn [fst snd]; [done|].
      by rewrite list_lookup_total_insert_ne.
    + done.
    + apply list_lookup_total_insert_eq. lia.
Qed.

Section folding.
Variable f : nat.
Hypothesis Hrec : ∀ st prev,
  rank prev < f → prev < n → sized st →
  ∃ st', recover_transition_time_rec add f st prev graph = Ok st' ∧
         sized st' ∧ below prev st st'.

(** A loop over roots of separate subtrees: each subtree is handled as if
    the others were not there. *)
Lemma roots_fold from L :
  ∀ st,
    NoDup L → (∀ x, x ∈ L → x < n ∧ rank x < f) → sized st →
    (∀ x y v, x ∈ L → y ∈ L → rtc child x v → rtc child y v → x = y) →
    (∀ prev, from = Some prev → prev < n ∧ ∀ x, x ∈ L → ¬ rtc child x prev) →
    ∃ st',
      rfoldl (λ st x, st1 <- enter from st x ;;
                      recover_transition_time_rec add f st1 x graph) st L = Ok st' ∧
      sized st' ∧
      (∀ v, (∀ x, x ∈ L → ¬ rtc child x v) → same_at st st' v) ∧
      (∀ x, x ∈ L → st'.1 !!! x = entered from st x) ∧
      (∀ x p c, x ∈ L → rtc child x p → child p c →
                st'.1 !!! c = add (st.1 !!! c) (st'.1 !!! p)) ∧
      (∀ x v, x ∈ L → rtc child x v →
              st'.2 !!! v = add (st.2 !!! v) (st'.1 !!! v)).
Proof.
  induction L as [|x L IH]; intros st Hnd HL Hsized Hind Hfrom; cbn [rfoldl].
  - exists st. split_and!; [done..| | |]; by intros ? ? ?%elem_of_nil
      || by intros ? ?%elem_of_nil || by intros ? ? ? ?%elem_of_nil.
  - apply NoDup_cons in Hnd as [HxL Hnd].
    destruct (HL x ltac:(left)) as [Hx Hrk].
    destruct (enter_spec from st x Hsized Hx) as (st1 & -> & Hsized1 & Hsame1 & Ht1 & Hs1).
    { intros prev Hp. by destruct (Hfrom prev Hp). }
    cbn [rbind].
    destruct (Hrec st1 x Hrk Hx Hsized1) as (st2 & -> & Hsized2 & Hout & Hin & Hts).
    cbn [rbind].
    destruct (IH st2 Hnd) as (st' & -> & Hsized' & F1 & F2 & F3 & F4).
    { intros y Hy. apply HL. by right. }
    { done. }
    { intros y z v Hy Hz. apply Hind; by right. }
    { intros prev Hp. destruct (Hfrom prev Hp) as [? Hnot]. split; [done|].
      intros y Hy. apply Hnot. by right. }
    (* nodes outside the subtree of [x] are as before *)
    assert (∀ v, ¬ rtc child x v → same_at st st2 v) as Houtside.
    { intros v Hv. assert (v ≠ x) as Hne by (intros ->; by apply Hv).
      destruct (Hsame1 v Hne) as [E1 E2].
      destruct (Hout v) as [E3 E4]; [intros ?%tc_rtc; by apply Hv|].
      split; congruence. }
    (* nodes inside it are not touched by the later roots *)
    assert (∀ v, rtc child x v → same_at st2 st' v) as Hinside.
    { intros v Hv. apply F1. intros y Hy Hyv.
      apply HxL. rewrite (Hind x y v); [done|by left|by right|done..]. }
    assert (∀ y v, y ∈ L → rtc child y v → ¬ rtc child x v) as Hapart.
    { intros y v Hy Hyv Hxv. apply HxL.
      rewrite (Hind x y v); [done|by left|by right|done..]. }
    assert (st2.1 !!! x = entered from st x ∧
            st2.2 !!! x = add (st.2 !!! x) (entered from st x)) as [Hx1 Hx2].
    { destruct (Hout x (no_cycle x)) as [E1 E2]. split; congruence. }
    exists st'. split_and!; [done..| | | |].
    + intros v Hv.
      destruct (Houtside v) as [E1 E2]; [apply Hv; by left|].
      destruct (F1 v) as [E3 E4]; [intros y Hy; apply Hv; by right|].
      split; congruence.
    + intros y [->|Hy]%elem_of_cons.
      * destruct (Hinside x) as [E1 _]; [done|]. congruence.
      * rewrite (F2 y Hy).
        destruct (Houtside y) as [E1 _]; [by apply (Hapart y)|].
        destruct from as [prev|]; cbn [entered]; [|done].
        destruct (Hfrom prev eq_refl) as [_ Hnot].
        destruct (Houtside prev) as [E2 _]; [apply Hnot; by left|].
        congruence.
    + intros y p c [->|Hy]%elem_of_cons Hyp Hpc.
      * assert (rtc child x c) as Hxc by (by eapply rtc_r).
        destruct (Hinside c Hxc) as [E1 _]. destruct (Hinside p Hyp) as [E2 _].
        rewrite E1, E2, (Hin p c Hyp Hpc). f_equal.
        destruct (Hsame1 c) as [E3 _]; [|done].
        intros ->. apply (no_cycle x). eapply tc_rtc_l; [exact Hyp|by apply tc_once].
      * rewrite (F3 y p c Hy Hyp Hpc). f_equal.
        destruct (Houtside c) as [E1 _]; [|done].
        apply (Hapart y); [done|]. by eapply rtc_r.
    + intros y v [->|Hy]%elem_of_cons Hyv.
      * destruct (Hinside v Hyv) as [E1 E2]. rewrite E1, E2.
        apply rtc_tc in Hyv as [<-|Hyv]; [congruence|].
        rewrite (Hts v Hyv). f_equal.
        destruct (Hsame1 v) as [_ E3]; [|done].
        intros ->. by apply (no_cycle x).
      * rewrite (F4 y v Hy Hyv). f_equal.
        destruct (Houtside v) as [_ E1]; [|done]. by apply (Hapart y).
Qed.
End folding.

Lemma rfoldl_ext {A B} (g1 g2 : A → B → result A) (l : list B) (a : A) :
  (∀ a b, g1 a b = g2 a b) → rfoldl g1 a l = rfoldl g2 a l.
Proof.
  intros Hg. revert a; induction l as [|b l IH]; intros a; cbn [rfoldl]; [done|].
  rewrite Hg. destruct (g2 a b); cbn [rbind]; [apply IH|done].
Qed.

Lemma child_listed p l c : graph !! p = Some l → child p c → c ∈ l.
Proof. intros Hl (l' & Hl' & Hc). congruence. Qed.

Lemma first_step a v : tc child a v → ∃ x, child a x ∧ rtc child x v.
Proof.
  inversion 1 as [? ? Hstep|? x ? Hstep Hrest]; subst.
  - exists v. split; [done|apply rtc_refl].
  - exists x. split; [done|by apply tc_rtc].
Qed.

(** On a forest a call of [recover_transition_time_rec] returns, and it
    changes the arrays below [prev] only. *)
Lemma rec_spec fuel :
  ∀ st prev,
    rank prev < fuel → prev < n → sized st →
    ∃ st', recover_transition_time_rec add fuel st prev graph = Ok st' ∧
           sized st' ∧ below prev st st'.
Proof.
  induction fuel as [|f IH]; intros st prev Hrk Hprev Hsized; [lia|].
  cbn [recover_transition_time_rec].
  destruct (Hkeys prev Hprev) as [l Hl]. rewrite Hl. cbn [of_option rbind].
  assert (∀ x, x ∈ l → child prev x) as Hkids by (intros x Hx; by exists l).
  destruct (roots_fold f IH (Some prev) l st) as (st' & Hfold & Hsized' & F1 & F2 & F3 & F4).
  - by eapply Hnodup.
  - intros x Hx. split; [by eapply Hrange, Hkids|].
    pose proof (Hrank prev x (Hkids x Hx)). lia.
  - done.
  - intros x y v Hx Hy. apply (siblings_apart prev); auto.
  - intros ? [= <-]. split; [done|]. intros x Hx. by apply not_above_parent, Hkids.
  - exists st'. split; [exact Hfold|]. split; [done|].
    assert (same_at st st' prev) as [Eprev _].
    { apply F1. intros x Hx. by apply not_above_parent, Hkids. }
    split_and!.
    + intros v Hv. apply F1. intros x Hx Hxv. apply Hv.
      eapply tc_rtc_r; [apply tc_once, Hkids, Hx|done].
    + intros p c Hp Hpc. apply rtc_inv in Hp as [<-|(x & Hx & Hxp)].
      * rewrite (F2 c) by (by eapply child_listed). cbn [entered]. by rewrite Eprev.
      * apply (F3 x); [by eapply child_listed|done..].
    + intros v (x & Hx & Hxv)%first_step.
      apply (F4 x); [by eapply child_listed|done].
Qed.

(** On a forest whose roots are the initial types,
    [recoverTransitionTime] returns once the allowed depth exceeds the
    height of the forest. In the arrays it returns: an initial type keeps
    its transition time; a type reached from an initial type gets its own
    relative transition time added to the returned transition time of its
    parent; the switching time of every reached type is its relative time
    plus its returned transition time; every other entry is unchanged. *)
Theorem recoverTransitionTime_on_a_forest
    (fuel : nat) (t_trans ts : list T) (init_type : list nat) :
  length t_trans = n → length ts = n →
  NoDup init_type →
  (∀ x, x ∈ init_type → x < n ∧ rank x < fuel ∧ ∀ p, ¬ child p x) →
  ∃ t_trans_orig ts_orig,
    recoverTransitionTime add fuel t_trans ts graph init_type
    = Ok (t_trans_orig, ts_orig) ∧
    length t_trans_orig = n ∧ length ts_orig = n ∧
    (∀ x, x ∈ init_type → t_trans_orig !!! x = t_trans !!! x) ∧
    (∀ x p c, x ∈ init_type → rtc child x p → child p c →
              t_trans_orig !!! c = add (t_trans !!! c) (t_trans_orig !!! p)) ∧
    (∀ x v, x ∈ init_type → rtc child x v →
            ts_orig !!! v = add (ts !!! v) (t_trans_orig !!! v)) ∧
    (∀ v, (∀ x, x ∈ init_type → ¬ rtc child x v) →
          t_trans_orig !!! v = t_trans !!! v ∧ ts_orig !!! v = ts !!! v).
Proof.
  intros Hl1 Hl2 Hnd Hinit.
  destruct (roots_fold fuel (rec_spec fuel) None init_type (t_trans, ts))
    as ([tt tss] & Hfold & [Hs1 Hs2] & F1 & F2 & F3 & F4).
  - done.
  - intros x Hx. destruct (Hinit x Hx) as (? & ? & _). done.
  - done.
  - intros x y v Hx Hy Hxv Hyv.
    destruct (Hinit x Hx) as (_ & _ & Hrootx), (Hinit y Hy) as (_ & _ & Hrooty).
    destruct (ancestors_in_line x y v Hxv Hyv) as [Hline|Hline];
      apply rtc_inv_r in Hline as [?|(p & _ & Hp)]; try done.
    + by apply Hrooty in Hp.
    + by apply Hrootx in Hp.
  - done.
  - exists tt, tss. split_and!; [|done..].
    unfold recoverTransitionTime. rewrite <-Hfold. apply rfoldl_ext.
    intros st x. cbn [enter].
    destruct (st.2 !! x); cbn [of_option rbind]; [|done].
    by destruct (st.1 !! x).
Qed.
End forest.

(** A graph with the one edge from type 0 to type 1. *)
Definition one_edge_graph : gmap nat (list nat) := {[ 0 := [1]; 1 := [] ]}.

Lemma one_edge_graph_child p c : child_of one_edge_graph p c → p = 0 ∧ c = 1.
Proof.
  intros (l & Hl & Hc). unfold one_edge_graph in Hl.
  destruct p as [|[|p]].
  - rewrite lookup_insert_eq in Hl. injection Hl as <-.
    by apply list_elem_of_singleton in Hc.
  - rewrite lookup_insert_ne, lookup_singleton_eq in Hl by done.
    injection Hl as <-. by apply elem_of_nil in Hc.
  - by rewrite lookup_insert_ne, lookup_singleton_ne in Hl by done.
Qed.

Lemma recoverTransitionTime_on_a_forest_witness :
  ∃ t_trans_orig ts_orig,
    Recover.recoverTransitionTime Z.add 3 [5; 7]%Z [1; 2]%Z one_edge_graph [0]
    = Ok (t_trans_orig, ts_orig) ∧
    length t_trans_orig = 2 ∧ length ts_orig = 2 ∧
    (∀ x, x ∈ [0] → t_trans_orig !!! x = [5; 7]%Z !!! x) ∧
    (∀ x p c, x ∈ [0] → rtc (child_of one_edge_graph) x p →
              child_of one_edge_graph p c →
              t_trans_orig !!! c = ([5; 7]%Z !!! c + t_trans_orig !!! p)%Z) ∧
    (∀ x v, x ∈ [0] → rtc (child_of one_edge_graph) x v →
            ts_orig !!! v = ([1; 2]%Z !!! v + t_trans_orig !!! v)%Z) ∧
    (∀ v, (∀ x, x ∈ [0] → ¬ rtc (child_of one_edge_graph) x v) →
          t_trans_orig !!! v = [5; 7]%Z !!! v ∧ ts_orig !!! v = [1; 2]%Z !!! v).
Proof.
  apply (recoverTransitionTime_on_a_forest Z.add one_edge_graph 2 (λ v, 2 - v)).
  - intros [|[|v]] Hv; [by eexists..|lia].
  - intros p c [_ ->]%one_edge_graph_child. lia.
  - by intros p1 p2 c [-> _]%one_edge_graph_child [-> _]%one_edge_graph_child.
  - intros [|[|p]] l Hl; unfold one_edge_graph in Hl.
    + rewrite lookup_insert_eq in Hl. injection Hl as <-. apply NoDup_singleton.
    + rewrite lookup_insert_ne, lookup_singleton_eq in Hl by done.
      injection Hl as <-. constructor.
    + by rewrite lookup_insert_ne, lookup_singleton_ne in Hl by done.
  - intros p c [-> ->]%one_edge_graph_child. lia.
  - reflexivity.
  - reflexivity.
  - apply NoDup_singleton.
  - intros x ->%list_elem_of_singleton. split_and!; [lia..|].
    by intros p [_ ?]%one_edge_graph_child.
Defined.

(** ** The default graphs ([encode_type_graph]) *)

Module Defaults.
Import Encode Labels.

(** The two module-level dictionaries the function reads, keyed by dataset:
    [graph_default] and [init_types]. A name the module does not bind is
    [None], and reading it raises [NameError]. *)
Record module_tables : Type := {
  graph_default : option (gmap string (list (string * list string)));
  init_types : option (gmap string (list string));
}.

(** [TransitionGraph.py] binds neither name. *)
Definition module_as_written : module_tables :=
  {| graph_default := None; init_types := None |}.

(** [encode_type_graph]. The unknown-dataset branch returns
    [{},{},{},[]]. *)
Definition encode_type_graph (globals : module_tables) (key : string)
    (cell_types_raw : list string)
    : result (gmap string nat * gmap nat string * list (nat * list nat) * list nat) :=
  gd <- of_option NameError (graph_default globals) ;;
  match gd !! key with
  | None => Ok (∅, ∅, [], [])
  | Some graph_raw =>
      let label_dic := (encode_type cell_types_raw).1 in
      let label_dic_rev := (encode_type cell_types_raw).2 in
      graph_enc <- encode_graph_loop label_dic graph_raw [] ;;
      it <- of_option NameError (init_types globals) ;;
      init_raw <- of_option KeyError (it !! key) ;;
      init_types_enc <- encode_names label_dic init_raw ;;
      Ok (label_dic, label_dic_rev, graph_enc, init_types_enc)
  end.

End Defaults.

Section defaults_facts.
Import Encode Labels Defaults.

(** [encode_type_graph] cannot be used as the module is written: its first
    statement reads [graph_default], which the module never binds, so every
    call raises [NameError]. Binding [graph_default] alone is not enough: for
    a known dataset whose graph encodes, the later read of [init_types]
    raises [NameError]. *)
Theorem encode_type_graph_raises_NameError
    (key : string) (cell_types_raw : list string) :
  encode_type_graph module_as_written key cell_types_raw = Raise NameError ∧
  ∀ gd graph_raw graph_enc,
    gd !! key = Some graph_raw →
    encode_graph_loop (encode_type cell_types_raw).1 graph_raw [] = Ok graph_enc →
    encode_type_graph {| graph_default := Some gd; init_types := None |}
                      key cell_types_raw = Raise NameError.
Proof.
  split; [done|].
  intros gd graph_raw graph_enc Hkey Hloop. unfold encode_type_graph.
  cbn [graph_default init_types of_option rbind]. rewrite Hkey. cbv zeta.
  by rewrite Hloop.
Qed.
End defaults_facts.
